(** * YokelGraph: a shallow embedding of [yokel::graph_c] and its properties

    The development follows [include/YokelGraph/Graph.hpp].  The class is a
    template over the identifier type and the edge payload type; here both
    are type parameters, and what the template expects from the identifier
    type (equality, the ordering of [std::map], a default value and
    [std::hash]) is collected in two type classes.

    Representation choices:
    - [std::size_t] values are integers of [Z] in the range [0, 2^64), with
      the wrap-around of the shift in [merge_ids] written out;
    - [std::map<NODE_ID_TYPE, node_s>] is an association list kept in key
      order (the iteration order matters in [contains_cycles]); a key is
      found by the equality of the identifier type, with which the
      equivalence induced by [operator<] is taken to coincide;
    - [std::map<std::size_t, _>] (edge storage and cache) is a [gmap Z _];
    - a [node_s*] / [node_if*] handle is the key of the map entry it points
      to.  Entries of a [std::map] never move and the class never erases
      one, so a handle obtained from the map stays valid; reading through a
      handle is a lookup in the current map, and a handle with no entry (a
      dangling pointer in C++) makes the model return no result;
    - the recursion of [find] is bounded by a fuel argument; [trace] supplies
      one more than the number of stored nodes, which is shown to suffice. *)

From Stdlib Require Import ZArith Lia String Ascii.
From stdpp Require Import base option list gmap strings.

(** ** What the template expects of [NODE_ID_TYPE] *)

Class NodeId (K : Type) := {
  id_eq_dec :: EqDecision K;      (* operator== *)
  id_lt : K -> K -> bool;         (* operator<, the order of std::map *)
  id_default : K;                 (* NODE_ID_TYPE{} *)
}.

Class StdHash (K : Type) := {
  std_hash : K -> Z;              (* std::hash<NODE_ID_TYPE>{}(x) *)
  std_hash_range : forall x, (0 <= std_hash x < 2 ^ 64)%Z;
}.

Definition size_t_bits : Z := 64.
Definition size_t_max : Z := 2 ^ size_t_bits - 1.
Definition wrap (x : Z) : Z := (x mod 2 ^ size_t_bits)%Z.

(** [std::ceil] applied to a value that is already integral: the argument
    of [std::ceil] in [optimize_trace] is the quotient of two [std::size_t],
    computed by integer division before the conversion to [double] (which
    is exact for quotients below 2^53). *)
Definition std_ceil (q : Z) : Z := q.

Section Graph.
Context {K : Type} {HK : NodeId K} {E : Type}.

(** *** [node_s] and the node map *)

Record node_s := mk_node_s {
  id : K;
  out : list K;          (* std::vector<node_s*>: handles, as keys *)
  marked : bool;
}.

Definition node_list_t := list K.      (* std::vector<node_if*> *)
Definition edge_list_t := list E.      (* std::vector<EDGE_DATA*>, by value *)
Definition node_map := list (K * node_s).

(** [node_s(id)] and [node_s()] *)
Definition new_node (x : K) : node_s := mk_node_s x [] false.
Definition default_node : node_s := mk_node_s id_default [] false.

(** [std::map::find] *)
Fixpoint map_find (x : K) (m : node_map) : option node_s :=
  match m with
  | [] => None
  | (k, n) :: m' => if decide (k = x) then Some n else map_find x m'
  end.

(** [std::map::emplace]: no effect when the key is present, otherwise
    the entry is placed at its position in key order. *)
Fixpoint map_emplace (x : K) (n : node_s) (m : node_map) : node_map :=
  match m with
  | [] => [(x, n)]
  | (k, n') :: m' =>
      if decide (k = x) then m
      else if id_lt x k then (x, n) :: m
      else (k, n') :: map_emplace x n m'
  end.

(** Writing through a handle: the entry under key [x] is replaced by its
    image under [f]. *)
Fixpoint map_update (x : K) (f : node_s -> node_s) (m : node_map) : node_map :=
  match m with
  | [] => []
  | (k, n) :: m' =>
      if decide (k = x) then (k, f n) :: m' else (k, n) :: map_update x f m'
  end.

(** [std::map::operator[]]: a missing key is inserted with a
    default-constructed node. *)
Definition subscript (x : K) (m : node_map) : node_s * node_map :=
  match map_find x m with
  | Some n => (n, m)
  | None => (default_node, map_emplace x default_node m)
  end.

Definition set_marked (b : bool) (n : node_s) : node_s :=
  mk_node_s (id n) (out n) b.
Definition push_out (p : K) (n : node_s) : node_s :=
  mk_node_s (id n) (out n ++ [p]) (marked n).

(** [for (auto* x : current_path) x->marked = false;] *)
Definition unmark_path (m : node_map) (p : node_list_t) : node_map :=
  fold_left (fun m' x => map_update x (set_marked false) m') p m.

(** *** The graph object *)

Record graph_c := mk_graph_c {
  _contains_cycles : bool;
  _node_storage : node_map;
  _edge_storage : gmap Z E;
  _cache_enabled : bool;
  _average_path_len : Z;
  _cache : gmap Z node_list_t;
}.

Record edge_s := mk_edge_s { from : K; to : K; data : E }.
Record source_s := mk_source_s { nodes : list K; edges : list edge_s }.

Definition DEFAULT_TRACE_RESERVATION : Z := 5.

(** [graph_c()] and [graph_c(cache_enabled)]: the member initialisers. *)
Definition new_graph (cache_enabled : bool) : graph_c :=
  mk_graph_c false [] ∅ cache_enabled 0 ∅.
Definition default_graph : graph_c := new_graph true.

Definition load_node (x : K) (g : graph_c) : option node_s :=
  map_find x (_node_storage g).

Definition with_nodes (g : graph_c) (m : node_map) : graph_c :=
  mk_graph_c (_contains_cycles g) m (_edge_storage g)
             (_cache_enabled g) (_average_path_len g) (_cache g).
Definition with_cache (g : graph_c) (c : gmap Z node_list_t) : graph_c :=
  mk_graph_c (_contains_cycles g) (_node_storage g) (_edge_storage g)
             (_cache_enabled g) (_average_path_len g) c.
Definition with_cycles (g : graph_c) (b : bool) : graph_c :=
  mk_graph_c b (_node_storage g) (_edge_storage g)
             (_cache_enabled g) (_average_path_len g) (_cache g).

Definition clear_cache (g : graph_c) : graph_c := with_cache g ∅.

Definition toggle_cache (g : graph_c) (is_enabled : bool) : graph_c :=
  clear_cache
    (mk_graph_c (_contains_cycles g) (_node_storage g) (_edge_storage g)
                is_enabled (_average_path_len g) (_cache g)).

Definition add_node (g : graph_c) (x : K) : bool * graph_c :=
  match load_node x g with
  | Some _ => (false, g)
  | None =>
      let g1 := clear_cache g in
      let g2 := with_nodes g1 (map_emplace x (new_node x) (_node_storage g1)) in
      (true, with_cycles g2 false)
  end.

(** [total_paths_len += it->second.size()] over the cache, in [std::size_t] *)
Definition total_paths_len (c : gmap Z node_list_t) : Z :=
  map_fold (fun _ p acc => wrap (acc + Z.of_nat (length p))) 0%Z c.

Definition optimize_trace (g : graph_c) : bool * graph_c :=
  if negb (_cache_enabled g) || Nat.eqb (size (_cache g)) 0 then (false, g)
  else
    let total := total_paths_len (_cache g) in
    (true,
     mk_graph_c (_contains_cycles g) (_node_storage g) (_edge_storage g)
                (_cache_enabled g)
                (std_ceil (total / Z.of_nat (size (_cache g))))
                (_cache g)).

(** *** The path search *)

(** The selection loop at the end of [find]: the index of the first
    sub-path of least size, starting from [smallest = SIZE_MAX]. *)
Fixpoint smallest_index (tp : list node_list_t) (i idx : nat) (smallest : Z)
  : nat :=
  match tp with
  | [] => idx
  | p :: tp' =>
      if (Z.of_nat (length p) <? smallest)%Z
      then smallest_index tp' (S i) i (Z.of_nat (length p))
      else smallest_index tp' (S i) idx smallest
  end.

Definition find_result := option (bool * node_list_t * node_map).

(** The loop over [node.out]; [rec] is the recursive call of [find]. *)
Fixpoint scan (rec : node_map -> K -> node_list_t -> find_result)
    (neighbors : list K) (m : node_map) (traversed_path : list node_list_t)
  : option (list node_list_t * node_map) :=
  match neighbors with
  | [] => Some (traversed_path, m)
  | neighbor :: rest =>
      match map_find neighbor m with
      | None => None
      | Some nb =>
          match rec m (id nb) [] with
          | None => None
          | Some (found, current_path, m1) =>
              let traversed_path' :=
                if found then traversed_path ++ [current_path]
                else traversed_path in
              scan rec rest (unmark_path m1 current_path) traversed_path'
          end
      end
  end.

Fixpoint find (fuel : nat) (m : node_map) (from to : K) (path : node_list_t)
    (reservation : Z) : find_result :=
  match fuel with
  | O => None
  | S fuel' =>
      let '(node, m0) := subscript from m in
      if marked node then Some (false, path, m0)
      else
        let path1 := path ++ [from] in
        if decide (id node = to) then Some (true, path1, m0)
        else
          let m1 := map_update from (set_marked true) m0 in
          match scan (fun m' x p => find fuel' m' x to p reservation)
                     (out node) m1 [] with
          | None => None
          | Some (traversed_path, m2) =>
              let m3 := map_update from (set_marked false) m2 in
              match traversed_path with
              | [] => Some (false, removelast path1, m3)
              | _ :: _ =>
                  let idx := smallest_index traversed_path 0 0 size_t_max in
                  Some (true, path1 ++ nth idx traversed_path [], m3)
              end
          end
  end.

(** Fuel handed to [find] by [trace]. *)
Definition find_fuel (m : node_map) : nat := S (length m).

(** *** The operations that use the merged key *)

Section WithHash.
Context {HH : StdHash K}.

Definition merge_ids (from to : K) : Z :=
  Z.lxor (std_hash from) (wrap (Z.shiftl (std_hash to) 1)).

Definition add_edge (g : graph_c) (from to : K) (edge_data : E)
  : bool * graph_c :=
  match load_node to g with
  | None => (false, g)
  | Some _ =>
      match load_node from g with
      | None => (false, g)
      | Some _ =>
          let edge_hash := merge_ids from to in
          match _edge_storage g !! edge_hash with
          | Some _ => (false, g)
          | None =>
              let g1 := clear_cache g in
              (true,
               mk_graph_c false
                 (map_update from (push_out to) (_node_storage g1))
                 (<[edge_hash := edge_data]> (_edge_storage g1))
                 (_cache_enabled g1) (_average_path_len g1) (_cache g1))
          end
      end
  end.

Fixpoint add_nodes (g : graph_c) (ns : list K) : bool * graph_c :=
  match ns with
  | [] => (true, g)
  | x :: ns' =>
      let '(ok, g') := add_node g x in
      if ok then add_nodes g' ns' else (false, g')
  end.

Fixpoint add_edges (g : graph_c) (es : list edge_s) : bool * graph_c :=
  match es with
  | [] => (true, g)
  | e :: es' =>
      let '(ok, g') := add_edge g (from e) (to e) (data e) in
      if ok then add_edges g' es' else (false, g')
  end.

Definition build_from (g : graph_c) (source : source_s) : bool * graph_c :=
  let '(ok, g1) := add_nodes g (nodes source) in
  if ok then add_edges g1 (edges source) else (false, g1).

Definition trace (g : graph_c) (from to : K)
  : option (option node_list_t * graph_c) :=
  match load_node to g with
  | None => Some (None, g)
  | Some _ =>
      match load_node from g with
      | None => Some (None, g)
      | Some _ =>
          let merged_ids :=
            if _cache_enabled g then merge_ids from to else 0%Z in
          let hit :=
            if _cache_enabled g then _cache g !! merged_ids else None in
          match hit with
          | Some p => Some (Some p, g)
          | None =>
              let reservation :=
                if _cache_enabled g then _average_path_len g
                else DEFAULT_TRACE_RESERVATION in
              match find (find_fuel (_node_storage g)) (_node_storage g)
                         from to [] reservation with
              | None => None
              | Some (found, result, m) =>
                  let g1 := with_nodes g m in
                  if negb found then Some (None, g1)
                  else if _cache_enabled g1
                       then Some (Some result,
                                  with_cache g1
                                    (<[merged_ids := result]> (_cache g1)))
                       else Some (Some result, g1)
              end
          end
      end
  end.

(** The loop of [load_edges] over consecutive handles of the path. *)
Fixpoint load_edges_loop (g : graph_c) (path : node_list_t)
    (result : edge_list_t) : option (option edge_list_t) :=
  match path with
  | a :: (b :: _) as rest =>
      match load_node a g, load_node b g with
      | Some na, Some nb =>
          match _edge_storage g !! merge_ids (id na) (id nb) with
          | None => Some None
          | Some d => load_edges_loop g rest (result ++ [d])
          end
      | _, _ => None
      end
  | _ => Some (Some result)
  end.

Definition load_edges (g : graph_c) (path : node_list_t)
  : option (option edge_list_t) :=
  if Nat.ltb (length path) 2 then Some None
  else load_edges_loop g path [].

(** [contains_cycles]: the inner loop over [node.out] and the outer
    loop over the entries of the node map, in key order.  The loops run
    over the entries as they are when the scan starts; the graph object,
    with its cache, is threaded through the calls of [trace]. *)
Fixpoint cycles_inner (g : graph_c) (k : K) (neighbors : list K)
  : option (bool * graph_c) :=
  match neighbors with
  | [] => Some (false, g)
  | neighbor :: rest =>
      match load_node neighbor g with
      | None => None
      | Some nb =>
          match trace g (id nb) k with
          | None => None
          | Some (Some _, g1) => Some (true, with_cycles g1 true)
          | Some (None, g1) => cycles_inner g1 k rest
          end
      end
  end.

Fixpoint cycles_outer (g : graph_c) (entries : node_map)
  : option (bool * graph_c) :=
  match entries with
  | [] => Some (_contains_cycles g, g)
  | (k, node) :: rest =>
      match cycles_inner g k (out node) with
      | None => None
      | Some (true, g1) => Some (true, g1)
      | Some (false, g1) => cycles_outer g1 rest
      end
  end.

Definition contains_cycles (g : graph_c) : option (bool * graph_c) :=
  if _contains_cycles g then Some (true, g)
  else cycles_outer g (_node_storage g).

End WithHash.
End Graph.

Arguments node_s : clear implicits.
Arguments node_map : clear implicits.
Arguments node_list_t : clear implicits.
Arguments graph_c : clear implicits.
Arguments edge_s : clear implicits.
Arguments source_s : clear implicits.

(** ** Vocabulary of the specification *)

Section Vocabulary.
Context {K : Type} {HK : NodeId K} {HH : StdHash K} {E : Type}.

Definition keys (m : node_map K) : list K := m.*1.

(** The shape every node map built by [add_node] and [add_edge] has: keys
    are unique, the [id] field of an entry is its key, and every handle
    in an [out] list has an entry. *)
Definition wf_nodes (m : node_map K) : Prop :=
  NoDup (keys m) /\
  forall k n, map_find k m = Some n ->
    id n = k /\ forall p, p ∈ out n -> is_Some (map_find p m).

Definition all_unmarked (m : node_map K) : Prop :=
  Forall (fun kn => marked kn.2 = false) m.

Definition unmarked (m : node_map K) (x : K) : Prop :=
  exists n, map_find x m = Some n /\ marked n = false.

Definition edge_in (m : node_map K) (x y : K) : Prop :=
  exists n, map_find x m = Some n /\ y ∈ out n.

(** [fpath m to from p]: [p] leads from [from] to [to] along [out] lists,
    through unmarked nodes only and without visiting a node twice. *)
Inductive fpath (m : node_map K) (to : K) : K -> node_list_t K -> Prop :=
| fpath_here : unmarked m to -> fpath m to to [to]
| fpath_step from nb p :
    unmarked m from -> from <> to -> edge_in m from nb ->
    fpath m to nb p -> from ∉ p -> fpath m to from (from :: p).

Definition unmarked_count (m : list (K * node_s K)) : nat :=
  length (filter (fun kn => marked kn.2 = false) m).

(** What a call of [find] returns on a well-formed map when the fuel
    exceeds the number of unmarked nodes: the map is handed back as it
    was, and the path grows by a found path or not at all. *)
Definition find_post (m : node_map K) (from to : K) (path : node_list_t K)
    (res : find_result) : Prop :=
  exists b p, res = Some (b, path ++ p, m) /\
    if b then fpath m to from p else p = [] /\ forall q, ~ fpath m to from q.

(** The search as [trace] runs it when nothing is cached. *)
Definition tracer (m : node_map K) (from to : K) : find_result :=
  find (find_fuel m) m from to [] DEFAULT_TRACE_RESERVATION.

Definition stored (g : graph_c K E) (x : K) : Prop := is_Some (load_node x g).

(** The value the search computes on the current store, cache aside. *)
Definition trace_oracle (g : graph_c K E) (from to : K)
  : option (node_list_t K) :=
  match load_node to g, load_node from g with
  | Some _, Some _ =>
      match tracer (_node_storage g) from to with
      | Some (true, p, _) => Some p
      | _ => None
      end
  | _, _ => None
  end.

Definition edges_ok (g : graph_c K E) : Prop :=
  forall k n p, map_find k (_node_storage g) = Some n -> p ∈ out n ->
    is_Some (_edge_storage g !! merge_ids k p).

Definition cache_ok (g : graph_c K E) : Prop :=
  forall key p, _cache g !! key = Some p ->
    exists from to, stored g from /\ stored g to /\ merge_ids from to = key /\
      tracer (_node_storage g) from to = Some (true, p, _node_storage g).

Definition flag_ok (g : graph_c K E) : Prop :=
  _contains_cycles g = true ->
  exists k nb from to p,
    edge_in (_node_storage g) k nb /\ stored g from /\ stored g to /\
    merge_ids nb k = merge_ids from to /\ fpath (_node_storage g) to from p.

Record graph_inv (g : graph_c K E) : Prop := {
  inv_wf : wf_nodes (_node_storage g);
  inv_unmarked : all_unmarked (_node_storage g);
  inv_edges : edges_ok g;
  inv_cache : cache_ok g;
  inv_flag : flag_ok g;
}.

(** Node map (with out lists and markers) and edge storage are the same. *)
Definition same_store (g g' : graph_c K E) : Prop :=
  _node_storage g' = _node_storage g /\ _edge_storage g' = _edge_storage g.

(** No two ordered pairs of stored identifiers share a merged key. *)
Definition collision_free (g : graph_c K E) : Prop :=
  forall a b c d, stored g a -> stored g b -> stored g c -> stored g d ->
    merge_ids a b = merge_ids c d -> a = c /\ b = d.

Definition collision_freeb (g : graph_c K E) : bool :=
  let ks := keys (_node_storage g) in
  forallb (fun a => forallb (fun b => forallb (fun c => forallb (fun d =>
    if (merge_ids a b =? merge_ids c d)%Z
    then bool_decide (a = c) && bool_decide (b = d) else true)
    ks) ks) ks) ks.

Definition has_cycle (m : node_map K) : Prop :=
  exists k nb q, edge_in m k nb /\ fpath m k nb q.

Definition sub_nodes (m m' : node_map K) : Prop :=
  forall k n, map_find k m = Some n ->
    exists n', map_find k m' = Some n' /\ marked n' = marked n /\
               forall p, p ∈ out n -> p ∈ out n'.

(** The states of a graph object: a constructor followed by calls of the
    public member functions ([build_from] is a sequence of [add_node] and
    [add_edge]; [load_edges] only reads). *)
Inductive reachable : graph_c K E -> Prop :=
| reach_new b : reachable (new_graph b)
| reach_add_node g x : reachable g -> reachable (add_node g x).2
| reach_add_edge g from to d : reachable g -> reachable (add_edge g from to d).2
| reach_clear_cache g : reachable g -> reachable (clear_cache g)
| reach_toggle_cache g b : reachable g -> reachable (toggle_cache g b)
| reach_optimize_trace g : reachable g -> reachable (optimize_trace g).2
| reach_trace g from to r g' :
    reachable g -> trace g from to = Some (r, g') -> reachable g'
| reach_contains_cycles g b g' :
    reachable g -> contains_cycles g = Some (b, g') -> reachable g'.

Inductive mutation : Type :=
| AddNode (x : K)
| AddEdge (from to : K) (edge_data : E).

Definition apply_mutation (g : graph_c K E) (mu : mutation)
  : bool * graph_c K E :=
  match mu with
  | AddNode x => add_node g x
  | AddEdge from to d => add_edge g from to d
  end.

Definition apply_mutations (g : graph_c K E) (mus : list mutation)
  : graph_c K E :=
  fold_left (fun g' mu => (apply_mutation g' mu).2) mus g.

(** The ways a call of [trace] can go. *)
Inductive trace_case (g : graph_c K E) (from to : K)
  : option (node_list_t K) -> graph_c K E -> Prop :=
| trace_unknown :
    ~ (stored g from /\ stored g to) -> trace_case g from to None g
| trace_hit p :
    stored g from -> stored g to -> _cache_enabled g = true ->
    _cache g !! merge_ids from to = Some p ->
    trace_case g from to (Some p) g
| trace_miss_none :
    stored g from -> stored g to ->
    (_cache_enabled g = true -> _cache g !! merge_ids from to = None) ->
    tracer (_node_storage g) from to = Some (false, [], _node_storage g) ->
    (forall q, ~ fpath (_node_storage g) to from q) ->
    trace_case g from to None g
| trace_miss_some p :
    stored g from -> stored g to ->
    (_cache_enabled g = true -> _cache g !! merge_ids from to = None) ->
    tracer (_node_storage g) from to = Some (true, p, _node_storage g) ->
    fpath (_node_storage g) to from p ->
    trace_case g from to (Some p)
      (if _cache_enabled g
       then with_cache g (<[merge_ids from to := p]> (_cache g)) else g).

(** Every consecutive pair of the path is an out-edge of the store and
    has a payload in the edge storage. *)
Fixpoint path_edges_stored (g : graph_c K E) (p : node_list_t K) : Prop :=
  match p with
  | a :: (b :: _) as rest =>
      edge_in (_node_storage g) a b /\
      is_Some (_edge_storage g !! merge_ids a b) /\
      path_edges_stored g rest
  | _ => True
  end.

(** What a successful run of [add_edges] does to the node map. *)
Definition link_all (m : node_map K) (es : list (edge_s K E)) : node_map K :=
  fold_left (fun m' e => map_update (from e) (push_out (to e)) m') es m.

(** The object after a call, whatever the call returned. *)
Definition after_trace (g : graph_c K E) (from to : K) : graph_c K E :=
  match trace g from to with Some (_, g') => g' | None => g end.
Definition after_contains_cycles (g : graph_c K E) : graph_c K E :=
  match contains_cycles g with Some (_, g') => g' | None => g end.

End Vocabulary.

Arguments mutation : clear implicits.

Definition ceil_div (a b : Z) : Z := ((a + b - 1) / b)%Z.

(** ** Identifier types used in the examples *)

(** Integer identifiers.  libstdc++ and libc++ hash every built-in integer
    type by converting the value to [std::size_t]: the identity on 64-bit
    values, a truncation on wider ones. *)
#[export] Instance Z_node_id : NodeId Z :=
  {| id_eq_dec := Z.eq_dec; id_lt := Z.ltb; id_default := 0%Z |}.
#[export] Instance Z_trunc_hash : StdHash Z :=
  {| std_hash x := (x mod 2 ^ 64)%Z;
     std_hash_range x := Z.mod_pos_bound x (2 ^ 64) eq_refl |}.

(** [std::string] identifiers, as in [test.cpp] and [example.cpp]:
    equality and the lexicographic order are fixed by the standard, the
    hash is not.  [fnv1a] is the 64-bit FNV-1a hash, one of the hashes in
    use for [std::hash<std::string>]. *)
#[export] Instance string_node_id : NodeId string :=
  {| id_eq_dec := String.eq_dec; id_lt := String.ltb; id_default := "" |}.

Definition fnv1a (s : string) : Z :=
  fold_left
    (fun h c =>
       ((Z.lxor h (Z.of_nat (nat_of_ascii c))) * 1099511628211 mod 2 ^ 64)%Z)
    (list_ascii_of_string s) 14695981039346656037%Z.
Definition fnv1a_hash : StdHash string :=
  {| std_hash s := (fnv1a s mod 2 ^ 64)%Z;
     std_hash_range s := Z.mod_pos_bound (fnv1a s) (2 ^ 64) eq_refl |}.

(** The strings "", "a", "aa", ...: as many distinct identifiers as
    wanted. *)
Fixpoint unary (n : nat) : string :=
  match n with O => EmptyString | S n' => String "a" (unary n') end.

(** ** Graphs of [test.cpp] and small integer graphs *)

Definition graph_six : source_s string string :=
  mk_source_s ["A"; "B"; "C"; "D"; "E"; "F"; "G"; "H"; "I"]
    [mk_edge_s "A" "F" "A->F"; mk_edge_s "A" "D" "A->D"; mk_edge_s "A" "B" "A->B";
     mk_edge_s "D" "A" "D->A"; mk_edge_s "D" "F" "D->F"; mk_edge_s "F" "G" "F->G";
     mk_edge_s "G" "H" "G->H"; mk_edge_s "H" "E" "H->E"; mk_edge_s "E" "C" "E->C";
     mk_edge_s "C" "B" "C->B"; mk_edge_s "B" "I" "B->I"; mk_edge_s "B" "E" "B->E"].

Definition graph_two : source_s string string :=
  mk_source_s ["A"; "B"; "C"; "D"; "E"]
    [mk_edge_s "A" "B" "A->B"; mk_edge_s "B" "B" "B->B"; mk_edge_s "B" "C" "B->C";
     mk_edge_s "C" "D" "C->D"; mk_edge_s "D" "E" "D->E"].

Definition g_six : graph_c string string :=
  (build_from (HH:=fnv1a_hash) default_graph graph_six).2.
Definition g_two : graph_c string string :=
  (build_from (HH:=fnv1a_hash) default_graph graph_two).2.

Definition int_graph (ns : list Z) (es : list (edge_s Z string))
  : graph_c Z string :=
  (build_from default_graph (mk_source_s ns es)).2.

Definition two_cycle : graph_c Z string :=
  int_graph [0; 1]%Z [mk_edge_s 0 1 "0->1"; mk_edge_s 1 0 "1->0"]%Z.
Definition two_cycle_traced : graph_c Z string := after_trace two_cycle 0%Z 1%Z.

Definition one_edge : graph_c Z string :=
  int_graph [0; 1; 2]%Z [mk_edge_s 0 1 "0->1"]%Z.
Definition one_edge_traced : graph_c Z string := after_trace one_edge 0%Z 1%Z.

Definition three_zero : graph_c Z string :=
  int_graph [0; 1; 3]%Z [mk_edge_s 3 0 "3->0"]%Z.
Definition three_zero_traced : graph_c Z string :=
  after_trace three_zero 3%Z 0%Z.

Definition fan : graph_c Z string :=
  int_graph [0; 1; 2]%Z [mk_edge_s 0 1 "0->1"; mk_edge_s 0 2 "0->2"]%Z.
Definition fan_traced : graph_c Z string := after_trace fan 0%Z 1%Z.

Definition chain3 : graph_c Z string :=
  int_graph [0; 1; 2]%Z [mk_edge_s 0 1 "0->1"; mk_edge_s 1 2 "1->2"]%Z.
Definition chain3_traced : graph_c Z string :=
  after_trace (after_trace chain3 0%Z 1%Z) 0%Z 2%Z.

Definition wide_pair : graph_c Z string :=
  int_graph [0; 2 ^ 64]%Z [mk_edge_s 0 (2 ^ 64) "0->2^64"]%Z.

(** ** Routes, answers and growth of the store *)

Section Routes.
Context {K : Type} {HK : NodeId K} {HH : StdHash K} {E : Type}.

(** [walk m to from p]: [p] lists the nodes of a route from [from] to [to]
    along [out] lists; nodes may repeat. *)
Inductive walk (m : node_map K) (to : K) : K -> node_list_t K -> Prop :=
| walk_here : is_Some (map_find to m) -> walk m to to [to]
| walk_step from nb p :
    edge_in m from nb -> walk m to nb p -> walk m to from (from :: p).

(** What [find] adds to the path is a simple path of least size. *)
Definition find_least (m : node_map K) (from to : K) (path : node_list_t K)
    (res : find_result) : Prop :=
  forall p m', res = Some (true, path ++ p, m') ->
    forall q, fpath m to from q -> (Z.of_nat (length q) < size_t_max)%Z ->
      length p <= length q.

(** What an answer of [trace] should be on the node map [m]: a route
    without repeated nodes, no longer than any route of fewer than
    [SIZE_MAX] nodes, or nothing when no route exists. *)
Definition route_answer (m : node_map K) (from to : K)
    (r : option (node_list_t K)) : Prop :=
  match r with
  | Some p =>
      walk m to from p /\ NoDup p /\
      forall q, walk m to from q -> (Z.of_nat (length q) < size_t_max)%Z ->
        length p <= length q
  | None => forall q, ~ walk m to from q
  end.

(** Some edge leads to a node from which a route leads back. *)
Definition cyclic (m : node_map K) : Prop :=
  exists k nb q, edge_in m k nb /\ walk m k nb q.

(** [g'] holds everything [g] holds: each node with the same identifier
    and an out list that starts with the old one, each payload as it was. *)
Definition extends (g g' : graph_c K E) : Prop :=
  (forall k n, load_node k g = Some n ->
     exists n', load_node k g' = Some n' /\ id n' = id n /\
                out n `prefix_of` out n') /\
  (forall key d, _edge_storage g !! key = Some d ->
     _edge_storage g' !! key = Some d).

(** The targets of the edges of [es] that leave [x], in the order of [es]. *)
Definition targets (es : list (edge_s K E)) (x : K) : list K :=
  to <$> filter (fun e => from e = x) es.

Definition edge_key (e : edge_s K E) : Z := merge_ids (from e) (to e).

(** Out lists hold no handle twice, and every payload of the edge storage
    belongs to an entry of an out list. *)
Definition edges_exact (g : graph_c K E) : Prop :=
  (forall k n, load_node k g = Some n -> NoDup (out n)) /\
  (forall key d, _edge_storage g !! key = Some d ->
     exists from to, edge_in (_node_storage g) from to /\ merge_ids from to = key).

(** What [load_edges] answers for a path of stored handles. *)
Definition load_edges_answer (g : graph_c K E) (p : node_list_t K)
    (r : option (option (list E))) : Prop :=
  match r with
  | Some (Some es) =>
      2 <= length p /\ length es = length p - 1 /\
      forall i a b, p !! i = Some a -> p !! S i = Some b ->
        _edge_storage g !! merge_ids a b = es !! i
  | Some None =>
      length p < 2 \/
      exists i a b, p !! i = Some a /\ p !! S i = Some b /\
                    _edge_storage g !! merge_ids a b = None
  | None => False
  end.
(** The merged key of [(from, to)] is the key of no other pair of stored
    identifiers. *)
Definition key_unshared (g : graph_c K E) (from to : K) : Prop :=
  forall a b, stored g a -> stored g b ->
    merge_ids a b = merge_ids from to -> a = from /\ b = to.

Definition key_unsharedb (g : graph_c K E) (from to : K) : bool :=
  let ks := keys (_node_storage g) in
  forallb (fun a => forallb (fun b =>
    if (merge_ids a b =? merge_ids from to)%Z
    then bool_decide (a = from) && bool_decide (b = to) else true) ks) ks.

(** For every edge, the key of the pair that leads back along it is
    unshared: these are the keys under which [contains_cycles] asks. *)
Definition back_keys_unshared (g : graph_c K E) : Prop :=
  forall k nb, edge_in (_node_storage g) k nb -> key_unshared g nb k.

Definition back_keys_unsharedb (g : graph_c K E) : bool :=
  forallb (fun kn => forallb (fun nb => key_unsharedb g nb kn.1) (out kn.2))
          (_node_storage g).
End Routes.

(** One edge between two nodes: no route leads back. *)
Definition arrow : graph_c Z string :=
  int_graph [0; 1]%Z [mk_edge_s 0 1 "0->1"]%Z.

(** A self edge at [1] beside the edge 0->1, with the node 2 apart: the
    pairs [(0, 1)] and [(2, 0)] share the key [2], the key [3] of
    [(1, 1)] is unshared. *)
Definition self_loop : graph_c Z string :=
  int_graph [0; 1; 2]%Z [mk_edge_s 1 1 "1->1"; mk_edge_s 0 1 "0->1"]%Z.
Definition self_loop_traced : graph_c Z string :=
  after_trace self_loop 0%Z 1%Z.

(** A self edge at [2] among the nodes 1, 2, 3: the pairs [(1, 2)] and
    [(3, 3)] share the key [5], the key [6] of [(2, 2)] is unshared. *)
Definition loop_at_two : graph_c Z string :=
  int_graph [1; 2; 3]%Z [mk_edge_s 2 2 "2->2"]%Z.

(** A self edge at [1]; its key, [3], is also the key of the pair
    [(3, 0)], which a route through [2] joins. *)
Definition self_edge : graph_c Z string :=
  int_graph [0; 1; 2; 3]%Z
    [mk_edge_s 1 1 "1->1"; mk_edge_s 3 2 "3->2"; mk_edge_s 2 0 "2->0"]%Z.
Definition self_edge_traced : graph_c Z string :=
  after_trace self_edge 3%Z 0%Z.

(** ** The test program of [test.cpp] *)

(** [graph_tests] and [main], with what they print left out.  The graph
    class is used at [std::string] identifiers and payloads; the hash of
    strings is a parameter. *)
Module TestProgram.

Record path_s := mk_path_s {
  from : string;
  to : string;
  expected_distance : Z;
  expected_path : list string;
  possible : bool;
}.

(** The third field is [contains_cycles] in the source. *)
Record test_graph_s := mk_test_graph_s {
  data : source_s string string;
  paths : list path_s;
  expects_cycles : bool;
}.

Definition TEST_ITERATIONS : nat := 20.
Definition CHECK_CYCLES : bool := true.

Definition graph_one : test_graph_s :=
  mk_test_graph_s
    (mk_source_s ["A"; "B"; "C"; "D"; "E"; "F"; "G"; "H"]
       [mk_edge_s "A" "G" "A->G"; mk_edge_s "A" "E" "A->E";
        mk_edge_s "A" "B" "A->B"; mk_edge_s "E" "A" "E->A";
        mk_edge_s "E" "C" "E->C"; mk_edge_s "C" "H" "C->H";
        mk_edge_s "G" "F" "G->F"; mk_edge_s "H" "F" "H->F";
        mk_edge_s "D" "C" "D->C"; mk_edge_s "F" "B" "F->B";
        mk_edge_s "F" "D" "F->D"])
    [mk_path_s "E" "C" 1 ["E->C"] true;
     mk_path_s "A" "C" 2 ["A->E"; "E->C"] true;
     mk_path_s "G" "H" 4 ["G->F"; "F->D"; "D->C"; "C->H"] true;
     mk_path_s "F" "H" 3 ["F->D"; "D->C"; "C->H"] true;
     mk_path_s "F" "A" 0 [] false]
    true.

Definition graph_two : test_graph_s :=
  mk_test_graph_s graph_two
    [mk_path_s "B" "B" 1 ["B->B"] true;
     mk_path_s "B" "A" 0 [] false;
     mk_path_s "A" "C" 2 ["A->B"; "B->C"] true;
     mk_path_s "A" "E" 4 ["A->B"; "B->C"; "C->D"; "D->E"] true]
    true.

Definition graph_three : test_graph_s :=
  mk_test_graph_s
    (mk_source_s ["A"; "B"; "C"; "D"; "E"]
       [mk_edge_s "A" "B" "A->B"; mk_edge_s "B" "B" "B->B";
        mk_edge_s "B" "C" "B->C"; mk_edge_s "C" "D" "C->D";
        mk_edge_s "D" "E" "D->E"; mk_edge_s "C" "E" "C->E"])
    [mk_path_s "B" "B" 1 ["B->B"] true;
     mk_path_s "A" "C" 2 ["A->B"; "B->C"] true;
     mk_path_s "A" "E" 3 ["A->B"; "B->C"; "C->E"] true;
     mk_path_s "X" "Y" 0 [] false;
     mk_path_s "Y" "Z" 0 [] false;
     mk_path_s "Z" "Z" 0 [] false]
    true.

Definition graph_four : test_graph_s :=
  mk_test_graph_s
    (mk_source_s ["A"; "B"; "C"; "D"; "E"; "F"; "G"]
       [mk_edge_s "A" "G" "A->G"; mk_edge_s "G" "E" "G->E";
        mk_edge_s "E" "G" "E->G"; mk_edge_s "E" "F" "E->F";
        mk_edge_s "F" "D" "F->D"; mk_edge_s "D" "C" "D->C";
        mk_edge_s "D" "B" "D->B"; mk_edge_s "C" "B" "C->B"])
    [mk_path_s "A" "B" 5 ["A->G"; "G->E"; "E->F"; "F->D"; "D->B"] true;
     mk_path_s "D" "B" 1 ["D->B"] true;
     mk_path_s "E" "G" 1 ["E->G"] true;
     mk_path_s "B" "A" 0 [] false;
     mk_path_s "B" "A" 0 [] false;
     mk_path_s "X" "Y" 0 [] false;
     mk_path_s "Y" "Z" 0 [] false;
     mk_path_s "Z" "Z" 0 [] false]
    true.

Definition graph_five : test_graph_s :=
  mk_test_graph_s
    (mk_source_s ["A"; "B"; "C"; "D"; "E"; "F"; "G"; "H"]
       [mk_edge_s "A" "B" "A->B"; mk_edge_s "B" "D" "B->D";
        mk_edge_s "B" "E" "B->E"; mk_edge_s "A" "C" "A->C";
        mk_edge_s "C" "F" "C->F"; mk_edge_s "F" "G" "F->G";
        mk_edge_s "G" "H" "G->H"])
    [mk_path_s "A" "H" 4 ["A->C"; "C->F"; "F->G"; "G->H"] true;
     mk_path_s "A" "D" 2 ["A->B"; "B->D"] true;
     mk_path_s "A" "E" 2 ["A->B"; "B->E"] true;
     mk_path_s "F" "H" 2 ["F->G"; "G->H"] true;
     mk_path_s "E" "H" 0 [] false;
     mk_path_s "H" "A" 0 [] false;
     mk_path_s "X" "Y" 0 [] false;
     mk_path_s "Y" "Z" 0 [] false;
     mk_path_s "Z" "Z" 0 [] false]
    false.

Definition graph_six : test_graph_s :=
  mk_test_graph_s graph_six
    [mk_path_s "A" "I" 2 ["A->B"; "B->I"] true;
     mk_path_s "D" "I" 3 ["D->A"; "A->B"; "B->I"] true;
     mk_path_s "F" "I" 6 ["F->G"; "G->H"; "H->E"; "E->C"; "C->B"; "B->I"] true;
     mk_path_s "C" "E" 2 ["C->B"; "B->E"] true;
     mk_path_s "I" "F" 0 [] false]
    true.

Definition graph_seven : test_graph_s :=
  mk_test_graph_s
    (mk_source_s ["A"; "B"; "C"; "D"]
       [mk_edge_s "A" "D" "A->D"; mk_edge_s "A" "B" "A->B";
        mk_edge_s "A" "C" "A->C"; mk_edge_s "D" "B" "D->B";
        mk_edge_s "D" "A" "D->A"; mk_edge_s "B" "D" "B->D"])
    [mk_path_s "A" "C" 1 ["A->C"] true;
     mk_path_s "B" "C" 3 ["B->D"; "D->A"; "A->C"] true]
    true.

Section WithStringHash.
Context {HH : StdHash string}.

(** The comparison loop over [expected_path]; no result when it reads past
    the end of [edges]. *)
Fixpoint edges_match (expected edges : list string) : option bool :=
  match expected with
  | [] => Some true
  | x :: expected' =>
      match edges with
      | [] => None
      | y :: edges' =>
          if negb (String.eqb x y) then Some false
          else edges_match expected' edges'
      end
  end.

(** The body of the loop over [graph_data.paths]: [Some (false, _)] where
    the source returns [false], [Some (true, _)] where the loop goes
    on. *)
Definition check_path (graph : graph_c string string) (path : path_s)
  : option (bool * graph_c string string) :=
  match trace graph (from path) (to path) with
  | None => None
  | Some (result, graph) =>
      if negb (possible path) then
        match result with
        | Some _ => Some (false, graph)
        | None => Some (true, graph)
        end
      else
        match result with
        | None => Some (false, graph)
        | Some nodes =>
            if (1 <? expected_distance path)%Z
               && negb (wrap (Z.of_nat (length nodes) - 1)
                        =? expected_distance path)%Z
            then Some (false, graph)
            else if (length nodes <=? 1)%nat
                    && negb (String.eqb (from path) (to path))
            then Some (true, graph)
            else
              match load_edges graph nodes with
              | None => None
              | Some None => Some (false, graph)
              | Some (Some edges) =>
                  if negb (length edges =? length (expected_path path))%nat
                  then Some (false, graph)
                  else
                    match edges_match (expected_path path) edges with
                    | None => None
                    | Some ok => Some (ok, graph)
                    end
              end
        end
  end.

Fixpoint check_paths (graph : graph_c string string) (ps : list path_s)
  : option (bool * graph_c string string) :=
  match ps with
  | [] => Some (true, graph)
  | path :: ps' =>
      match check_path graph path with
      | None => None
      | Some (false, graph') => Some (false, graph')
      | Some (true, graph') => check_paths graph' ps'
      end
  end.

(** The loop [for (i = 0; i < 2; i++)]: the second round starts with
    [optimize_trace]. *)
Definition check_rounds (graph : graph_c string string) (ps : list path_s)
  : option bool :=
  match check_paths graph ps with
  | None => None
  | Some (false, _) => Some false
  | Some (true, graph1) =>
      let '(optimized, graph2) := optimize_trace graph1 in
      if negb optimized then Some false
      else
        match check_paths graph2 ps with
        | None => None
        | Some (ok, _) => Some ok
        end
  end.

(** The body of the loop over the seven graphs. *)
Definition graph_test (graph_data : test_graph_s) : option bool :=
  let '(built, graph) := build_from default_graph (data graph_data) in
  if negb built then Some false
  else
    match contains_cycles graph with
    | None => None
    | Some (cycles, graph1) =>
        if CHECK_CYCLES && negb (eqb (expects_cycles graph_data) cycles)
        then Some false
        else check_rounds graph1 (paths graph_data)
    end.

Fixpoint graph_tests_loop (graph_fns : list test_graph_s) : option bool :=
  match graph_fns with
  | [] => Some true
  | graph_fn :: rest =>
      match graph_test graph_fn with
      | None => None
      | Some false => Some false
      | Some true => graph_tests_loop rest
      end
  end.

Definition graph_tests : option bool :=
  graph_tests_loop
    [graph_one; graph_two; graph_three; graph_four; graph_five; graph_six;
     graph_seven].

(** [main]: the exit status. *)
Fixpoint main_loop (iterations : nat) : option Z :=
  match iterations with
  | O => Some 0%Z
  | S iterations' =>
      match graph_tests with
      | None => None
      | Some false => Some 1%Z
      | Some true => main_loop iterations'
      end
  end.

Definition main : option Z := main_loop TEST_ITERATIONS.

End WithStringHash.
End TestProgram.

(** * Properties *)

(** ** The node map *)

Section NodeMapFacts.
Context {K : Type} {HK : NodeId K}.
Implicit Types (m : node_map K) (n : node_s K) (x y k : K).

Lemma map_find_None x m : map_find x m = None <-> x ∉ keys m.
Proof.
  induction m as [|[k n] m IH]; simpl.
  - split; [intros _; apply not_elem_of_nil | done].
  - case_decide; subst.
    + split; [done | intros []; left].
    + rewrite IH. unfold keys. simpl. rewrite not_elem_of_cons. intuition congruence.
Qed.

Lemma map_find_Some_elem x n m : map_find x m = Some n -> (x, n) ∈ m.
Proof.
  induction m as [|[k n'] m IH]; simpl; [done|].
  case_decide; intros; simplify_eq; [left | right; auto].
Qed.

Lemma map_find_is_Some x m : is_Some (map_find x m) <-> x ∈ keys m.
Proof.
  destruct (map_find x m) eqn:Hf.
  - split; [intros _ | eauto].
    apply map_find_Some_elem in Hf. unfold keys.
    apply list_elem_of_fmap. by exists (x, n).
  - split; [intros [? ?]; done |].
    intros Hin. by apply map_find_None in Hf.
Qed.

Lemma elem_map_find x n m : NoDup (keys m) -> (x, n) ∈ m -> map_find x m = Some n.
Proof.
  induction m as [|[k n'] m IH]; simpl; intros Hnd Hin.
  - by apply elem_of_nil in Hin.
  - apply NoDup_cons in Hnd as [Hk Hnd].
    apply elem_of_cons in Hin as [Heq | Hin].
    + simplify_eq. by rewrite decide_True.
    + case_decide; subst; [|auto].
      exfalso. apply Hk. apply list_elem_of_fmap. by exists (x, n).
Qed.

Lemma map_find_emplace x y n m :
  map_find x m = None ->
  map_find y (map_emplace x n m) = if decide (x = y) then Some n else map_find y m.
Proof.
  induction m as [|[k n'] m IH]; simpl.
  - done.
  - destruct (decide (k = x)) as [->|Hkx]; [done|]. intros Hx.
    destruct (id_lt x k); simpl.
    + repeat case_decide; simplify_eq; done.
    + rewrite (IH Hx). repeat case_decide; simplify_eq; done.
Qed.

Lemma keys_emplace x n m :
  map_find x m = None -> keys (map_emplace x n m) ≡ₚ x :: keys m.
Proof.
  induction m as [|[k n'] m IH]; simpl; [done|].
  destruct (decide (k = x)) as [->|Hkx]; [done|]. intros Hx.
  destruct (id_lt x k); simpl; [done|].
  unfold keys in IH. rewrite (IH Hx). apply Permutation_swap.
Qed.

Lemma length_emplace x n m :
  map_find x m = None -> length (map_emplace x n m) = S (length m).
Proof.
  intros Hx. rewrite <- (length_fmap fst (map_emplace x n m)).
  change (length (keys (map_emplace x n m)) = S (length m)).
  rewrite (keys_emplace x n m Hx). simpl. unfold keys. by rewrite length_fmap.
Qed.

Lemma Forall_emplace (P : K * node_s K -> Prop) x n m :
  P (x, n) -> Forall P m -> Forall P (map_emplace x n m).
Proof.
  intros Hx. induction 1 as [|[k n'] m Hk Hm IH]; simpl.
  - by constructor.
  - case_decide; [by constructor|].
    destruct (id_lt x k); repeat constructor; done.
Qed.

Lemma map_find_update x y f m :
  map_find y (map_update x f m)
  = if decide (x = y) then f <$> map_find x m else map_find y m.
Proof.
  induction m as [|[k n] m IH]; simpl.
  - by case_decide.
  - destruct (decide (k = x)) as [->|Hkx]; simpl.
    + repeat case_decide; simplify_eq; done.
    + rewrite IH. repeat case_decide; simplify_eq; done.
Qed.

Lemma keys_update x f m : keys (map_update x f m) = keys m.
Proof.
  induction m as [|[k n] m IH]; simpl; [done|].
  case_decide; unfold keys in *; simpl; [done|]. by f_equal.
Qed.

Lemma length_update x f m : length (map_update x f m) = length m.
Proof.
  rewrite <- (length_fmap fst (map_update x f m)).
  change (length (keys (map_update x f m)) = length m).
  rewrite keys_update. unfold keys. by rewrite length_fmap.
Qed.

Lemma map_update_id x f n m :
  map_find x m = Some n -> f n = n -> map_update x f m = m.
Proof.
  induction m as [|[k n'] m IH]; simpl; [done|].
  case_decide; intros; simplify_eq; [congruence|]. by rewrite IH.
Qed.

Lemma map_update_update x f1 f2 m :
  map_update x f1 (map_update x f2 m) = map_update x (fun n => f1 (f2 n)) m.
Proof.
  induction m as [|[k n] m IH]; simpl; [done|].
  case_decide; simpl; rewrite ?decide_True, ?decide_False by done; [done|].
  by rewrite IH.
Qed.

Lemma Forall_update (P : K * node_s K -> Prop) x f m :
  (forall k n, P (k, n) -> P (k, f n)) -> Forall P m -> Forall P (map_update x f m).
Proof.
  intros Hf. induction 1 as [|[k n] m Hk Hm IH]; simpl; [constructor|].
  case_decide; constructor; auto.
Qed.
End NodeMapFacts.

(** ** The search [find] *)

Section FindFacts.
Context {K : Type} {HK : NodeId K}.
Implicit Types (m : node_map K) (n : node_s K) (x y k : K).

Lemma unmarked_count_le m : unmarked_count m <= length m.
Proof. apply length_filter. Qed.

Lemma unmarked_count_mark x n m :
  map_find x m = Some n -> marked n = false ->
  S (unmarked_count (map_update x (set_marked true) m)) = unmarked_count m.
Proof.
  unfold unmarked_count.
  induction m as [|[k n'] m IH]; [done|]. cbn [map_find map_update].
  case_decide; intros Hf Hn; simplify_eq.
  - rewrite filter_cons_False by (simpl; congruence).
    by rewrite filter_cons_True by done.
  - rewrite !filter_cons. simpl. case_decide; simpl; by rewrite IH.
Qed.

Lemma wf_update_marked b x m : wf_nodes m -> wf_nodes (map_update x (set_marked b) m).
Proof.
  intros [Hnd Hwf]. split; [by rewrite keys_update|].
  intros k n. rewrite map_find_update. case_decide; subst.
  - destruct (map_find k m) as [n0|] eqn:Hk; intros; simplify_eq/=.
    destruct (Hwf _ _ Hk) as [? Hout]. split; [done|].
    intros p Hp. rewrite map_find_update. case_decide; subst.
    + rewrite Hk. by eexists.
    + auto.
  - intros Hk. destruct (Hwf _ _ Hk) as [? Hout]. split; [done|].
    intros p Hp. rewrite map_find_update. case_decide; subst; [|auto].
    destruct (Hout _ Hp) as [? ->]. by eexists.
Qed.

Lemma unmark_restore x n m :
  map_find x m = Some n -> marked n = false ->
  map_update x (set_marked false) (map_update x (set_marked true) m) = m.
Proof.
  intros Hx Hn. rewrite map_update_update.
  apply (map_update_id _ _ n); [done|]. destruct n; simpl in *; by subst.
Qed.

Lemma unmark_path_id m (p : node_list_t K) :
  (forall y, y ∈ p -> unmarked m y) -> unmark_path m p = m.
Proof.
  unfold unmark_path. induction p as [|y p IH]; simpl; [done|]. intros Hp.
  destruct (Hp y) as (n & Hy & Hn); [left|].
  rewrite (map_update_id _ _ n); [|done|destruct n; simpl in *; by subst].
  apply IH. intros; apply Hp; by right.
Qed.

Lemma fpath_unmarked m to from p : fpath m to from p -> forall y, y ∈ p -> unmarked m y.
Proof.
  induction 1 as [|from nb p Hu Hne He Hp IH Hnin]; intros y Hy.
  - apply list_elem_of_singleton in Hy. by subst.
  - apply elem_of_cons in Hy as [->|Hy]; auto.
Qed.

Lemma unmarked_mark_iff x y m :
  unmarked (map_update x (set_marked true) m) y <-> unmarked m y /\ y <> x.
Proof.
  unfold unmarked. setoid_rewrite map_find_update. split.
  - intros (n & Hy & Hn). case_decide; subst.
    + destruct (map_find y m); simplify_eq/=.
    + split; [eauto|done].
  - intros [(n & Hy & Hn) Hne]. exists n. by rewrite decide_False.
Qed.

Lemma edge_in_mark b x y z m :
  edge_in (map_update x (set_marked b) m) y z <-> edge_in m y z.
Proof.
  unfold edge_in. setoid_rewrite map_find_update. split.
  - intros (n & Hy & Hz). case_decide; subst; [|eauto].
    destruct (map_find y m) as [n0|]; simplify_eq/=. eauto.
  - intros (n & Hy & Hz). case_decide; subst; [|eauto].
    rewrite Hy. simpl. eexists; split; [done|]. done.
Qed.

Lemma fpath_mark_iff x m to from p :
  fpath (map_update x (set_marked true) m) to from p <-> fpath m to from p /\ x ∉ p.
Proof.
  split.
  - induction 1 as [Hu|from nb p Hu Hne He Hp [IH1 IH2] Hnin].
    + apply unmarked_mark_iff in Hu as [Hu Hx]. split; [by constructor|].
      intros Hin. apply list_elem_of_singleton in Hin. congruence.
    + apply unmarked_mark_iff in Hu as [Hu Hx]. apply edge_in_mark in He.
      split; [by econstructor|]. rewrite not_elem_of_cons. split; [congruence|done].
  - intros [Hp Hx]. induction Hp as [Hu|from nb p Hu Hne He Hp IH Hnin].
    + constructor. apply unmarked_mark_iff. split; [done|].
      intros ->. apply Hx. left.
    + apply not_elem_of_cons in Hx as [Hx1 Hx2]. econstructor; eauto.
      * apply unmarked_mark_iff. split; [done|congruence].
      * by apply edge_in_mark.
Qed.

Lemma smallest_index_bound (tp : list (node_list_t K)) i idx s :
  let r := smallest_index tp i idx s in r = idx \/ (i <= r < i + length tp).
Proof.
  revert i idx s. induction tp as [|p tp IH]; intros i idx s; simpl; [by left|].
  destruct (Z.of_nat (length p) <? s)%Z.
  - destruct (IH (S i) i (Z.of_nat (length p))) as [->|?]; right; lia.
  - destruct (IH (S i) idx s) as [->|?]; [by left | right; lia].
Qed.

Lemma smallest_index_elem (tp : list (node_list_t K)) :
  tp <> [] -> nth (smallest_index tp 0 0 size_t_max) tp [] ∈ tp.
Proof.
  intros Hne. apply list_elem_of_In, nth_In.
  destruct tp as [|t tp]; [done|].
  destruct (smallest_index_bound (t :: tp) 0 0 size_t_max) as [->|?]; simpl in *; lia.
Qed.

Lemma scan_spec (rec : node_map K -> K -> node_list_t K -> find_result) m to :
  wf_nodes m ->
  (forall x path, is_Some (map_find x m) -> find_post m x to path (rec m x path)) ->
  forall nbs trav, (forall nb, nb ∈ nbs -> is_Some (map_find nb m)) ->
  exists found, scan rec nbs m trav = Some (trav ++ found, m) /\
    Forall (fun p => exists nb, nb ∈ nbs /\ fpath m to nb p) found /\
    (found = [] -> forall nb q, nb ∈ nbs -> ~ fpath m to nb q).
Proof.
  intros Hwf Hrec nbs. induction nbs as [|nb nbs IH]; intros trav Hnbs; simpl.
  - exists []. rewrite app_nil_r. split; [done|]. split; [constructor|].
    intros _ nb q Hin. by apply elem_of_nil in Hin.
  - destruct (Hnbs nb) as [n Hn]; [left|]. rewrite Hn.
    destruct Hwf as [Hnd Hwf]. destruct (Hwf _ _ Hn) as [Hid _]. rewrite Hid.
    destruct (Hrec nb [] (ex_intro _ _ Hn)) as (b & p & -> & Hb). simpl.
    assert (unmark_path m p = m) as ->.
    { destruct b; [|by destruct Hb as [-> _]].
      apply unmark_path_id. by eapply fpath_unmarked. }
    destruct b.
    + destruct (IH (trav ++ [p])) as (found & Heq & Hf & Hnone).
      { intros; apply Hnbs; by right. }
      exists (p :: found). split.
      { etrans; [exact Heq|]. by rewrite <- app_assoc. }
      split; [|done].
      constructor; [exists nb; split; [left|done]|].
      eapply Forall_impl; [done|].
      intros ? (nb' & ? & ?). exists nb'. split; [by right|done].
    + destruct (IH trav) as (found & Heq & Hf & Hnone).
      { intros; apply Hnbs; by right. }
      exists found. split; [exact Heq|]. split.
      * eapply Forall_impl; [done|].
        intros ? (nb' & ? & ?). exists nb'. split; [by right|done].
      * intros Hfound nb' q Hin. apply elem_of_cons in Hin as [->|Hin].
        -- by destruct Hb as [_ Hb].
        -- by apply Hnone.
Qed.

(** [find] returns, with the node map as it received it, once the fuel
    exceeds the number of unmarked nodes; it succeeds exactly when a
    simple path through unmarked nodes exists. *)
Lemma find_spec fuel : forall m from to path r,
  wf_nodes m -> is_Some (map_find from m) -> unmarked_count m < fuel ->
  find_post m from to path (find fuel m from to path r).
Proof.
  induction fuel as [|fuel IH]; intros m from to path r Hwf [node Hnode] Hfuel; [lia|].
  simpl. unfold subscript. rewrite Hnode.
  destruct (marked node) eqn:Hmk.
  { exists false, []. rewrite app_nil_r. split; [done|]. split; [done|].
    intros q Hq. assert (unmarked m from) as (n' & ? & ?)
      by (inversion Hq; subst; done). congruence. }
  pose proof Hwf as [Hnd Hwf']. destruct (Hwf' _ _ Hnode) as [Hid Hout].
  rewrite Hid. case_decide as Hto.
  { subst to. exists true, [from]. split; [done|]. constructor. by exists node. }
  set (m1 := map_update from (set_marked true) m).
  assert (wf_nodes m1) as Hwf1 by by apply wf_update_marked.
  assert (unmarked_count m1 < fuel) as Hfuel1.
  { pose proof (unmarked_count_mark _ _ _ Hnode Hmk) as Hcnt. fold m1 in Hcnt. lia. }
  destruct (scan_spec (fun m' x p => find fuel m' x to p r) m1 to Hwf1) with
    (nbs := out node) (trav := @nil (node_list_t K)) as (found & -> & Hfound & Hnone).
  { intros x path' Hx. by apply IH. }
  { intros nb Hnb. unfold m1. rewrite map_find_update. case_decide; subst.
    - rewrite Hnode. by eexists.
    - by apply Hout. }
  simpl. unfold m1. rewrite (unmark_restore _ _ _ Hnode Hmk).
  destruct found as [|t ts].
  - exists false, []. rewrite removelast_last, app_nil_r. split; [done|]. split; [done|].
    intros q Hq. inversion Hq as [|? nb p Hu Hne He Hp Hnin]; subst; [done|].
    destruct He as (n' & Hn' & Hnb). rewrite Hnode in Hn'. simplify_eq.
    eapply (Hnone eq_refl nb p); [done|]. apply fpath_mark_iff. done.
  - pose proof (smallest_index_elem (t :: ts) ltac:(done)) as Hin.
    set (sel := nth _ _ _) in *.
    rewrite Forall_forall in Hfound. destruct (Hfound _ Hin) as (nb & Hnb & Hp).
    apply fpath_mark_iff in Hp as [Hp Hnin].
    exists true, (from :: sel). rewrite <- app_assoc. split; [done|].
    econstructor; eauto; [by exists node | by exists node].
Qed.
End FindFacts.

(** ** [trace] *)

Section TraceFacts.
Context {K : Type} {HK : NodeId K} {HH : StdHash K} {E : Type}.
Implicit Types (g : graph_c K E) (m : node_map K).

Lemma scan_ext (rec rec' : node_map K -> K -> node_list_t K -> find_result) :
  (forall m x p, rec m x p = rec' m x p) ->
  forall nbs m trav, scan rec nbs m trav = scan rec' nbs m trav.
Proof.
  intros Hext nbs. induction nbs as [|nb nbs IH]; intros m trav; simpl; [done|].
  destruct (map_find nb m) as [n|]; [|done]. rewrite Hext.
  destruct (rec' m (id n) []) as [[[b p] m1]|]; [|done]. apply IH.
Qed.

Lemma find_reservation fuel : forall m (from to : K) path r r',
  find fuel m from to path r = find fuel m from to path r'.
Proof.
  induction fuel as [|fuel IH]; intros m from to path r r'; simpl; [done|].
  destruct (subscript from m) as [node m0].
  destruct (marked node); [done|]. case_decide; [done|].
  by rewrite (scan_ext _ (fun m' x p => find fuel m' x to p r')).
Qed.

Lemma all_unmarked_find m x n :
  all_unmarked m -> map_find x m = Some n -> marked n = false.
Proof.
  intros Hall Hx. apply map_find_Some_elem in Hx.
  unfold all_unmarked in Hall. rewrite Forall_forall in Hall. exact (Hall _ Hx).
Qed.

Lemma tracer_spec m (from to : K) :
  wf_nodes m -> is_Some (map_find from m) ->
  exists b p, tracer m from to = Some (b, p, m) /\
    if b then fpath m to from p else p = [] /\ forall q, ~ fpath m to from q.
Proof.
  intros Hwf Hfrom.
  destruct (find_spec (find_fuel m) m from to [] DEFAULT_TRACE_RESERVATION)
    as (b & p & Heq & Hb); [done|done| |by exists b, p].
  unfold find_fuel. pose proof (unmarked_count_le m). lia.
Qed.

Lemma with_nodes_same g : with_nodes g (_node_storage g) = g.
Proof. by destruct g. Qed.

(** [trace] always returns on a well-formed store. *)
Lemma trace_cases g (from to : K) :
  wf_nodes (_node_storage g) ->
  exists r g', trace g from to = Some (r, g') /\ trace_case g from to r g'.
Proof.
  intros Hwf. unfold trace.
  destruct (load_node to g) as [nt|] eqn:Hto.
  2:{ eexists _, _. split; [done|]. constructor. intros [_ [? ?]].
      unfold stored in *. congruence. }
  destruct (load_node from g) as [nf|] eqn:Hfrom.
  2:{ eexists _, _. split; [done|]. constructor. intros [[? ?] _].
      unfold stored in *. congruence. }
  assert (stored g from) as Hsf by by eexists.
  assert (stored g to) as Hst by by eexists.
  destruct (tracer_spec (_node_storage g) from to Hwf Hsf) as (b & p & Htr & Hb).
  unfold tracer in Htr.
  destruct (_cache_enabled g) eqn:Hen.
  - destruct (_cache g !! merge_ids from to) as [c|] eqn:Hc.
    + eexists _, _. split; [done|]. by constructor.
    + rewrite (find_reservation _ _ _ _ _ _ DEFAULT_TRACE_RESERVATION), Htr.
      rewrite with_nodes_same. destruct b; simpl.
      * rewrite Hen. eexists _, _. split; [done|].
        pose proof (trace_miss_some g from to p Hsf Hst) as Hcase.
        rewrite Hen in Hcase. by apply Hcase.
      * destruct Hb as [-> Hb]. eexists _, _. split; [done|].
        by apply trace_miss_none.
  - rewrite Htr. rewrite with_nodes_same. destruct b; simpl.
    + rewrite Hen. eexists _, _. split; [done|].
      pose proof (trace_miss_some g from to p Hsf Hst) as Hcase.
      rewrite Hen in Hcase. apply Hcase; [congruence|done|done].
    + destruct Hb as [-> Hb]. eexists _, _. split; [done|].
      apply trace_miss_none; [done|done|congruence|done|done].
Qed.
End TraceFacts.

(** ** The invariant of the graph object *)

Section InvFacts.
Context {K : Type} {HK : NodeId K} {HH : StdHash K} {E : Type}.
Implicit Types (g : graph_c K E) (m : node_map K).

Lemma is_Some_find_update x y f m :
  is_Some (map_find y (map_update x f m)) <-> is_Some (map_find y m).
Proof.
  rewrite map_find_update. case_decide; subst; [|done].
  by rewrite fmap_is_Some.
Qed.

Lemma is_Some_find_emplace x y n m :
  map_find x m = None -> is_Some (map_find y m) ->
  is_Some (map_find y (map_emplace x n m)).
Proof. intros Hx Hy. rewrite map_find_emplace by done. by case_decide. Qed.

Lemma wf_emplace x m :
  map_find x m = None -> wf_nodes m -> wf_nodes (map_emplace x (new_node x) m).
Proof.
  intros Hx [Hnd Hwf]. split.
  - rewrite keys_emplace by done. apply NoDup_cons. split; [|done].
    by apply map_find_None.
  - intros k n. rewrite map_find_emplace by done. case_decide; subst.
    + intros [= <-]. split; [done|]. intros p Hp. by apply elem_of_nil in Hp.
    + intros Hk. destruct (Hwf _ _ Hk) as [? Hout]. split; [done|].
      intros p Hp. apply is_Some_find_emplace; auto.
Qed.

Lemma wf_push_out from to m :
  is_Some (map_find to m) -> wf_nodes m ->
  wf_nodes (map_update from (push_out to) m).
Proof.
  intros Hto [Hnd Hwf]. split; [by rewrite keys_update|].
  intros k n. rewrite map_find_update. case_decide; subst.
  - destruct (map_find k m) as [n0|] eqn:Hk; intros; simplify_eq/=.
    destruct (Hwf _ _ Hk) as [? Hout]. split; [done|].
    intros p Hp. apply is_Some_find_update.
    apply elem_of_app in Hp as [Hp|Hp]; [auto|].
    apply list_elem_of_singleton in Hp. by subst.
  - intros Hk. destruct (Hwf _ _ Hk) as [? Hout]. split; [done|].
    intros p Hp. apply is_Some_find_update. auto.
Qed.

Lemma new_graph_inv b : graph_inv (new_graph (K:=K) (E:=E) b).
Proof.
  split; unfold edges_ok, cache_ok, flag_ok; simpl.
  - split; [constructor | done].
  - constructor.
  - intros k n p Hk. done.
  - intros key p Hk. by rewrite lookup_empty in Hk.
  - intros Hf. done.
Qed.

Lemma add_node_inv g x : graph_inv g -> graph_inv (add_node g x).2.
Proof.
  intros Hinv. unfold add_node.
  destruct (load_node x g) as [n|] eqn:Hx; [done|].
  destruct Hinv as [Hwf Hum He Hc Hf]. split; unfold edges_ok, cache_ok, flag_ok; simpl.
  - by apply wf_emplace.
  - by apply Forall_emplace.
  - intros k n p. rewrite map_find_emplace by done. case_decide; subst.
    + intros [= <-] Hp. by apply elem_of_nil in Hp.
    + apply He.
  - intros key p Hk. by rewrite lookup_empty in Hk.
  - intros Hfl. done.
Qed.

Lemma add_edge_inv g from to d : graph_inv g -> graph_inv (add_edge g from to d).2.
Proof.
  intros Hinv. unfold add_edge.
  destruct (load_node to g) as [nt|] eqn:Hto; [|done].
  destruct (load_node from g) as [nf|] eqn:Hfrom; [|done].
  destruct (_edge_storage g !! merge_ids from to) eqn:Hedge; [done|].
  destruct Hinv as [Hwf Hum He Hc Hf]. split; unfold edges_ok, cache_ok, flag_ok; simpl.
  - apply wf_push_out; [by eexists|done].
  - apply Forall_update; [|done]. by intros k [] ?.
  - intros k n p. rewrite map_find_update. case_decide; subst.
    + unfold load_node in Hfrom. rewrite Hfrom. intros [= <-]. simpl.
      intros Hp. apply elem_of_app in Hp as [Hp|Hp].
      * rewrite lookup_insert. case_decide; [done|]. by eapply He.
      * apply list_elem_of_singleton in Hp. subst.
        rewrite lookup_insert_eq. by eexists.
    + intros Hk Hp. rewrite lookup_insert. case_decide; [done|]. by eapply He.
  - intros key p Hk. by rewrite lookup_empty in Hk.
  - intros Hfl. done.
Qed.

Lemma clear_cache_inv g : graph_inv g -> graph_inv (clear_cache g).
Proof.
  intros [Hwf Hum He Hc Hf]. by split.
Qed.

Lemma toggle_cache_inv g b : graph_inv g -> graph_inv (toggle_cache g b).
Proof.
  intros [Hwf Hum He Hc Hf]. by split.
Qed.

Lemma optimize_trace_inv g : graph_inv g -> graph_inv (optimize_trace g).2.
Proof.
  intros Hinv. unfold optimize_trace.
  destruct (negb (_cache_enabled g) || (size (_cache g) =? 0)); [done|].
  by destruct Hinv as [Hwf Hum He Hc Hf].
Qed.

Lemma trace_case_inv g (from to : K) r g' :
  graph_inv g -> trace_case g from to r g' ->
  graph_inv g' /\ same_store g g' /\
  _contains_cycles g' = _contains_cycles g /\
  _cache_enabled g' = _cache_enabled g /\
  _average_path_len g' = _average_path_len g.
Proof.
  intros Hinv Hcase. destruct Hcase as [?|p ? ? ? ?|? ? ? ? ?|p Hsf Hst Hmiss Htr Hp];
    try done.
  destruct (_cache_enabled g) eqn:Hen; [|done].
  split; [|done]. destruct Hinv as [Hwf Hum He Hc Hf]. split; try done.
  intros key q. simpl. rewrite lookup_insert. case_decide; subst.
  - intros [= <-]. by exists from, to.
  - apply Hc.
Qed.

Lemma trace_inv g (from to : K) r g' :
  graph_inv g -> trace g from to = Some (r, g') -> graph_inv g'.
Proof.
  intros Hinv Htr.
  destruct (trace_cases g from to (inv_wf _ Hinv)) as (r0 & g0 & Heq & Hcase).
  rewrite Htr in Heq. simplify_eq. by eapply trace_case_inv.
Qed.
End InvFacts.

(** ** [contains_cycles] *)

Section CycleFacts.
Context {K : Type} {HK : NodeId K} {HH : StdHash K} {E : Type}.
Implicit Types (g : graph_c K E) (m : node_map K).

Lemma trace_case_None g (from to : K) g' :
  trace_case g from to None g' ->
  g' = g /\ (stored g from -> stored g to ->
             forall q, ~ fpath (_node_storage g) to from q).
Proof.
  intros Hcase. remember None as r eqn:Hr.
  destruct Hcase as [Hun|?|Hsf Hst Hmiss Htr Hno|?]; try done.
  split; [done|]. intros ? ? q _. by apply Hun.
Qed.

Lemma trace_case_Some g (from to : K) p g' :
  graph_inv g -> trace_case g from to (Some p) g' ->
  exists f t, stored g f /\ stored g t /\ merge_ids from to = merge_ids f t /\
    tracer (_node_storage g) f t = Some (true, p, _node_storage g) /\
    fpath (_node_storage g) t f p.
Proof.
  intros Hinv Hcase. remember (Some p) as r eqn:Hr.
  destruct Hcase as [|? Hsf Hst Hen Hhit| |? Hsf Hst Hmiss Htr Hp];
    simplify_eq.
  - destruct (inv_cache _ Hinv _ _ Hhit) as (f & t & Hf & Ht & Hk & Htr).
    exists f, t. split_and!; try done.
    destruct (tracer_spec (_node_storage g) f t (inv_wf _ Hinv) Hf)
      as (b & p' & Heq & Hb).
    rewrite Htr in Heq. by simplify_eq.
  - by exists from, to.
Qed.

Lemma with_cycles_inv g k nb f t p :
  graph_inv g -> edge_in (_node_storage g) k nb ->
  stored g f -> stored g t -> merge_ids nb k = merge_ids f t ->
  fpath (_node_storage g) t f p -> graph_inv (with_cycles g true).
Proof.
  intros [Hwf Hum He Hc Hf] ? ? ? ? ?. split; try done.
  intros _. by exists k, nb, f, t, p.
Qed.

Lemma cycles_inner_spec k nbs : forall g,
  graph_inv g -> stored g k ->
  (forall nb, nb ∈ nbs -> edge_in (_node_storage g) k nb) ->
  exists b g', cycles_inner g k nbs = Some (b, g') /\
    same_store g g' /\ graph_inv g' /\
    _cache_enabled g' = _cache_enabled g /\
    if b then _contains_cycles g' = true
    else g' = g /\ forall nb q, nb ∈ nbs -> ~ fpath (_node_storage g) k nb q.
Proof.
  induction nbs as [|nb nbs IH]; intros g Hinv Hk Hedges; simpl.
  - exists false, g. split_and!; try done;
      intros ? ? Hin; by apply elem_of_nil in Hin.
  - destruct (Hedges nb) as (n & Hn & Hnb); [left|].
    destruct (inv_wf _ Hinv) as [_ Hwf].
    destruct (Hwf _ _ Hn) as [_ Hout]. destruct (Hout _ Hnb) as [nbn Hnbn].
    unfold load_node. rewrite Hnbn.
    destruct (Hwf _ _ Hnbn) as [-> _].
    destruct (trace_cases g nb k (inv_wf _ Hinv)) as (r & g1 & -> & Hcase).
    destruct (trace_case_inv _ _ _ _ _ Hinv Hcase)
      as (Hinv1 & [Hn1 He1] & Hfl1 & Hen1 & _).
    destruct r as [p|].
    + destruct (trace_case_Some _ _ _ _ _ Hinv Hcase)
        as (f & t & Hf & Ht & Hkey & _ & Hp).
      exists true, (with_cycles g1 true). split_and!; try done.
      apply (with_cycles_inv g1 k nb f t p); try done; unfold stored, load_node;
        rewrite ?Hn1; try done. by exists n.
    + apply trace_case_None in Hcase as [-> Hno].
      destruct (IH g Hinv Hk) as (b & g' & -> & Hss & Hinv' & Hen' & Hb).
      { intros; apply Hedges; by right. }
      exists b, g'. split_and!; try done; try apply Hss.
      destruct b; [done|]. destruct Hb as [-> Hb]. split; [done|].
      intros nb' q Hin. apply elem_of_cons in Hin as [->|Hin]; [|by apply Hb].
      apply Hno; [by exists nbn | done].
Qed.

Lemma cycles_outer_spec entries : forall g,
  graph_inv g -> _contains_cycles g = false ->
  (forall k n, (k, n) ∈ entries -> map_find k (_node_storage g) = Some n) ->
  exists b g', cycles_outer g entries = Some (b, g') /\
    same_store g g' /\ graph_inv g' /\
    _cache_enabled g' = _cache_enabled g /\
    if b then _contains_cycles g' = true
    else g' = g /\ forall k n nb q, (k, n) ∈ entries -> nb ∈ out n ->
                     ~ fpath (_node_storage g) k nb q.
Proof.
  induction entries as [|[k n] entries IH]; intros g Hinv Hfl Hent; simpl.
  - exists false, g. rewrite Hfl. split_and!; try done;
      intros ? ? ? ? Hin; by apply elem_of_nil in Hin.
  - assert (map_find k (_node_storage g) = Some n) as Hk by (apply Hent; left).
    destruct (cycles_inner_spec k (out n) g Hinv) as (b & g1 & -> & Hss & Hinv1 & Hen1 & Hb).
    { by exists n. }
    { intros nb Hnb. by exists n. }
    destruct b; [by exists true, g1|].
    destruct Hb as [-> Hb].
    destruct (IH g Hinv Hfl) as (b & g' & -> & Hss' & Hinv' & Hen' & Hb').
    { intros; apply Hent; by right. }
    exists b, g'. split_and!; try done; try apply Hss'.
    destruct b; [done|]. destruct Hb' as [-> Hb']. split; [done|].
    intros k' n' nb q Hin Hnb. apply elem_of_cons in Hin as [Heq|Hin].
    + simplify_eq. by apply Hb.
    + by eapply Hb'.
Qed.

Lemma contains_cycles_spec g :
  graph_inv g ->
  exists b g', contains_cycles g = Some (b, g') /\
    same_store g g' /\ graph_inv g' /\
    _cache_enabled g' = _cache_enabled g /\
    if b then _contains_cycles g' = true
    else g' = g /\ ~ has_cycle (_node_storage g).
Proof.
  intros Hinv. unfold contains_cycles.
  destruct (_contains_cycles g) eqn:Hfl; [by exists true, g|].
  destruct (cycles_outer_spec (_node_storage g) g Hinv Hfl)
    as (b & g' & -> & Hss & Hinv' & Hen' & Hb).
  { intros k n. apply elem_map_find. apply (inv_wf _ Hinv). }
  exists b, g'. split_and!; try done; try apply Hss.
  destruct b; [done|]. destruct Hb as [-> Hb]. split; [done|].
  intros (k & nb & q & (n & Hn & Hnb) & Hq).
  eapply Hb; [|done|done]. by apply map_find_Some_elem.
Qed.

Lemma contains_cycles_inv g b g' :
  graph_inv g -> contains_cycles g = Some (b, g') -> graph_inv g'.
Proof.
  intros Hinv Hcc.
  destruct (contains_cycles_spec g Hinv) as (b0 & g0 & Heq & _ & Hinv' & _).
  rewrite Hcc in Heq. by simplify_eq.
Qed.

(** Every state of a graph object satisfies the invariant. *)
Lemma reachable_inv g : reachable g -> graph_inv g.
Proof.
  induction 1 as [b|g x _ IH|g from to d _ IH|g _ IH|g b _ IH|g _ IH
                  |g from to r g' _ IH Htr|g b g' _ IH Hcc].
  - apply new_graph_inv.
  - by apply add_node_inv.
  - by apply add_edge_inv.
  - by apply clear_cache_inv.
  - by apply toggle_cache_inv.
  - by apply optimize_trace_inv.
  - by eapply trace_inv.
  - by eapply contains_cycles_inv.
Qed.
End CycleFacts.

(** ** Growth of the store under insertions *)

Section Monotone.
Context {K : Type} {HK : NodeId K} {HH : StdHash K} {E : Type}.
Implicit Types (g : graph_c K E) (m : node_map K).

Lemma collision_freeb_spec g : collision_freeb g = true -> collision_free g.
Proof.
  unfold collision_freeb, collision_free, stored, load_node.
  intros Hb a b c d Ha Hb' Hc Hd Heq.
  apply map_find_is_Some, list_elem_of_In in Ha, Hb', Hc, Hd.
  rewrite forallb_forall in Hb. specialize (Hb _ Ha).
  rewrite forallb_forall in Hb. specialize (Hb _ Hb').
  rewrite forallb_forall in Hb. specialize (Hb _ Hc).
  rewrite forallb_forall in Hb. specialize (Hb _ Hd).
  rewrite Heq, Z.eqb_refl in Hb.
  apply andb_true_iff in Hb as [H1 H2].
  by apply bool_decide_eq_true in H1, H2.
Qed.

Lemma sub_nodes_refl m : sub_nodes m m.
Proof. intros k n Hk. by exists n. Qed.

Lemma sub_nodes_trans m1 m2 m3 : sub_nodes m1 m2 -> sub_nodes m2 m3 -> sub_nodes m1 m3.
Proof.
  intros H12 H23 k n Hk.
  destruct (H12 _ _ Hk) as (n2 & Hk2 & Hm2 & Ho2).
  destruct (H23 _ _ Hk2) as (n3 & Hk3 & Hm3 & Ho3).
  exists n3. split_and!; [done|congruence|auto].
Qed.

Lemma fpath_mono m m' (from to : K) p :
  sub_nodes m m' -> fpath m to from p -> fpath m' to from p.
Proof.
  intros Hsub. assert (forall x, unmarked m x -> unmarked m' x) as Hum.
  { intros x (n & Hx & Hn). destruct (Hsub _ _ Hx) as (n' & ? & ? & ?).
    exists n'. split; [done|congruence]. }
  induction 1 as [Hu|from nb p Hu Hne He Hp IH Hnin].
  - constructor. auto.
  - econstructor; eauto.
    destruct He as (n & Hx & Hn). destruct (Hsub _ _ Hx) as (n' & ? & ? & ?).
    exists n'. auto.
Qed.

Lemma has_cycle_mono m m' : sub_nodes m m' -> has_cycle m -> has_cycle m'.
Proof.
  intros Hsub (k & nb & q & (n & Hk & Hnb) & Hq).
  destruct (Hsub _ _ Hk) as (n' & ? & ? & ?).
  exists k, nb, q. split; [exists n'; auto | by eapply fpath_mono].
Qed.

Lemma add_node_sub g x : sub_nodes (_node_storage g) (_node_storage (add_node g x).2).
Proof.
  unfold add_node. destruct (load_node x g) as [nx|] eqn:Hx; simpl;
    [apply sub_nodes_refl|].
  intros k n Hk. exists n. rewrite map_find_emplace by done.
  case_decide; subst; [unfold load_node in Hx; congruence|done].
Qed.

Lemma add_edge_sub g from to d :
  sub_nodes (_node_storage g) (_node_storage (add_edge g from to d).2).
Proof.
  unfold add_edge.
  destruct (load_node to g) as [nt|]; [|apply sub_nodes_refl].
  destruct (load_node from g) as [nf|]; [|apply sub_nodes_refl].
  destruct (_edge_storage g !! merge_ids from to) as [e|];
    [apply sub_nodes_refl|]. simpl.
  intros k n Hk. rewrite map_find_update. case_decide; subst.
  - rewrite Hk. eexists. split; [done|]. simpl. split; [done|].
    intros p Hp. apply elem_of_app. by left.
  - by exists n.
Qed.

Lemma apply_mutations_spec mus : forall g,
  graph_inv g ->
  graph_inv (apply_mutations g mus) /\
  sub_nodes (_node_storage g) (_node_storage (apply_mutations g mus)).
Proof.
  induction mus as [|mu mus IH]; intros g Hinv; simpl.
  - split; [done | apply sub_nodes_refl].
  - destruct (IH (apply_mutation g mu).2) as [Hinv' Hsub'].
    { destruct mu; [by apply add_node_inv | by apply add_edge_inv]. }
    split; [done|]. eapply sub_nodes_trans; [|done].
    destruct mu; [apply add_node_sub | apply add_edge_sub].
Qed.

Lemma flag_has_cycle g :
  graph_inv g -> collision_free g -> _contains_cycles g = true ->
  has_cycle (_node_storage g).
Proof.
  intros Hinv Hcf Hfl.
  destruct (inv_flag _ Hinv Hfl) as (k & nb & f & t & p & He & Hf & Ht & Hkey & Hp).
  pose proof He as (n & Hn & Hnb).
  destruct (inv_wf _ Hinv) as [_ Hwf]. destruct (Hwf _ _ Hn) as [_ Hout].
  destruct (Hcf nb k f t) as [-> ->]; try done; [by apply Hout | by exists n |].
  by exists t, f, p.
Qed.

Lemma has_cycle_contains_cycles g :
  graph_inv g -> has_cycle (_node_storage g) ->
  exists g', contains_cycles g = Some (true, g').
Proof.
  intros Hinv Hcyc.
  destruct (contains_cycles_spec g Hinv) as (b & g' & Heq & _ & _ & _ & Hb).
  destruct b; [by exists g'|]. by destruct Hb as [_ Hb].
Qed.

End Monotone.

(** ** The merged key *)

Section Bits.
Open Scope Z_scope.

Lemma testbit_wrap_shiftl1 x n :
  0 <= n ->
  Z.testbit (wrap (Z.shiftl x 1)) n
  = if n <? 64 then Z.testbit x (n - 1) else false.
Proof.
  intros Hn. unfold wrap, size_t_bits. destruct (n <? 64) eqn:Hlt.
  - apply Z.ltb_lt in Hlt. rewrite Z.mod_pow2_bits_low by lia.
    by rewrite Z.shiftl_spec by lia.
  - apply Z.ltb_ge in Hlt. by rewrite Z.mod_pow2_bits_high by lia.
Qed.

Lemma testbit_size_t_high x n : 0 <= x < 2 ^ 64 -> 64 <= n -> Z.testbit x n = false.
Proof.
  intros Hx Hn. rewrite <- (Z.mod_small x (2 ^ 64)) by done.
  by rewrite Z.mod_pow2_bits_high by lia.
Qed.

Lemma xor_shift_injective a b :
  0 <= a < 2 ^ 64 -> 0 <= b < 2 ^ 64 ->
  Z.lxor a (wrap (Z.shiftl b 1)) = Z.lxor b (wrap (Z.shiftl a 1)) -> a = b.
Proof.
  intros Ha Hb Heq. apply Z.bits_inj'. intros n Hn. pattern n.
  apply natlike_ind; [| |done]; clear n Hn.
  - apply (f_equal (fun z => Z.testbit z 0)) in Heq.
    rewrite !Z.lxor_spec, !testbit_wrap_shiftl1 in Heq by done. simpl in Heq.
    rewrite !xorb_false_r in Heq. done.
  - intros n Hn IH. destruct (Z.ltb_spec (Z.succ n) 64) as [Hlt|Hge].
    + apply (f_equal (fun z => Z.testbit z (Z.succ n))) in Heq.
      rewrite !Z.lxor_spec, !testbit_wrap_shiftl1 in Heq by lia.
      destruct (Z.ltb_spec (Z.succ n) 64); [|lia].
      replace (Z.succ n - 1) with n in Heq by lia. rewrite IH in Heq.
      by destruct (Z.testbit a (Z.succ n)), (Z.testbit b (Z.succ n)),
           (Z.testbit b n).
    + by rewrite !testbit_size_t_high by (done || lia).
Qed.
End Bits.

(** ** The value of [trace] *)

Section TraceValue.
Context {K : Type} {HK : NodeId K} {HH : StdHash K} {E : Type}.
Implicit Types (g : graph_c K E) (m : node_map K).

Lemma trace_case_oracle g (from to : K) r g' :
  graph_inv g -> collision_free g -> trace_case g from to r g' ->
  r = trace_oracle g from to.
Proof.
  intros Hinv Hcf Hcase. unfold trace_oracle.
  destruct Hcase as [Hun|p Hsf Hst Hen Hhit|Hsf Hst Hmiss Htr Hno
                     |p Hsf Hst Hmiss Htr Hp].
  - unfold stored in Hun.
    destruct (load_node to g), (load_node from g); try done.
    exfalso. apply Hun. split; by eexists.
  - destruct (inv_cache _ Hinv _ _ Hhit) as (f & t & Hf & Ht & Hk & Htr).
    destruct (Hcf f t from to) as [-> ->]; try done.
    destruct Hsf as [? ->], Hst as [? ->]. by rewrite Htr.
  - destruct Hsf as [? ->], Hst as [? ->]. by rewrite Htr.
  - destruct Hsf as [? ->], Hst as [? ->]. by rewrite Htr.
Qed.

Lemma tracer_self m (x : K) n :
  wf_nodes m -> map_find x m = Some n -> marked n = false ->
  tracer m x x = Some (true, [x], m).
Proof.
  intros [_ Hwf] Hx Hn. destruct (Hwf _ _ Hx) as [Hid _].
  unfold tracer, find_fuel. simpl. unfold subscript. rewrite Hx, Hn, Hid.
  by rewrite decide_True.
Qed.

(** With collision-free keys, [trace] returns what the search computes on
    the current store, whatever the cache holds. *)
Lemma trace_returns_oracle g (from to : K) :
  graph_inv g -> collision_free g ->
  exists g1, trace g from to = Some (trace_oracle g from to, g1).
Proof.
  intros Hinv Hcf.
  destruct (trace_cases g from to (inv_wf _ Hinv)) as (r & g1 & Htr & Hcase).
  rewrite (trace_case_oracle _ _ _ _ _ Hinv Hcf Hcase) in Htr. by exists g1.
Qed.
End TraceValue.

(** ** Edge keys, insertion and [optimize_trace] *)

Section Insertion.
Context {K : Type} {HK : NodeId K} {HH : StdHash K} {E : Type}.
Implicit Types (g : graph_c K E) (m : node_map K).

Lemma merge_ids_swap_ne (A B : K) :
  std_hash A <> std_hash B -> merge_ids A B <> merge_ids B A.
Proof.
  intros Hne Heq. apply Hne. unfold merge_ids in Heq.
  apply xor_shift_injective; [apply std_hash_range..|done].
Qed.

Lemma load_edges_same_store g g' (p : node_list_t K) :
  same_store g g' -> load_edges g' p = load_edges g p.
Proof.
  intros [Hn He]. unfold load_edges. destruct (length p <? 2)%nat; [done|].
  generalize (@nil E). induction p as [|a p IH]; intros res; simpl; [done|].
  destruct p as [|b p]; [done|]. unfold load_node. rewrite Hn, He.
  destruct (map_find a (_node_storage g)) as [na|]; [|done].
  destruct (map_find b (_node_storage g)) as [nb|]; [|done].
  destruct (_edge_storage g !! merge_ids (id na) (id nb)); [|done]. apply IH.
Qed.

Lemma add_edge_true g (from to : K) d g' :
  add_edge g from to d = (true, g') ->
  stored g from /\ stored g to /\
  _edge_storage g !! merge_ids from to = None /\
  _node_storage g' = map_update from (push_out to) (_node_storage g) /\
  _edge_storage g' = <[merge_ids from to := d]> (_edge_storage g) /\
  _cache g' = ∅ /\ _cache_enabled g' = _cache_enabled g /\
  _average_path_len g' = _average_path_len g /\ _contains_cycles g' = false.
Proof.
  unfold add_edge, stored.
  destruct (load_node to g) as [nt|]; [|done].
  destruct (load_node from g) as [nf|]; [|done].
  destruct (_edge_storage g !! merge_ids from to); [done|].
  intros [= <-]. by split_and!.
Qed.

Lemma add_edge_false g (from to : K) d g' :
  add_edge g from to d = (false, g') -> g' = g.
Proof.
  unfold add_edge.
  destruct (load_node to g) as [nt|]; [|congruence].
  destruct (load_node from g) as [nf|]; [|congruence].
  destruct (_edge_storage g !! merge_ids from to); [congruence|done].
Qed.

Lemma optimize_trace_fails_iff g :
  (optimize_trace g).1 = false <-> _cache_enabled g = false \/ _cache g = ∅.
Proof.
  unfold optimize_trace. rewrite <- map_size_empty_iff.
  destruct (_cache_enabled g); simpl; [|split; auto].
  destruct (Nat.eqb_spec (size (_cache g)) 0) as [Hz|Hnz]; simpl.
  - split; auto.
  - split; [done|]. by intros [?|?].
Qed.

Lemma optimize_trace_hint g :
  (optimize_trace g).1 = true ->
  _average_path_len (optimize_trace g).2
  = (total_paths_len (_cache g) / Z.of_nat (size (_cache g)))%Z.
Proof.
  unfold optimize_trace.
  by destruct (negb (_cache_enabled g) || (size (_cache g) =? 0)).
Qed.
End Insertion.

(** ** Hash values of strings collide *)

Section Pigeons.

Lemma unary_inj i j : unary i = unary j -> i = j.
Proof.
  revert j. induction i as [|i IH]; intros [|j]; simpl; try done.
  intros [= Heq]. f_equal. by apply IH.
Qed.

Lemma list_collision (l : list Z) :
  ~ NoDup l -> exists i j x, i < j /\ l !! i = Some x /\ l !! j = Some x.
Proof.
  induction l as [|x l IH]; intros Hnd.
  - destruct Hnd. constructor.
  - destruct (decide (x ∈ l)) as [Hin|Hnin].
    + apply list_elem_of_lookup in Hin as [j Hj].
      exists 0, (S j), x. split; [lia|done].
    + destruct IH as (i & j & y & Hij & Hi & Hj).
      { intros Hl. apply Hnd. by constructor. }
      exists (S i), (S j), y. split; [lia|done].
Qed.

Lemma pigeonhole (f : nat -> Z) (N : nat) :
  (forall i, (0 <= f i < Z.of_nat N)%Z) ->
  exists i j, i < j /\ f i = f j.
Proof.
  intros Hf.
  destruct (decide (NoDup (f <$> seq 0 (S N)))) as [Hnd|Hnd].
  - exfalso.
    assert (f <$> seq 0 (S N) ⊆+ Z.of_nat <$> seq 0 N) as Hsub.
    { apply NoDup_submseteq; [done|]. intros x Hx.
      apply list_elem_of_fmap in Hx as (i & -> & _).
      apply list_elem_of_fmap. exists (Z.to_nat (f i)).
      pose proof (Hf i). split; [lia|]. apply elem_of_seq. lia. }
    apply submseteq_length in Hsub. rewrite !length_fmap, !length_seq in Hsub. lia.
  - apply list_collision in Hnd as (i & j & x & Hij & Hi & Hj).
    rewrite list_lookup_fmap in Hi, Hj.
    destruct (seq 0 (S N) !! i) as [i'|] eqn:Hi'; [|done].
    destruct (seq 0 (S N) !! j) as [j'|] eqn:Hj'; [|done].
    apply lookup_seq in Hi' as [-> _], Hj' as [-> _]. simplify_eq/=.
    exists i, j. split; [done|congruence].
Qed.

(** No [std::hash] separates all strings: whatever the hash, two distinct
    identifiers have the same hash value, and then the same merged key in
    both orders. *)
Lemma string_hash_collides (HH : StdHash string) :
  exists A B : string,
    A <> B /\ std_hash A = std_hash B /\ merge_ids A B = merge_ids B A.
Proof.
  destruct (pigeonhole (fun i => std_hash (unary i)) (Z.to_nat (2 ^ 64)))
    as (i & j & Hij & Heq).
  { intros i. rewrite Z2Nat.id by done. apply std_hash_range. }
  exists (unary i), (unary j). split_and!.
  - intros Hu. apply unary_inj in Hu. lia.
  - done.
  - unfold merge_ids. by rewrite Heq.
Qed.
End Pigeons.

(** ** Paths and bulk construction *)

Section Build.
Context {K : Type} {HK : NodeId K} {HH : StdHash K} {E : Type}.
Implicit Types (g : graph_c K E) (m : node_map K).

Lemma fpath_edges g (from to : K) p :
  graph_inv g -> fpath (_node_storage g) to from p ->
  path_edges_stored g p /\ (forall x, x ∈ p -> stored g x) /\ head p = Some from.
Proof.
  intros Hinv. induction 1 as [Hu|from nb p Hu Hne He Hp (IH1 & IH2 & IH3) Hnin].
  - split_and!; [done| |done]. intros x Hx.
    apply list_elem_of_singleton in Hx as ->. destruct Hu as (n & Hn & _). by exists n.
  - split_and!; [|  |done].
    + destruct p as [|b p]; [done|]. simpl in IH3. simplify_eq.
      simpl. split_and!; [done| |done].
      destruct He as (n & Hn & Hb). by eapply (inv_edges _ Hinv).
    + intros x Hx. apply elem_of_cons in Hx as [->|Hx]; [|auto].
      destruct Hu as (n & Hn & _). by exists n.
Qed.

Lemma load_edges_loop_cons g (a b : K) p res :
  load_edges_loop g (a :: b :: p) res
  = match load_node a g, load_node b g with
    | Some na, Some nb =>
        match _edge_storage g !! merge_ids (id na) (id nb) with
        | None => Some None
        | Some d => load_edges_loop g (b :: p) (res ++ [d])
        end
    | _, _ => None
    end.
Proof. done. Qed.

Lemma load_edges_loop_stored g (p : node_list_t K) :
  wf_nodes (_node_storage g) -> path_edges_stored g p ->
  (forall x, x ∈ p -> stored g x) ->
  forall res, exists es,
    load_edges_loop g p res = Some (Some (res ++ es)) /\
    length es = pred (length p).
Proof.
  intros [_ Hwf]. induction p as [|a p IH]; intros Hp Hst res.
  - exists []. by rewrite app_nil_r.
  - destruct p as [|b p]; [exists []; by rewrite app_nil_r|].
    destruct Hp as (_ & [d Hd] & Hp).
    destruct (Hst a) as [na Ha]; [left|].
    destruct (Hst b) as [nb Hb]; [right; left|].
    rewrite load_edges_loop_cons, Ha, Hb.
    destruct (Hwf _ _ Ha) as [-> _], (Hwf _ _ Hb) as [-> _]. rewrite Hd.
    destruct (IH Hp) with (res := res ++ [d]) as (es & Heq & Hlen).
    { intros; apply Hst; by right. }
    exists (d :: es). split.
    * etrans; [exact Heq|]. by rewrite <- app_assoc.
    * simpl in *. by rewrite Hlen.
Qed.

Lemma add_nodes_reachable ns : forall g, reachable g -> reachable (add_nodes g ns).2.
Proof.
  induction ns as [|x ns IH]; intros g Hg; simpl; [done|].
  destruct (add_node g x) as [ok g'] eqn:Hadd.
  assert (reachable g') as Hg'.
  { change g' with (ok, g').2. rewrite <- Hadd. by constructor. }
  destruct ok; [by apply IH | done].
Qed.

Lemma add_nodes_cache ns : forall g, _cache g = ∅ -> _cache (add_nodes g ns).2 = ∅.
Proof.
  induction ns as [|x ns IH]; intros g Hg; simpl; [done|].
  destruct (add_node g x) as [ok g'] eqn:Hadd.
  assert (_cache g' = ∅) as Hg'.
  { unfold add_node in Hadd. destruct (load_node x g); by simplify_eq. }
  destruct ok; [by apply IH | done].
Qed.

Lemma add_edges_reachable es : forall g, reachable g -> reachable (add_edges g es).2.
Proof.
  induction es as [|e es IH]; intros g Hg; simpl; [done|].
  destruct (add_edge g (from e) (to e) (data e)) as [ok g'] eqn:Hadd.
  assert (reachable g') as Hg'.
  { change g' with (ok, g').2. rewrite <- Hadd. by constructor. }
  destruct ok; [by apply IH | done].
Qed.

Lemma build_from_reachable g src : reachable g -> reachable (build_from g src).2.
Proof.
  intros Hg. unfold build_from.
  pose proof (add_nodes_reachable (nodes src) g Hg) as Hn.
  destruct (add_nodes g (nodes src)) as [[] g1]; [|done].
  by apply add_edges_reachable.
Qed.

Lemma add_edges_true es : forall g g',
  add_edges g es = (true, g') ->
  _node_storage g' = link_all (_node_storage g) es /\
  (forall k d, _edge_storage g !! k = Some d -> _edge_storage g' !! k = Some d) /\
  (forall e, e ∈ es ->
     _edge_storage g' !! merge_ids (from e) (to e) = Some (data e)) /\
  (_cache g = ∅ -> _cache g' = ∅) /\
  _cache_enabled g' = _cache_enabled g.
Proof.
  induction es as [|e es IH]; intros g g'; simpl.
  - intros [= <-]. split_and!; try done.
    intros e He. by apply elem_of_nil in He.
  - destruct (add_edge g (from e) (to e) (data e)) as [[] g1] eqn:Hadd; [|done].
    intros Hrest.
    apply add_edge_true in Hadd
      as (_ & _ & Hfree & Hnodes & Hedges & Hcache & Hen & _).
    destruct (IH _ _ Hrest) as (Hn' & Hkeep & Hnew & Hc' & Hen').
    assert (forall k d, _edge_storage g !! k = Some d ->
                        _edge_storage g' !! k = Some d) as Hkeep'.
    { intros k d Hk. apply Hkeep. rewrite Hedges, lookup_insert_ne; [done|].
      intros <-. congruence. }
    split_and!.
    + by rewrite Hn', Hnodes.
    + done.
    + intros e' He'. apply elem_of_cons in He' as [->|He']; [|by apply Hnew].
      apply Hkeep. by rewrite Hedges, lookup_insert_eq.
    + intros _. by apply Hc'.
    + congruence.
Qed.
End Build.

(** ** The graphs of the tests *)

Section StringGraphs.
Context {HH : StdHash string}.

Lemma build_from_true (b : bool) (src : source_s string string) g :
  build_from (new_graph b) src = (true, g) ->
  reachable g /\
  _node_storage g
  = link_all (_node_storage (add_nodes (new_graph (E:=string) b) (nodes src)).2)
             (edges src) /\
  _cache g = ∅ /\
  forall e, e ∈ edges src ->
    _edge_storage g !! merge_ids (from e) (to e) = Some (data e).
Proof.
  intros Hbuild. split.
  { change g with (true, g).2. rewrite <- Hbuild.
    apply build_from_reachable, reach_new. }
  unfold build_from in Hbuild.
  assert (_cache (add_nodes (new_graph (E:=string) b) (nodes src)).2 = ∅) as Hc.
  { by apply add_nodes_cache. }
  destruct (add_nodes (new_graph b) (nodes src)) as [[] g1]; [|done].
  apply add_edges_true in Hbuild as (Hn & _ & Hnew & Hc' & _). auto.
Qed.

End StringGraphs.

(** ** Queries whose key is unshared *)

Section UnsharedKeys.
Context {K : Type} {HK : NodeId K} {HH : StdHash K} {E : Type}.
Implicit Types (g : graph_c K E) (m : node_map K).

Lemma key_unsharedb_spec g (from to : K) :
  key_unsharedb g from to = true -> key_unshared g from to.
Proof.
  unfold key_unsharedb, key_unshared, stored, load_node.
  intros Hb a b Ha Hb' Heq.
  apply map_find_is_Some, list_elem_of_In in Ha, Hb'.
  rewrite forallb_forall in Hb. specialize (Hb _ Ha).
  rewrite forallb_forall in Hb. specialize (Hb _ Hb').
  rewrite Heq, Z.eqb_refl in Hb.
  apply andb_true_iff in Hb as [H1 H2].
  by apply bool_decide_eq_true in H1, H2.
Qed.

Lemma back_keys_unsharedb_spec g :
  back_keys_unsharedb g = true -> back_keys_unshared g.
Proof.
  unfold back_keys_unsharedb. intros Hb k nb (n & Hn & Hnb).
  apply key_unsharedb_spec.
  rewrite forallb_forall in Hb.
  apply map_find_Some_elem, list_elem_of_In in Hn. specialize (Hb _ Hn).
  rewrite forallb_forall in Hb. apply Hb. by apply list_elem_of_In.
Qed.

Lemma collision_free_key_unshared g (from to : K) :
  collision_free g -> stored g from -> stored g to -> key_unshared g from to.
Proof. intros Hcf Hf Ht a b Ha Hb. by apply Hcf. Qed.

Lemma key_unshared_same_nodes g g' (from to : K) :
  _node_storage g' = _node_storage g ->
  key_unshared g from to -> key_unshared g' from to.
Proof.
  intros Hn Hku a b. unfold stored, load_node. rewrite Hn. apply Hku.
Qed.

(** The value of [trace] for a query whose key is unshared: a cache entry
    under that key was computed for this very pair. *)
Lemma trace_case_oracle_unshared g (from to : K) r g' :
  graph_inv g -> key_unshared g from to -> trace_case g from to r g' ->
  r = trace_oracle g from to.
Proof.
  intros Hinv Hku Hcase. unfold trace_oracle.
  destruct Hcase as [Hun|p Hsf Hst Hen Hhit|Hsf Hst Hmiss Htr Hno
                     |p Hsf Hst Hmiss Htr Hp].
  - unfold stored in Hun.
    destruct (load_node to g), (load_node from g); try done.
    exfalso. apply Hun. split; by eexists.
  - destruct (inv_cache _ Hinv _ _ Hhit) as (f & t & Hf & Ht & Hk & Htr).
    destruct (Hku f t Hf Ht Hk) as [-> ->].
    destruct Hsf as [? ->], Hst as [? ->]. by rewrite Htr.
  - destruct Hsf as [? ->], Hst as [? ->]. by rewrite Htr.
  - destruct Hsf as [? ->], Hst as [? ->]. by rewrite Htr.
Qed.

Lemma trace_returns_oracle_unshared g (from to : K) :
  graph_inv g -> key_unshared g from to ->
  exists g1, trace g from to = Some (trace_oracle g from to, g1).
Proof.
  intros Hinv Hku.
  destruct (trace_cases g from to (inv_wf _ Hinv)) as (r & g1 & Htr & Hcase).
  rewrite (trace_case_oracle_unshared _ _ _ _ _ Hinv Hku Hcase) in Htr.
  by exists g1.
Qed.

(** A set flag stands for a cycle when the keys [contains_cycles] asks
    under are unshared. *)
Lemma flag_has_cycle_unshared g :
  graph_inv g -> back_keys_unshared g -> _contains_cycles g = true ->
  has_cycle (_node_storage g).
Proof.
  intros Hinv Hku Hfl.
  destruct (inv_flag _ Hinv Hfl)
    as (k & nb & f & t & p & He & Hf & Ht & Hkey & Hp).
  destruct (Hku k nb He f t Hf Ht) as [-> ->]; [done|].
  by exists k, nb, p.
Qed.
End UnsharedKeys.

(** * The claims *)

Section GenericClaims.
Context {K : Type} {HK : NodeId K} {HH : StdHash K} {E : Type}.
Implicit Types (g : graph_c K E) (m : node_map K).

(** C1, amended to paths of two nodes or more.  In every state of a
    graph object, a path returned by a successful [trace] has a stored
    edge (an [out] entry with a payload in the edge storage) for every
    consecutive pair of nodes, and when the path has at least two nodes
    [load_edges] on it succeeds and returns one payload per hop. *)
Theorem trace_path_valid g (from to : K) p g' :
  reachable g -> trace g from to = Some (Some p, g') ->
  path_edges_stored g' p /\
  (2 <= length p -> exists es,
      load_edges g' p = Some (Some es) /\ length es = length p - 1).
Proof.
  intros Hreach Htr. pose proof (reachable_inv g Hreach) as Hinv.
  destruct (trace_cases g from to (inv_wf _ Hinv)) as (r & g0 & Heq & Hcase).
  rewrite Htr in Heq. simplify_eq.
  destruct (trace_case_inv _ _ _ _ _ Hinv Hcase) as (Hinv' & [Hn He] & _).
  destruct (trace_case_Some _ _ _ _ _ Hinv Hcase)
    as (f & t & _ & _ & _ & _ & Hp).
  rewrite <- Hn in Hp.
  destruct (fpath_edges g0 f t p Hinv' Hp) as (Hedges & Hst & _).
  split; [done|]. intros Hlen.
  destruct (load_edges_loop_stored g0 p (inv_wf _ Hinv') Hedges Hst [])
    as (es & Hload & Hes).
  exists es. unfold load_edges.
  destruct (Nat.ltb_spec (length p) 2); [lia|]. split; [done|lia].
Qed.

(** X26. Where the cache answers right.  In every state reached through
    the public interface, for a query whose merged key is the key of no
    other pair of stored identifiers, [trace from to] returns the value
    the search computes on the current store, whatever was traced before
    and whatever the cache holds, and so does the same call with caching
    switched off. *)
Theorem trace_cache_transparent g (from to : K) :
  reachable g -> key_unshared g from to ->
  exists g1 g2,
    trace g from to = Some (trace_oracle g from to, g1) /\
    trace (toggle_cache g false) from to = Some (trace_oracle g from to, g2).
Proof.
  intros Hreach Hku. pose proof (reachable_inv g Hreach) as Hinv.
  destruct (trace_returns_oracle_unshared g from to Hinv Hku) as (g1 & Htr).
  destruct (trace_returns_oracle_unshared (toggle_cache g false) from to)
    as (g2 & Htr').
  { by apply toggle_cache_inv. }
  { exact Hku. }
  by exists g1, g2.
Qed.

(** X27. In every state reached through the public interface, for a
    stored node [x] such that the merged key of [(x, x)] is the key of no
    other pair of stored identifiers, [trace x x] succeeds with the path
    [[x]], whether or not an edge from [x] to [x] exists, and [load_edges]
    on that path fails. *)
Theorem trace_self g (x : K) :
  reachable g -> key_unshared g x x -> stored g x ->
  exists g', trace g x x = Some (Some [x], g') /\ load_edges g' [x] = Some None.
Proof.
  intros Hreach Hku Hx. pose proof (reachable_inv g Hreach) as Hinv.
  destruct (trace_returns_oracle_unshared g x x Hinv Hku) as (g1 & Htr).
  exists g1. split; [|done]. rewrite Htr. do 2 f_equal.
  unfold trace_oracle. destruct Hx as [n Hn]. rewrite Hn.
  rewrite (tracer_self _ x n); [done|apply Hinv|done|].
  eapply all_unmarked_find; [apply Hinv|done].
Qed.

(** C5.  A call of [add_node] or [add_edge] that reports failure leaves
    the whole graph object (node map, edge storage, out lists, cache,
    cache switch, reservation hint and cycles flag) as it was. *)
Theorem failed_insertion_unchanged g (mu : mutation K E) :
  (apply_mutation g mu).1 = false -> (apply_mutation g mu).2 = g.
Proof.
  destruct mu as [x|from to d]; simpl.
  - unfold add_node. by destruct (load_node x g).
  - unfold add_edge. destruct (load_node to g); [|done].
    destruct (load_node from g); [|done].
    by destruct (_edge_storage g !! merge_ids from to).
Qed.

(** C6, amended to identifiers with different hash values.  If
    [std::hash] gives [A] and [B] different values, the merged key of
    [(A, B)] differs from that of [(B, A)], and in every state of a graph
    object a call [add_edge A B] leaves the reverse pair alone: the edge
    storage entry under the key of [(B, A)], the node [B] with its out
    list, the outcome of a later [add_edge B A], and the result of
    [load_edges] on [[B; A]] are what they were before the call. *)
Theorem edge_directional g (A B : K) (d d' : E) :
  reachable g -> std_hash A <> std_hash B ->
  let g' := (add_edge g A B d).2 in
  merge_ids A B <> merge_ids B A /\
  _edge_storage g' !! merge_ids B A = _edge_storage g !! merge_ids B A /\
  load_node B g' = load_node B g /\
  (add_edge g' B A d').1 = (add_edge g B A d').1 /\
  load_edges g' [B; A] = load_edges g [B; A].
Proof.
  intros Hreach Hne g'. pose proof (merge_ids_swap_ne A B Hne) as Hkey.
  destruct (inv_wf _ (reachable_inv g Hreach)) as [_ Hwf].
  assert (A <> B) as HAB by congruence.
  subst g'. destruct (add_edge g A B d) as [[] g1] eqn:Hadd; simpl.
  2:{ apply add_edge_false in Hadd as ->. by split_and!. }
  apply add_edge_true in Hadd
    as (HA & HB & Hfree & Hnodes & Hedges & _).
  assert (_edge_storage g1 !! merge_ids B A = _edge_storage g !! merge_ids B A)
    as Hlook by (by rewrite Hedges, lookup_insert_ne).
  assert (load_node B g1 = load_node B g) as HloadB.
  { unfold load_node. by rewrite Hnodes, map_find_update, decide_False. }
  assert (load_node A g1 = push_out B <$> load_node A g) as HloadA.
  { unfold load_node. by rewrite Hnodes, map_find_update, decide_True. }
  split_and!; try done.
  - unfold add_edge. rewrite HloadA, HloadB, Hlook.
    destruct (load_node A g), (load_node B g); simpl; try done.
    by destruct (_edge_storage g !! merge_ids B A).
  - unfold load_edges. simpl. rewrite HloadA, HloadB.
    destruct HA as [na HA], HB as [nb HB]. rewrite HA, HB. simpl.
    destruct (Hwf _ _ HA) as [-> _], (Hwf _ _ HB) as [-> _].
    by rewrite Hlook.
Qed.

(** X28. If [contains_cycles] returns true in a state reached through the
    public interface in which, for every edge, the merged key of the pair
    that leads back along it is the key of no other pair of stored
    identifiers, it returns true again after any sequence of [add_node]
    and [add_edge] calls, successful or not, applied to the object as it
    was before or as it is after that call. *)
Theorem contains_cycles_monotone g g1 (mus : list (mutation K E)) :
  reachable g -> back_keys_unshared g ->
  contains_cycles g = Some (true, g1) ->
  (exists g2, contains_cycles (apply_mutations g mus) = Some (true, g2)) /\
  (exists g2, contains_cycles (apply_mutations g1 mus) = Some (true, g2)).
Proof.
  intros Hreach Hku Hcc. pose proof (reachable_inv g Hreach) as Hinv.
  destruct (contains_cycles_spec g Hinv)
    as (b & g' & Heq & [Hn He] & Hinv1 & _ & Hfl).
  rewrite Hcc in Heq. simplify_eq.
  assert (has_cycle (_node_storage g)) as Hcyc.
  { rewrite <- Hn. apply flag_has_cycle_unshared; [done| |done].
    intros k nb. rewrite Hn. intros Hedge.
    by apply (key_unshared_same_nodes g), Hku. }
  split.
  - destruct (apply_mutations_spec mus g Hinv) as [Hinv2 Hsub].
    apply has_cycle_contains_cycles; [done|]. by eapply has_cycle_mono.
  - destruct (apply_mutations_spec mus g' Hinv1) as [Hinv2 Hsub].
    apply has_cycle_contains_cycles; [done|].
    eapply has_cycle_mono; [done|]. by rewrite Hn.
Qed.

(** C9.  In every state of a graph object all visiting markers are
    clear, and every call of [trace] returns, found or not, in a state
    where all visiting markers are clear. *)
Theorem markers_clear g :
  reachable g ->
  all_unmarked (_node_storage g) /\
  forall from to, exists r g',
    trace g from to = Some (r, g') /\ all_unmarked (_node_storage g').
Proof.
  intros Hreach. pose proof (reachable_inv g Hreach) as Hinv.
  split; [apply Hinv|]. intros from to.
  destruct (trace_cases g from to (inv_wf _ Hinv)) as (r & g' & Htr & Hcase).
  exists r, g'. split; [done|].
  apply (trace_case_inv _ _ _ _ _ Hinv Hcase).
Qed.

(** C10.  In every state of a graph object, [trace] for any two
    identifiers, stored or not, and [contains_cycles] return and leave the
    node map (node set, out lists, markers), the edge storage and the
    cache switch as they were; [load_edges] is a function of the object
    and has no effect on it. *)
Theorem queries_frame g :
  reachable g ->
  (forall from to, exists r g',
      trace g from to = Some (r, g') /\ same_store g g' /\
      _cache_enabled g' = _cache_enabled g) /\
  (exists b g',
      contains_cycles g = Some (b, g') /\ same_store g g' /\
      _cache_enabled g' = _cache_enabled g).
Proof.
  intros Hreach. pose proof (reachable_inv g Hreach) as Hinv. split.
  - intros from to.
    destruct (trace_cases g from to (inv_wf _ Hinv)) as (r & g' & Htr & Hcase).
    exists r, g'. split; [done|].
    destruct (trace_case_inv _ _ _ _ _ Hinv Hcase) as (_ & ? & _ & ? & _). done.
  - destruct (contains_cycles_spec g Hinv) as (b & g' & Heq & ? & _ & ? & _).
    by exists b, g'.
Qed.
End GenericClaims.

Section StringClaims.
Context {HH : StdHash string}.

(** C8.  Whatever [std::hash<std::string>] is, when [build_from] on a
    fresh graph object succeeds for the nodes A..I and the edges A->F,
    A->D, A->B, D->A, D->F, F->G, G->H, H->E, E->C, C->B, B->I, B->E in
    that order, [trace A I] succeeds with the path [[A; B; I]] and
    [load_edges] on that path returns the payloads ["A->B"; "B->I"]. *)
Theorem graph_six_trace (b : bool) g :
  build_from (new_graph b) graph_six = (true, g) ->
  exists g',
    trace g "A" "I" = Some (Some ["A"; "B"; "I"], g') /\
    load_edges g' ["A"; "B"; "I"] = Some (Some ["A->B"; "B->I"]).
Proof.
  intros Hbuild.
  apply build_from_true in Hbuild as (Hreach & Hn & Hc & Hedges).
  pose proof (reachable_inv g Hreach) as Hinv.
  assert (_node_storage g
          = [("A", mk_node_s "A" ["F"; "D"; "B"] false);
             ("B", mk_node_s "B" ["I"; "E"] false);
             ("C", mk_node_s "C" ["B"] false);
             ("D", mk_node_s "D" ["A"; "F"] false);
             ("E", mk_node_s "E" ["C"] false);
             ("F", mk_node_s "F" ["G"] false);
             ("G", mk_node_s "G" ["H"] false);
             ("H", mk_node_s "H" ["E"] false);
             ("I", mk_node_s "I" [] false)]) as Hnodes.
  { rewrite Hn. by destruct b; vm_compute. }
  clear Hn.
  destruct (trace_cases g "A" "I" (inv_wf _ Hinv)) as (r & g' & Htr & Hcase).
  destruct (trace_case_inv _ _ _ _ _ Hinv Hcase) as (_ & Hss & _).
  assert (r = Some ["A"; "B"; "I"]) as ->.
  { destruct Hcase as [Hun|p _ _ _ Hhit|_ _ _ Hres _|p _ _ _ Hres _].
    - exfalso. apply Hun. unfold stored, load_node. rewrite Hnodes.
      split; by eexists.
    - by rewrite Hc, lookup_empty in Hhit.
    - rewrite Hnodes in Hres. vm_compute in Hres. done.
    - rewrite Hnodes in Hres. vm_compute in Hres. by simplify_eq. }
  exists g'. split; [done|].
  rewrite (load_edges_same_store g g' _ Hss).
  assert (_edge_storage g !! merge_ids "A" "B" = Some "A->B") as HAB.
  { by apply (Hedges (mk_edge_s "A" "B" "A->B")), (list_elem_of_lookup_2 _ 2). }
  assert (_edge_storage g !! merge_ids "B" "I" = Some "B->I") as HBI.
  { by apply (Hedges (mk_edge_s "B" "I" "B->I")), (list_elem_of_lookup_2 _ 10). }
  assert (load_node "A" g = Some (mk_node_s "A" ["F"; "D"; "B"] false)) as HA
    by (unfold load_node; by rewrite Hnodes).
  assert (load_node "B" g = Some (mk_node_s "B" ["I"; "E"] false)) as HB
    by (unfold load_node; by rewrite Hnodes).
  assert (load_node "I" g = Some (mk_node_s "I" [] false)) as HI
    by (unfold load_node; by rewrite Hnodes).
  unfold load_edges. simpl length. cbn [Nat.ltb Nat.leb].
  rewrite load_edges_loop_cons, HA, HB. cbn [id]. rewrite HAB.
  rewrite load_edges_loop_cons, HB, HI. cbn [id]. by rewrite HBI.
Qed.
End StringClaims.

(** ** Concrete states: witnesses and counterexamples *)

Lemma int_graph_reachable ns es : reachable (int_graph ns es).
Proof. apply build_from_reachable, reach_new. Qed.

Lemma after_trace_reachable {K} {HK : NodeId K} {HH : StdHash K} {E}
    (g : graph_c K E) from to :
  reachable g -> reachable (after_trace g from to).
Proof.
  intros Hg. unfold after_trace.
  destruct (trace g from to) as [[r g']|] eqn:Htr; [|done].
  by eapply reach_trace.
Qed.

Lemma two_cycle_traced_reachable : reachable two_cycle_traced.
Proof. apply after_trace_reachable, int_graph_reachable. Qed.

Lemma two_cycle_traced_collision_free : collision_free two_cycle_traced.
Proof. apply collision_freeb_spec. by vm_compute. Qed.

Lemma two_cycle_collision_free : collision_free two_cycle.
Proof. apply collision_freeb_spec. by vm_compute. Qed.

(** The claim C1 as stated fails on a single-node path: in the second
    graph of [test.cpp], [trace A A] succeeds with [[A]] and [load_edges]
    on that path fails. *)
Lemma single_node_path_has_no_edges :
  reachable (HH:=fnv1a_hash) g_two /\
  trace (HH:=fnv1a_hash) g_two "A" "A"
    = Some (Some ["A"], after_trace (HH:=fnv1a_hash) g_two "A" "A") /\
  load_edges (HH:=fnv1a_hash) (after_trace (HH:=fnv1a_hash) g_two "A" "A") ["A"]
    = Some None.
Proof.
  split; [apply build_from_reachable, reach_new|]. split; by vm_compute.
Qed.

(** The expectation of [test.cpp] for the self-loop of its second graph
    (one hop from B to B, payload "B->B") is not met: the edge is stored,
    [trace B B] returns [[B]] and [load_edges] on it fails. *)
Lemma self_loop_not_traversed :
  _edge_storage g_two !! merge_ids (HH:=fnv1a_hash) "B" "B" = Some "B->B" /\
  trace (HH:=fnv1a_hash) g_two "B" "B"
    = Some (Some ["B"], after_trace (HH:=fnv1a_hash) g_two "B" "B") /\
  load_edges (HH:=fnv1a_hash) (after_trace (HH:=fnv1a_hash) g_two "B" "B") ["B"]
    = Some None.
Proof. split_and!; by vm_compute. Qed.

Lemma trace_path_valid_witness :
  reachable two_cycle /\
  trace two_cycle 0%Z 1%Z = Some (Some [0; 1]%Z, two_cycle_traced) /\
  path_edges_stored two_cycle_traced [0; 1]%Z /\
  exists es, load_edges two_cycle_traced [0; 1]%Z = Some (Some es) /\
             length es = 1.
Proof.
  assert (reachable two_cycle) as Hr by apply int_graph_reachable.
  assert (trace two_cycle 0%Z 1%Z = Some (Some [0; 1]%Z, two_cycle_traced))
    as Htr by (by vm_compute).
  destruct (trace_path_valid two_cycle 0%Z 1%Z [0; 1]%Z two_cycle_traced Hr Htr)
    as [Hedges Hload].
  split; [done|]. split; [done|]. split; [done|].
  apply Hload. simpl. lia.
Defined.

(** C2: the cache answers a query with the path of another pair.  With
    integer identifiers, each its own hash value, the pairs [(0, 1)] and
    [(2, 0)] both merge to [2], and a cache hit is returned without a look
    at the pair it was stored for.  In the graph with the nodes 0, 1, 2
    and the edge 0->1, after [trace 0 1], the search from 2 to 0 on the
    current store finds nothing and [trace 2 0] with caching switched off
    returns nothing, but [trace 2 0] returns the cached path [[0; 1]]: the
    value of [trace] depends on the cache switch and on the earlier
    trace. *)
Theorem cache_key_collision_changes_trace :
  reachable one_edge_traced /\
  merge_ids 0%Z 1%Z = merge_ids 2%Z 0%Z /\
  trace_oracle one_edge_traced 2%Z 0%Z = None /\
  fst <$> trace one_edge_traced 2%Z 0%Z = Some (Some [0; 1]%Z) /\
  fst <$> trace (toggle_cache one_edge_traced false) 2%Z 0%Z = Some None.
Proof.
  split; [apply after_trace_reachable, int_graph_reachable|].
  split_and!; by vm_compute.
Qed.

Lemma fan_traced_unshared : key_unshared fan_traced 0%Z 2%Z.
Proof. apply key_unsharedb_spec. by vm_compute. Qed.

(** The state [fan_traced] has a shared key and a cache entry under it;
    the key of the query [(0, 2)] is unshared. *)
Lemma trace_cache_transparent_witness :
  reachable fan_traced /\ key_unshared fan_traced 0%Z 2%Z /\
  collision_freeb fan_traced = false /\
  trace_oracle fan_traced 0%Z 2%Z = Some [0; 2]%Z /\
  exists g1 g2,
    trace fan_traced 0%Z 2%Z = Some (trace_oracle fan_traced 0%Z 2%Z, g1) /\
    trace (toggle_cache fan_traced false) 0%Z 2%Z
      = Some (trace_oracle fan_traced 0%Z 2%Z, g2).
Proof.
  assert (reachable fan_traced) as Hr
    by apply after_trace_reachable, int_graph_reachable.
  split; [exact Hr|]. split; [exact fan_traced_unshared|].
  split; [by vm_compute|]. split; [by vm_compute|].
  exact (trace_cache_transparent fan_traced 0%Z 2%Z Hr fan_traced_unshared).
Defined.

(** C3: the cache answers the query for a node and itself with the path
    of another pair.  With integer identifiers, each its own hash value,
    the pairs [(1, 1)] and [(3, 0)] both merge to [3].  In the graph with
    the nodes 0, 1, 3 and the edge 3->0, after [trace 3 0], the search
    from the stored node 1 to itself gives [[1]] and so does [trace 1 1]
    with caching switched off, but [trace 1 1] returns the cached path
    [[3; 0]], on which [load_edges] succeeds with the payload of the edge
    3->0. *)
Theorem cache_key_collision_self_trace :
  reachable three_zero_traced /\ stored three_zero_traced 1%Z /\
  merge_ids 1%Z 1%Z = merge_ids 3%Z 0%Z /\
  trace_oracle three_zero_traced 1%Z 1%Z = Some [1%Z] /\
  fst <$> trace (toggle_cache three_zero_traced false) 1%Z 1%Z
    = Some (Some [1%Z]) /\
  fst <$> trace three_zero_traced 1%Z 1%Z = Some (Some [3; 0]%Z) /\
  load_edges (after_trace three_zero_traced 1%Z 1%Z) [3; 0]%Z
    = Some (Some ["3->0"]).
Proof.
  split; [apply after_trace_reachable, int_graph_reachable|].
  split; [by eexists|]. split_and!; by vm_compute.
Qed.

Lemma self_loop_traced_unshared : key_unshared self_loop_traced 1%Z 1%Z.
Proof. apply key_unsharedb_spec. by vm_compute. Qed.

(** The node 1 of [self_loop_traced] has an edge to itself; the state has
    a shared key and a cache entry under it. *)
Lemma trace_self_witness :
  reachable self_loop_traced /\ key_unshared self_loop_traced 1%Z 1%Z /\
  stored self_loop_traced 1%Z /\
  edge_in (_node_storage self_loop_traced) 1%Z 1%Z /\
  collision_freeb self_loop_traced = false /\
  exists g', trace self_loop_traced 1%Z 1%Z = Some (Some [1%Z], g') /\
             load_edges g' [1%Z] = Some None.
Proof.
  assert (reachable self_loop_traced) as Hr
    by apply after_trace_reachable, int_graph_reachable.
  assert (stored self_loop_traced 1%Z) as Hs by (by eexists).
  split; [exact Hr|]. split; [exact self_loop_traced_unshared|].
  split; [exact Hs|].
  split; [eexists; split; [by vm_compute|left]|]. split; [by vm_compute|].
  exact (trace_self self_loop_traced 1%Z Hr self_loop_traced_unshared Hs).
Defined.

(** C4: the hint is the quotient of the integer division, not its
    ceiling.  With the two cached paths [[0; 1]] and [[0; 1; 2]],
    [optimize_trace] succeeds and sets the hint to 2, while the ceiling of
    5 / 2 is 3. *)
Theorem optimize_trace_floor :
  reachable chain3_traced /\
  size (_cache chain3_traced) = 2 /\
  _cache chain3_traced !! 2%Z = Some [0; 1]%Z /\
  _cache chain3_traced !! 4%Z = Some [0; 1; 2]%Z /\
  (optimize_trace chain3_traced).1 = true /\
  _average_path_len (optimize_trace chain3_traced).2 = 2%Z /\
  ceil_div (2 + 3) 2 = 3%Z.
Proof.
  split; [do 2 apply after_trace_reachable; apply int_graph_reachable|].
  split_and!; by vm_compute.
Qed.

Lemma failed_insertion_unchanged_witness :
  ((add_node two_cycle 0%Z).1 = false /\ (add_node two_cycle 0%Z).2 = two_cycle) /\
  ((add_edge two_cycle 0%Z 1%Z "again").1 = false /\
   (add_edge two_cycle 0%Z 1%Z "again").2 = two_cycle) /\
  ((add_edge two_cycle 0%Z 7%Z "none").1 = false /\
   (add_edge two_cycle 0%Z 7%Z "none").2 = two_cycle).
Proof.
  assert ((apply_mutation two_cycle (AddNode 0%Z)).1 = false) as H1
    by (by vm_compute).
  assert ((apply_mutation two_cycle (AddEdge 0%Z 1%Z "again")).1 = false) as H2
    by (by vm_compute).
  assert ((apply_mutation two_cycle (AddEdge 0%Z 7%Z "none")).1 = false) as H3
    by (by vm_compute).
  split_and!.
  - exact H1.
  - exact (failed_insertion_unchanged two_cycle (AddNode 0%Z) H1).
  - exact H2.
  - exact (failed_insertion_unchanged two_cycle (AddEdge 0%Z 1%Z "again") H2).
  - exact H3.
  - exact (failed_insertion_unchanged two_cycle (AddEdge 0%Z 7%Z "none") H3).
Defined.

(** The claim C6 as stated fails for identifiers with the same hash: the
    128-bit identifiers [0] and [2^64] are distinct and hash to the same
    value, the keys of [(0, 2^64)] and [(2^64, 0)] are equal, and after
    [add_edge 0 2^64] the reverse edge is rejected as a duplicate and
    found by [load_edges], although [2^64] has no outgoing edge. *)
Lemma hash_collision_reverse_edge :
  (0 <> 2 ^ 64)%Z /\
  merge_ids 0%Z (2 ^ 64)%Z = merge_ids (2 ^ 64)%Z 0%Z /\
  reachable wide_pair /\
  map_find (2 ^ 64)%Z (_node_storage wide_pair)
    = Some (mk_node_s (2 ^ 64)%Z [] false) /\
  (add_edge wide_pair (2 ^ 64)%Z 0%Z "2^64->0").1 = false /\
  load_edges wide_pair [2 ^ 64; 0]%Z = Some (Some ["0->2^64"]).
Proof.
  split; [done|]. split; [by vm_compute|].
  split; [apply int_graph_reachable|]. split_and!; by vm_compute.
Qed.

Lemma edge_directional_witness :
  reachable one_edge /\ std_hash 1%Z <> std_hash 2%Z /\
  let g' := (add_edge one_edge 1%Z 2%Z "1->2").2 in
  merge_ids 1%Z 2%Z <> merge_ids 2%Z 1%Z /\
  _edge_storage g' !! merge_ids 2%Z 1%Z
    = _edge_storage one_edge !! merge_ids 2%Z 1%Z /\
  load_node 2%Z g' = load_node 2%Z one_edge /\
  (add_edge g' 2%Z 1%Z "2->1").1 = (add_edge one_edge 2%Z 1%Z "2->1").1 /\
  load_edges g' [2; 1]%Z = load_edges one_edge [2; 1]%Z.
Proof.
  assert (std_hash 1%Z <> std_hash 2%Z) as Hne by (by vm_compute).
  split; [apply int_graph_reachable|]. split; [exact Hne|].
  exact (edge_directional one_edge 1%Z 2%Z "1->2" "2->1"
           (int_graph_reachable _ _) Hne).
Defined.

(** C7: [contains_cycles] reports a cycle in a graph without one, and
    takes it back after an insertion.  With integer identifiers, each its
    own hash value, the pairs [(0, 1)] and [(2, 0)] both merge to [2].  In
    the graph with the nodes 0, 1, 2 and the edges 0->1 and 0->2, after
    [trace 0 1], the searches back along the two edges (from 1 to 0 and
    from 2 to 0) find nothing and [contains_cycles] with caching switched
    off returns false, but [contains_cycles] takes the cache entry of
    [(0, 1)] for a path from 2 to 0 and returns true; after [add_node 3],
    which clears the cache and the flag, it returns false. *)
Theorem cache_key_collision_cycles :
  reachable fan_traced /\
  merge_ids 0%Z 1%Z = merge_ids 2%Z 0%Z /\
  trace_oracle fan_traced 1%Z 0%Z = None /\
  trace_oracle fan_traced 2%Z 0%Z = None /\
  fst <$> contains_cycles (toggle_cache fan_traced false) = Some false /\
  fst <$> contains_cycles fan_traced = Some true /\
  fst <$> contains_cycles (add_node (after_contains_cycles fan_traced) 3%Z).2
    = Some false.
Proof.
  split; [apply after_trace_reachable, int_graph_reachable|].
  split_and!; by vm_compute.
Qed.

Lemma loop_at_two_unshared : back_keys_unshared loop_at_two.
Proof. apply back_keys_unsharedb_spec. by vm_compute. Qed.

(** The state [loop_at_two] has a shared key; the key of the one pair that
    leads back along an edge, [(2, 2)], is unshared. *)
Lemma contains_cycles_monotone_witness :
  reachable loop_at_two /\ back_keys_unshared loop_at_two /\
  collision_freeb loop_at_two = false /\
  contains_cycles loop_at_two
    = Some (true, after_contains_cycles loop_at_two) /\
  (exists g2,
     contains_cycles
       (apply_mutations loop_at_two [AddNode 4%Z; AddEdge 1%Z 2%Z "1->2"])
     = Some (true, g2)) /\
  (exists g2,
     contains_cycles
       (apply_mutations (after_contains_cycles loop_at_two)
          [AddNode 4%Z; AddEdge 1%Z 2%Z "1->2"])
     = Some (true, g2)).
Proof.
  assert (contains_cycles loop_at_two
          = Some (true, after_contains_cycles loop_at_two)) as Hcc
    by (by vm_compute).
  split; [apply int_graph_reachable|].
  split; [exact loop_at_two_unshared|]. split; [by vm_compute|].
  split; [exact Hcc|].
  exact (contains_cycles_monotone loop_at_two (after_contains_cycles loop_at_two)
           [AddNode 4%Z; AddEdge 1%Z 2%Z "1->2"]
           (int_graph_reachable _ _) loop_at_two_unshared Hcc).
Defined.

Lemma graph_six_trace_witness :
  build_from (HH:=fnv1a_hash) (new_graph true) graph_six = (true, g_six) /\
  exists g',
    trace (HH:=fnv1a_hash) g_six "A" "I" = Some (Some ["A"; "B"; "I"], g') /\
    load_edges (HH:=fnv1a_hash) g' ["A"; "B"; "I"]
      = Some (Some ["A->B"; "B->I"]).
Proof.
  assert (build_from (HH:=fnv1a_hash) (new_graph true) graph_six
          = (true, g_six)) as Hb by (by vm_compute).
  split; [exact Hb|].
  exact (graph_six_trace (HH:=fnv1a_hash) true g_six Hb).
Defined.

Lemma markers_clear_witness :
  reachable two_cycle_traced /\
  all_unmarked (_node_storage two_cycle_traced) /\
  forall from to, exists r g',
    trace two_cycle_traced from to = Some (r, g') /\
    all_unmarked (_node_storage g').
Proof.
  split; [exact two_cycle_traced_reachable|].
  exact (markers_clear two_cycle_traced two_cycle_traced_reachable).
Defined.

Lemma queries_frame_witness :
  reachable two_cycle_traced /\
  (forall from to, exists r g',
      trace two_cycle_traced from to = Some (r, g') /\
      same_store two_cycle_traced g' /\
      _cache_enabled g' = _cache_enabled two_cycle_traced) /\
  (exists b g',
      contains_cycles two_cycle_traced = Some (b, g') /\
      same_store two_cycle_traced g' /\
      _cache_enabled g' = _cache_enabled two_cycle_traced).
Proof.
  split; [exact two_cycle_traced_reachable|].
  exact (queries_frame two_cycle_traced two_cycle_traced_reachable).
Defined.

(** * Further properties *)

(** ** Least paths *)

Section Shortest.
Context {K : Type} {HK : NodeId K}.
Implicit Types (m : node_map K) (n : node_s K) (x y k : K).

Lemma smallest_index_min (tp : list (node_list_t K)) : forall i idx s,
  let r := smallest_index tp i idx s in
  (r = idx /\ forall q, q ∈ tp -> (s <= Z.of_nat (length q))%Z) \/
  (i <= r < i + length tp /\
   exists p, tp !! (r - i) = Some p /\ (Z.of_nat (length p) < s)%Z /\
             forall q, q ∈ tp -> length p <= length q).
Proof.
  induction tp as [|p tp IH]; intros i idx s; simpl.
  - left. split; [done|]. intros q Hq. by apply elem_of_nil in Hq.
  - destruct (Z.ltb_spec (Z.of_nat (length p)) s) as [Hlt|Hge].
    + right. destruct (IH (S i) i (Z.of_nat (length p))) as [[-> Hall]|(Hr & p' & Hp' & Hlt' & Hmin)].
      * split; [lia|]. exists p. rewrite Nat.sub_diag. split; [done|]. split; [done|].
        intros q Hq. apply elem_of_cons in Hq as [->|Hq]; [done|].
        specialize (Hall q Hq). lia.
      * split; [lia|]. exists p'.
        replace (smallest_index tp (S i) i (Z.of_nat (length p)) - i)
          with (S (smallest_index tp (S i) i (Z.of_nat (length p)) - S i)) by lia.
        split; [done|]. split; [lia|].
        intros q Hq. apply elem_of_cons in Hq as [->|Hq]; [lia|auto].
    + destruct (IH (S i) idx s) as [[-> Hall]|(Hr & p' & Hp' & Hlt' & Hmin)].
      * left. split; [done|]. intros q Hq.
        apply elem_of_cons in Hq as [->|Hq]; [done|auto].
      * right. split; [lia|]. exists p'.
        replace (smallest_index tp (S i) idx s - i)
          with (S (smallest_index tp (S i) idx s - S i)) by lia.
        split; [done|]. split; [done|].
        intros q Hq. apply elem_of_cons in Hq as [->|Hq]; [lia|auto].
Qed.

(** The sub-path [find] selects is one of least size, as soon as one of
    the candidates has a size below [SIZE_MAX]. *)
Lemma smallest_index_least (tp : list (node_list_t K)) p q :
  p ∈ tp -> (Z.of_nat (length p) < size_t_max)%Z -> q ∈ tp ->
  length (nth (smallest_index tp 0 0 size_t_max) tp []) <= length q.
Proof.
  intros Hp Hsmall Hq.
  destruct (smallest_index_min tp 0 0 size_t_max)
    as [[_ Hall]|(_ & p' & Hp' & _ & Hmin)].
  - specialize (Hall p Hp). lia.
  - rewrite Nat.sub_0_r in Hp'.
    rewrite (nth_lookup_Some _ _ _ _ Hp'). auto.
Qed.

Lemma fpath_keys m to from p : fpath m to from p -> NoDup p /\ p ⊆ keys m.
Proof.
  induction 1 as [Hu|from nb p Hu Hne He Hp [IH1 IH2] Hnin].
  - split; [apply NoDup_singleton|]. intros x Hx.
    apply list_elem_of_singleton in Hx as ->.
    destruct Hu as (n & Hn & _). apply map_find_is_Some. by exists n.
  - split; [by constructor|]. intros x Hx.
    apply elem_of_cons in Hx as [->|Hx]; [|auto].
    destruct Hu as (n & Hn & _). apply map_find_is_Some. by exists n.
Qed.

Lemma fpath_length m to from p : fpath m to from p -> 1 <= length p <= length m.
Proof.
  intros Hp. split; [destruct Hp; simpl; lia|].
  destruct (fpath_keys _ _ _ _ Hp) as [Hnd Hsub].
  apply NoDup_submseteq in Hsub; [|done]. apply submseteq_length in Hsub.
  unfold keys in Hsub. by rewrite length_fmap in Hsub.
Qed.

Lemma fpath_ends m to from p :
  fpath m to from p -> head p = Some from /\ last p = Some to.
Proof.
  induction 1 as [Hu|from nb p Hu Hne He Hp [IH1 IH2] Hnin]; [done|].
  split; [done|]. destruct p; [done|]. by rewrite last_cons_cons.
Qed.

Lemma scan_least (rec : node_map K -> K -> node_list_t K -> find_result) m to :
  wf_nodes m ->
  (forall x path, is_Some (map_find x m) -> find_post m x to path (rec m x path)) ->
  (forall x, is_Some (map_find x m) -> find_least m x to [] (rec m x [])) ->
  forall nbs trav, (forall nb, nb ∈ nbs -> is_Some (map_find nb m)) ->
  exists found, scan rec nbs m trav = Some (trav ++ found, m) /\
    forall nb q, nb ∈ nbs -> fpath m to nb q ->
      (Z.of_nat (length q) < size_t_max)%Z ->
      exists p, p ∈ found /\ length p <= length q.
Proof.
  intros Hwf Hrec Hleast nbs. induction nbs as [|nb nbs IH]; intros trav Hnbs; simpl.
  - exists []. rewrite app_nil_r. split; [done|].
    intros nb q Hin. by apply elem_of_nil in Hin.
  - destruct (Hnbs nb) as [n Hn]; [left|]. rewrite Hn.
    destruct Hwf as [Hnd Hwf]. destruct (Hwf _ _ Hn) as [Hid _]. rewrite Hid.
    pose proof (Hleast nb (ex_intro _ _ Hn)) as Hl.
    destruct (Hrec nb [] (ex_intro _ _ Hn)) as (b & p & Heq & Hb).
    rewrite Heq in Hl |- *. simpl.
    assert (unmark_path m p = m) as ->.
    { destruct b; [|by destruct Hb as [-> _]].
      apply unmark_path_id. by eapply fpath_unmarked. }
    destruct b.
    + destruct (IH (trav ++ [p])) as (found & Hsc & Hf).
      { intros; apply Hnbs; by right. }
      exists (p :: found). split.
      { etrans; [exact Hsc|]. by rewrite <- app_assoc. }
      intros nb' q Hin Hq Hsmall. apply elem_of_cons in Hin as [->|Hin].
      * exists p. split; [left|]. by eapply (Hl p m).
      * destruct (Hf nb' q Hin Hq Hsmall) as (p' & ? & ?).
        exists p'. split; [by right|done].
    + destruct (IH trav) as (found & Hsc & Hf).
      { intros; apply Hnbs; by right. }
      exists found. split; [exact Hsc|].
      intros nb' q Hin Hq Hsmall.
      apply elem_of_cons in Hin as [->|Hin]; [|by eapply Hf].
      destruct Hb as [_ Hb]. by destruct (Hb q).
Qed.

Lemma find_unfold fuel m (from to : K) path r :
  find (S fuel) m from to path r
  = let '(node, m0) := subscript from m in
    if marked node then Some (false, path, m0)
    else
      let path1 := path ++ [from] in
      if decide (id node = to) then Some (true, path1, m0)
      else
        let m1 := map_update from (set_marked true) m0 in
        match scan (fun m' x p => find fuel m' x to p r) (out node) m1 [] with
        | None => None
        | Some (traversed_path, m2) =>
            let m3 := map_update from (set_marked false) m2 in
            match traversed_path with
            | [] => Some (false, removelast path1, m3)
            | _ :: _ =>
                let idx := smallest_index traversed_path 0 0 size_t_max in
                Some (true, path1 ++ nth idx traversed_path [], m3)
            end
        end.
Proof. done. Qed.

Lemma find_least_spec fuel : forall m from to path r,
  wf_nodes m -> is_Some (map_find from m) -> unmarked_count m < fuel ->
  find_least m from to path (find fuel m from to path r).
Proof.
  induction fuel as [|fuel IH]; intros m from to path r Hwf [node Hnode] Hfuel;
    [lia|].
  intros p m' Hres q Hq Hsmall. rewrite find_unfold in Hres. unfold subscript in Hres.
  rewrite Hnode in Hres. cbv beta iota zeta in Hres.
  destruct (marked node) eqn:Hmk; [done|].
  pose proof Hwf as [Hnd Hwf']. destruct (Hwf' _ _ Hnode) as [Hid Hout].
  rewrite Hid in Hres. case_decide as Hto.
  { injection Hres as Hp _. apply app_inv_head in Hp. subst p.
    apply fpath_length in Hq. simpl. lia. }
  set (m1 := map_update from (set_marked true) m) in *.
  assert (wf_nodes m1) as Hwf1 by by apply wf_update_marked.
  assert (unmarked_count m1 < fuel) as Hfuel1.
  { pose proof (unmarked_count_mark _ _ _ Hnode Hmk) as Hcnt. fold m1 in Hcnt. lia. }
  destruct (scan_least (fun m' x p => find fuel m' x to p r) m1 to Hwf1) with
    (nbs := out node) (trav := @nil (node_list_t K)) as (found & Hsc & Hmin).
  { intros x path' Hx. by apply find_spec. }
  { intros x Hx. by apply IH. }
  { intros nb Hnb. unfold m1. apply is_Some_find_update. by apply Hout. }
  destruct (scan_spec (fun m' x p => find fuel m' x to p r) m1 to Hwf1) with
    (nbs := out node) (trav := @nil (node_list_t K)) as (found' & Hsc' & Hfound & _).
  { intros x path' Hx. by apply find_spec. }
  { intros nb Hnb. unfold m1. apply is_Some_find_update. by apply Hout. }
  cbn [app] in Hsc, Hsc'.
  rewrite Hsc in Hsc'. injection Hsc' as ->. rewrite Hsc in Hres.
  cbv beta iota zeta in Hres.
  destruct found' as [|t ts]; [done|].
  assert ((path ++ [from])
          ++ nth (smallest_index (t :: ts) 0 0 size_t_max) (t :: ts) []
          = path ++ p) as Hp by congruence.
  clear Hres.
  rewrite <- app_assoc in Hp. apply app_inv_head in Hp. subst p.
  inversion Hq as [|? nb q' Hu Hne He Hq' Hnin]; simplify_eq.
  destruct He as (n' & Hn' & Hnb). rewrite Hnode in Hn'. injection Hn' as <-.
  destruct (Hmin nb q' Hnb) as (p' & Hp' & Hle).
  { apply fpath_mark_iff. done. }
  { cbn [length] in Hsmall. lia. }
  assert (length (nth (smallest_index (t :: ts) 0 0 size_t_max) (t :: ts) [])
          <= length p') as Hsel.
  { apply (smallest_index_least _ p'); [done| |done]. cbn [length] in Hsmall. lia. }
  rewrite length_app. cbn [length] in *. lia.
Qed.
End Shortest.

(** ** Routes *)

Section RouteFacts.
Context {K : Type} {HK : NodeId K} {HH : StdHash K} {E : Type}.
Implicit Types (g : graph_c K E) (m : node_map K).

Lemma fpath_walk m (from to : K) p : fpath m to from p -> walk m to from p.
Proof.
  induction 1 as [Hu|from nb p Hu Hne He Hp IH Hnin].
  - constructor. destruct Hu as (n & Hn & _). by exists n.
  - by econstructor.
Qed.

Lemma fpath_suffix m (from to x : K) p :
  fpath m to from p -> x ∈ p ->
  exists q, fpath m to x q /\ length q <= length p.
Proof.
  induction 1 as [Hu|from nb p Hu Hne He Hp IH Hnin]; intros Hx.
  - apply list_elem_of_singleton in Hx as ->. exists [to]. split; [by constructor|done].
  - apply elem_of_cons in Hx as [->|Hx].
    + exists (from :: p). split; [by econstructor|done].
    + destruct (IH Hx) as (q & Hq & Hle). exists q. split; [done|]. simpl. lia.
Qed.

(** Cutting the loops out of a route. *)
Lemma walk_fpath m (from to : K) p :
  all_unmarked m -> walk m to from p ->
  exists q, fpath m to from q /\ length q <= length p.
Proof.
  intros Hall. induction 1 as [[n Hn]|from nb p He Hw (q & Hq & Hle)].
  - exists [to]. split; [|done]. constructor. exists n. split; [done|].
    by eapply all_unmarked_find.
  - assert (unmarked m from) as Hu.
    { destruct He as (n & Hn & _). exists n. split; [done|].
      by eapply all_unmarked_find. }
    destruct (decide (from = to)) as [->|Hne].
    { exists [to]. split; [by constructor|]. simpl. lia. }
    destruct (decide (from ∈ q)) as [Hin|Hnin].
    + destruct (fpath_suffix _ _ _ _ _ Hq Hin) as (q' & Hq' & Hle').
      exists q'. split; [done|]. simpl. lia.
    + exists (from :: q). split; [by econstructor|]. simpl. lia.
Qed.

Lemma trace_oracle_route g (from to : K) :
  graph_inv g -> route_answer (_node_storage g) from to (trace_oracle g from to).
Proof.
  intros Hinv. pose proof (inv_wf _ Hinv) as Hwf.
  pose proof (inv_unmarked _ Hinv) as Hall.
  unfold trace_oracle.
  destruct (load_node to g) as [nt|] eqn:Hto.
  2:{ simpl. intros q Hq.
      assert (is_Some (map_find to (_node_storage g))) as [? ?].
      { clear Hto. induction Hq; [done|auto]. }
      unfold load_node in Hto. congruence. }
  destruct (load_node from g) as [nf|] eqn:Hfrom.
  2:{ simpl. intros q Hq.
      assert (is_Some (map_find from (_node_storage g))) as [? ?].
      { destruct Hq as [|? ? ? (n & Hn & _)]; [by eexists|by exists n]. }
      unfold load_node in Hfrom. congruence. }
  destruct (tracer_spec (_node_storage g) from to Hwf) as (b & p & Htr & Hb);
    [by eexists|].
  rewrite Htr. destruct b; simpl.
  - split; [by apply fpath_walk|].
    split; [by destruct (fpath_keys _ _ _ _ Hb)|].
    intros q Hq Hsmall.
    destruct (walk_fpath _ _ _ _ Hall Hq) as (q' & Hq' & Hle).
    etrans; [|exact Hle].
    assert (unmarked_count (_node_storage g) < find_fuel (_node_storage g))
      as Hcount.
    { unfold find_fuel. pose proof (unmarked_count_le (_node_storage g)). lia. }
    apply (find_least_spec _ _ from to [] DEFAULT_TRACE_RESERVATION Hwf
             (ex_intro _ nf Hfrom) Hcount p _ Htr q' Hq'). lia.
  - destruct Hb as [_ Hb]. intros q Hq.
    destruct (walk_fpath _ _ _ _ Hall Hq) as (q' & Hq' & _). by apply (Hb q').
Qed.

(** With an empty cache or caching off, [trace] answers from the store. *)
Lemma trace_no_cache_oracle g (from to : K) :
  graph_inv g -> _cache_enabled g = false \/ _cache g = ∅ ->
  exists g', trace g from to = Some (trace_oracle g from to, g').
Proof.
  intros Hinv Hno.
  destruct (trace_cases g from to (inv_wf _ Hinv)) as (r & g' & Htr & Hcase).
  exists g'. rewrite Htr. do 2 f_equal. unfold trace_oracle.
  destruct Hcase as [Hun|p Hsf Hst Hen Hhit|Hsf Hst Hmiss Hres Hno'
                     |p Hsf Hst Hmiss Hres Hp].
  - unfold stored in Hun.
    destruct (load_node to g), (load_node from g); try done.
    exfalso. apply Hun. split; by eexists.
  - destruct Hno as [Hoff|Hempty]; [congruence|].
    by rewrite Hempty, lookup_empty in Hhit.
  - destruct Hsf as [? ->], Hst as [? ->]. by rewrite Hres.
  - destruct Hsf as [? ->], Hst as [? ->]. by rewrite Hres.
Qed.
End RouteFacts.

(** ** The answers of [trace] and [contains_cycles] *)

Section Answers.
Context {K : Type} {HK : NodeId K} {HH : StdHash K} {E : Type}.
Implicit Types (g : graph_c K E) (m : node_map K).

Lemma trace_value_oracle g (from to : K) r g' :
  graph_inv g -> collision_free g -> trace g from to = Some (r, g') ->
  r = trace_oracle g from to.
Proof.
  intros Hinv Hcf Htr.
  destruct (trace_returns_oracle g from to Hinv Hcf) as (g1 & Heq). congruence.
Qed.

Lemma trace_value_no_cache g (from to : K) r g' :
  graph_inv g -> _cache_enabled g = false \/ _cache g = ∅ ->
  trace g from to = Some (r, g') -> r = trace_oracle g from to.
Proof.
  intros Hinv Hno Htr.
  destruct (trace_no_cache_oracle g from to Hinv Hno) as (g1 & Heq). congruence.
Qed.

(** X1. In a state reached through the public interface whose stored
    pairs have distinct merged keys, a path returned by [trace from to] is
    a route of the current store: it starts at [from], ends at [to], each
    node is followed by one of its out neighbours, and no node occurs
    twice. *)
Theorem trace_route g (from to : K) p g' :
  reachable g -> collision_free g -> trace g from to = Some (Some p, g') ->
  walk (_node_storage g) to from p /\ NoDup p.
Proof.
  intros Hreach Hcf Htr. pose proof (reachable_inv g Hreach) as Hinv.
  pose proof (trace_oracle_route g from to Hinv) as Hans.
  rewrite <- (trace_value_oracle _ _ _ _ _ Hinv Hcf Htr) in Hans.
  destruct Hans as (? & ? & _). done.
Qed.

(** X2. Under the same conditions the returned path is a shortest one:
    no route from [from] to [to] whose size a [std::size_t] below
    [SIZE_MAX] can hold, with or without repeated nodes, has fewer
    nodes. *)
Theorem trace_shortest g (from to : K) p g' q :
  reachable g -> collision_free g -> trace g from to = Some (Some p, g') ->
  walk (_node_storage g) to from q -> (Z.of_nat (length q) < size_t_max)%Z ->
  length p <= length q.
Proof.
  intros Hreach Hcf Htr. pose proof (reachable_inv g Hreach) as Hinv.
  pose proof (trace_oracle_route g from to Hinv) as Hans.
  rewrite <- (trace_value_oracle _ _ _ _ _ Hinv Hcf Htr) in Hans.
  destruct Hans as (_ & _ & Hmin). apply Hmin.
Qed.

(** X3. Under the same conditions [trace from to] returns nothing exactly
    when the store holds no route from [from] to [to]; this covers the
    identifiers that are not stored. *)
Theorem trace_none_iff g (from to : K) r g' :
  reachable g -> collision_free g -> trace g from to = Some (r, g') ->
  r = None <-> forall q, ~ walk (_node_storage g) to from q.
Proof.
  intros Hreach Hcf Htr. pose proof (reachable_inv g Hreach) as Hinv.
  pose proof (trace_oracle_route g from to Hinv) as Hans.
  rewrite <- (trace_value_oracle _ _ _ _ _ Hinv Hcf Htr) in Hans.
  destruct r as [p|]; simpl in Hans.
  - split; [done|]. intros Hno. destruct Hans as (Hw & _). by destruct (Hno p).
  - done.
Qed.

(** X4. With caching switched off, or with an empty cache (as after
    [clear_cache], [toggle_cache] and every successful insertion), the
    answer of [trace] is right whatever the hash function does: a
    shortest route without repeated nodes, or nothing when there is no
    route. *)
Theorem trace_without_cache g (from to : K) r g' :
  reachable g -> _cache_enabled g = false \/ _cache g = ∅ ->
  trace g from to = Some (r, g') ->
  route_answer (_node_storage g) from to r.
Proof.
  intros Hreach Hno Htr. pose proof (reachable_inv g Hreach) as Hinv.
  rewrite (trace_value_no_cache _ _ _ _ _ Hinv Hno Htr).
  by apply trace_oracle_route.
Qed.

(** X5. Asking again changes nothing: a second [trace from to], made
    right after the first, returns the same answer and leaves the object
    as the first call left it. *)
Theorem trace_twice g (from to : K) r g1 :
  reachable g -> trace g from to = Some (r, g1) ->
  trace g1 from to = Some (r, g1).
Proof.
  intros Hreach Htr. pose proof (reachable_inv g Hreach) as Hinv.
  destruct (trace_cases g from to (inv_wf _ Hinv)) as (r0 & g0 & Heq & Hcase).
  rewrite Htr in Heq. simplify_eq.
  destruct Hcase as [Hun|p Hsf Hst Hen Hhit|Hsf Hst Hmiss Hres Hno
                     |p Hsf Hst Hmiss Hres Hp]; try done.
  destruct (_cache_enabled g) eqn:Hen; [|done].
  unfold trace. destruct Hsf as [nf Hf], Hst as [nt Ht].
  unfold load_node in *. simpl. rewrite Hf, Ht, Hen.
  by rewrite lookup_insert_eq.
Qed.

(** X6. A [trace] that returns nothing, and every [trace] made with
    caching switched off, leaves the whole object as it was: nodes, edges,
    markers, cache, flag and reservation hint. *)
Theorem trace_leaves_object g (from to : K) r g' :
  reachable g -> trace g from to = Some (r, g') ->
  r = None \/ _cache_enabled g = false -> g' = g.
Proof.
  intros Hreach Htr Hor. pose proof (reachable_inv g Hreach) as Hinv.
  destruct (trace_cases g from to (inv_wf _ Hinv)) as (r0 & g0 & Heq & Hcase).
  rewrite Htr in Heq. simplify_eq.
  destruct Hcase as [Hun|p Hsf Hst Hen Hhit|Hsf Hst Hmiss Hres Hno
                     |p Hsf Hst Hmiss Hres Hp]; try done.
  destruct Hor as [?|Hoff]; [done|]. by rewrite Hoff.
Qed.

(** X7. With caching on, a successful [trace from to] leaves its path in
    the cache under the merged key of the pair, and every other cache
    entry as it was. *)
Theorem trace_caches_success g (from to : K) p g' :
  reachable g -> _cache_enabled g = true ->
  trace g from to = Some (Some p, g') ->
  _cache g' !! merge_ids from to = Some p /\
  forall key, key <> merge_ids from to -> _cache g' !! key = _cache g !! key.
Proof.
  intros Hreach Hen Htr. pose proof (reachable_inv g Hreach) as Hinv.
  destruct (trace_cases g from to (inv_wf _ Hinv)) as (r0 & g0 & Heq & Hcase).
  rewrite Htr in Heq. simplify_eq.
  remember (Some p) as r eqn:Hr.
  destruct Hcase as [Hun|p' Hsf Hst _ Hhit|Hsf Hst Hmiss Hres Hno
                     |p' Hsf Hst Hmiss Hres Hp]; simplify_eq.
  - done.
  - rewrite Hen. simpl. split; [by rewrite lookup_insert_eq|].
    intros key Hkey. by rewrite lookup_insert_ne.
Qed.

(** X8. In a state reached through the public interface whose stored
    pairs have distinct merged keys, [contains_cycles] returns [true]
    exactly when some edge leads to a node from which a route leads back
    (a self edge counts); a negative answer leaves the object as it was,
    and a positive one is remembered: the next call returns [true] and
    changes nothing. *)
Theorem contains_cycles_iff g b g' :
  reachable g -> collision_free g -> contains_cycles g = Some (b, g') ->
  (b = true <-> cyclic (_node_storage g)) /\
  (b = false -> g' = g) /\
  (b = true -> contains_cycles g' = Some (true, g')).
Proof.
  intros Hreach Hcf Hcc. pose proof (reachable_inv g Hreach) as Hinv.
  destruct (contains_cycles_spec g Hinv)
    as (b0 & g0 & Heq & [Hn He] & Hinv' & _ & Hb).
  rewrite Hcc in Heq. simplify_eq. destruct b0.
  - split_and!; [|done|].
    + split; [intros _|done].
      destruct (flag_has_cycle g0 Hinv') as (k & nb & q & Hedge & Hq); [|done|].
      { intros a b c d. unfold stored, load_node. rewrite Hn. apply Hcf. }
      rewrite Hn in Hedge, Hq. exists k, nb, q. split; [done|by apply fpath_walk].
    + intros _. unfold contains_cycles. by rewrite Hb.
  - destruct Hb as [-> Hno]. split_and!; [|done|done].
    split; [done|]. intros (k & nb & q & Hedge & Hq). exfalso. apply Hno.
    destruct (walk_fpath _ _ _ _ (inv_unmarked _ Hinv) Hq) as (q' & Hq' & _).
    by exists k, nb, q'.
Qed.

Lemma walk_two m (from to : K) p :
  walk m to from p -> from <> to -> length p <= 2 -> p = [from; to].
Proof.
  intros Hw Hne Hlen. destruct Hw as [|from nb p He Hw]; [done|].
  destruct Hw as [|nb nb' p He' Hw]; [done|].
  destruct Hw; simpl in Hlen; lia.
Qed.

(** X9. An edge is usable as soon as it is inserted: after a successful
    [add_edge from to d] between two different nodes, [trace from to]
    returns the two-node path from [from] to [to], and [load_edges] on that
    path returns the payload [d] alone. *)
Theorem add_edge_then_trace g (from to : K) d g' :
  reachable g -> add_edge g from to d = (true, g') -> from <> to ->
  exists g'',
    trace g' from to = Some (Some [from; to], g'') /\
    load_edges g'' [from; to] = Some (Some [d]).
Proof.
  intros Hreach Hadd Hne.
  assert (reachable g') as Hreach'.
  { change g' with (true, g').2. rewrite <- Hadd. by constructor. }
  pose proof (reachable_inv g' Hreach') as Hinv'.
  apply add_edge_true in Hadd
    as ([nf Hf] & [nt Ht] & Hfree & Hnodes & Hedges & Hcache & _).
  destruct (trace_cases g' from to (inv_wf _ Hinv')) as (r & g'' & Htr & Hcase).
  destruct (trace_case_inv _ _ _ _ _ Hinv' Hcase) as (_ & Hss & _).
  pose proof (trace_oracle_route g' from to Hinv') as Hans.
  rewrite <- (trace_value_no_cache _ _ _ _ _ Hinv' (or_intror Hcache) Htr) in Hans.
  assert (load_node from g' = Some (push_out to nf)) as Hf'.
  { unfold load_node in *. by rewrite Hnodes, map_find_update, decide_True, Hf. }
  assert (load_node to g' = Some nt) as Ht'.
  { unfold load_node in *.
    rewrite Hnodes, map_find_update, decide_False by done. done. }
  assert (walk (_node_storage g') to from [from; to]) as Hw.
  { econstructor; [|constructor; by exists nt].
    exists (push_out to nf). split; [done|]. simpl. apply elem_of_app. right. left. }
  destruct r as [p|]; simpl in Hans; [|by destruct (Hans _ Hw)].
  destruct Hans as (Hp & _ & Hmin).
  assert (p = [from; to]) as ->.
  { apply (walk_two _ _ _ _ Hp Hne). by apply (Hmin _ Hw). }
  exists g''. split; [done|]. rewrite (load_edges_same_store g' g'' _ Hss).
  unfold load_edges. simpl. rewrite Hf', Ht'. simpl.
  destruct (inv_wf _ (reachable_inv g Hreach)) as [_ Hwf].
  destruct (Hwf _ _ Hf) as [-> _], (Hwf _ _ Ht) as [-> _].
  by rewrite Hedges, lookup_insert_eq.
Qed.
End Answers.

(** ** Growth of the store under [build_from] *)

Section Growth.
Context {K : Type} {HK : NodeId K} {HH : StdHash K} {E : Type}.
Implicit Types (g : graph_c K E) (m : node_map K).

Lemma extends_refl g : extends g g.
Proof. split; [|done]. intros k n Hk. by exists n. Qed.

Lemma extends_trans g1 g2 g3 : extends g1 g2 -> extends g2 g3 -> extends g1 g3.
Proof.
  intros [Hn12 He12] [Hn23 He23]. split; [|auto].
  intros k n Hk. destruct (Hn12 _ _ Hk) as (n2 & Hk2 & Hid2 & Ho2).
  destruct (Hn23 _ _ Hk2) as (n3 & Hk3 & Hid3 & Ho3).
  exists n3. split_and!; [done|congruence|by etrans].
Qed.

Lemma add_node_true g (x : K) g' :
  add_node g x = (true, g') ->
  load_node x g = None /\
  _node_storage g' = map_emplace x (new_node x) (_node_storage g) /\
  _edge_storage g' = _edge_storage g /\ _cache g' = ∅ /\
  _cache_enabled g' = _cache_enabled g /\
  _average_path_len g' = _average_path_len g /\ _contains_cycles g' = false.
Proof.
  unfold add_node. destruct (load_node x g) eqn:Hx; [done|].
  intros [= <-]. by split_and!.
Qed.

Lemma add_node_false g (x : K) g' : add_node g x = (false, g') -> g' = g.
Proof. unfold add_node. destruct (load_node x g); congruence. Qed.

Lemma add_node_extends g (x : K) : extends g (add_node g x).2.
Proof.
  destruct (add_node g x) as [[] g'] eqn:Hadd; simpl.
  - apply add_node_true in Hadd as (Hx & Hn & He & _). split.
    + intros k n Hk. exists n. unfold load_node in *. rewrite Hn.
      rewrite map_find_emplace by done. case_decide; subst; [congruence|done].
    + intros key d. simpl. by rewrite He.
  - apply add_node_false in Hadd as ->. apply extends_refl.
Qed.

Lemma add_edge_extends g (from to : K) d : extends g (add_edge g from to d).2.
Proof.
  destruct (add_edge g from to d) as [[] g'] eqn:Hadd; simpl.
  - apply add_edge_true in Hadd as (_ & _ & Hfree & Hn & He & _). split.
    + intros k n Hk. unfold load_node in *. simpl. rewrite Hn, map_find_update.
      case_decide; subst.
      * rewrite Hk. eexists. split; [done|]. split; [done|]. by apply prefix_app_r.
      * by exists n.
    + intros key d' Hk. simpl. rewrite He, lookup_insert_ne; [done|].
      intros <-. congruence.
  - apply add_edge_false in Hadd as ->. apply extends_refl.
Qed.

Lemma add_nodes_extends ns : forall g, extends g (add_nodes g ns).2.
Proof.
  induction ns as [|x ns IH]; intros g; simpl; [apply extends_refl|].
  pose proof (add_node_extends g x) as Hx.
  destruct (add_node g x) as [[] g']; [|done].
  eapply extends_trans; [exact Hx | apply IH].
Qed.

Lemma add_edges_extends es : forall g, extends g (add_edges g es).2.
Proof.
  induction es as [|e es IH]; intros g; simpl; [apply extends_refl|].
  pose proof (add_edge_extends g (from e) (to e) (data e)) as He.
  destruct (add_edge g (from e) (to e) (data e)) as [[] g']; [|done].
  eapply extends_trans; [exact He | apply IH].
Qed.

(** X10. [build_from] only adds, also when it fails half way: whatever
    the object held before, every node is still stored with its
    identifier and an out list that starts with the old one, and every
    payload of the edge storage is still there unchanged. *)
Theorem build_from_extends g src : extends g (build_from g src).2.
Proof.
  unfold build_from. pose proof (add_nodes_extends (nodes src) g) as Hn.
  destruct (add_nodes g (nodes src)) as [[] g1]; [|done].
  eapply extends_trans; [exact Hn | apply add_edges_extends].
Qed.

(** When [add_nodes] succeeds. *)
Lemma add_nodes_true_iff ns : forall g,
  (add_nodes g ns).1 = true <-> NoDup ns /\ forall x, x ∈ ns -> load_node x g = None.
Proof.
  induction ns as [|x ns IH]; intros g; simpl.
  - split; [intros _; split; [constructor|] | done].
    intros x Hx. by apply elem_of_nil in Hx.
  - destruct (add_node g x) as [[] g'] eqn:Hadd.
    + apply add_node_true in Hadd as (Hx & Hn & _).
      rewrite IH, NoDup_cons.
      assert (forall y, load_node y g' = None <-> y <> x /\ load_node y g = None)
        as Hload.
      { intros y. unfold load_node in *. rewrite Hn, map_find_emplace by done.
        case_decide; subst; [by split; [|intros []]|]. split; [done|by intros []]. }
      split.
      * intros [Hnd Hall]. split_and!; [|done|].
        -- intros Hin. by destruct (proj1 (Hload x) (Hall x Hin)).
        -- intros y Hy. apply elem_of_cons in Hy as [->|Hy]; [done|].
           by apply (Hload y), Hall.
      * intros [[Hnin Hnd] Hall]. split; [done|]. intros y Hy. apply Hload.
        split; [by intros ->|]. apply Hall. by right.
    + simpl. split; [done|]. intros [_ Hall].
      unfold add_node in Hadd. rewrite (Hall x) in Hadd by left. done.
Qed.

Lemma add_nodes_stored ns : forall g y,
  (add_nodes g ns).1 = true ->
  load_node y (add_nodes g ns).2
  = if decide (y ∈ ns) then Some (new_node y) else load_node y g.
Proof.
  induction ns as [|x ns IH]; intros g y; cbn [add_nodes].
  - intros _. rewrite decide_False; [done|apply not_elem_of_nil].
  - destruct (add_node g x) as [[] g'] eqn:Hadd; [|done]. intros Hok.
    pose proof (proj1 (add_nodes_true_iff ns g') Hok) as [_ Hfresh].
    apply add_node_true in Hadd as (Hx & Hn & _).
    rewrite (IH g' y Hok).
    destruct (decide (y ∈ ns)) as [Hin|Hnin].
    + rewrite decide_True; [done|by right].
    + unfold load_node in *. rewrite Hn, map_find_emplace by done.
      destruct (decide (x = y)) as [->|Hne].
      * rewrite decide_True; [done|left].
      * rewrite decide_False; [done|]. rewrite not_elem_of_cons. split; [congruence|done].
Qed.
End Growth.

Section FreshBuild.
Context {K : Type} {HK : NodeId K} {HH : StdHash K} {E : Type}.
Implicit Types (g : graph_c K E) (m : node_map K).

Lemma add_edge_true_iff g (from to : K) d :
  (add_edge g from to d).1 = true
  <-> stored g from /\ stored g to /\ _edge_storage g !! merge_ids from to = None.
Proof.
  unfold add_edge, stored.
  destruct (load_node to g) as [nt|]; [|split; [done|by intros (_ & [] & _)]].
  destruct (load_node from g) as [nf|]; [|split; [done|by intros ([] & _)]].
  destruct (_edge_storage g !! merge_ids from to); simpl.
  - split; [done|by intros (_ & _ & ?)].
  - split; [|done]. intros _. split_and!; by eauto.
Qed.

Lemma add_edges_true_iff es : forall g,
  (add_edges g es).1 = true
  <-> (forall e, e ∈ es -> stored g (from e) /\ stored g (to e)) /\
      NoDup (edge_key <$> es) /\
      (forall e, e ∈ es -> _edge_storage g !! edge_key e = None).
Proof.
  induction es as [|e es IH]; intros g; cbn [add_edges].
  - split; [intros _|done]. split_and!; [|constructor|];
      intros e He; by apply elem_of_nil in He.
  - pose proof (add_edge_true_iff g (from e) (to e) (data e)) as Hiff.
    destruct (add_edge g (from e) (to e) (data e)) as [[] g'] eqn:Hadd; simpl in Hiff.
    + apply add_edge_true in Hadd as (Hf & Ht & Hfree & Hn & He & _).
      assert (forall y, stored g' y <-> stored g y) as Hst.
      { intros y. unfold stored, load_node. rewrite Hn. apply is_Some_find_update. }
      assert (forall k, _edge_storage g' !! k = None
                        <-> k <> edge_key e /\ _edge_storage g !! k = None) as Hed.
      { intros k. rewrite He, lookup_insert_None. unfold edge_key. intuition. }
      rewrite IH, fmap_cons, NoDup_cons. split.
      * intros (Hall & Hnd & Hfr). split_and!; [| |done|].
        -- intros e' He'. apply elem_of_cons in He' as [->|He']; [done|].
           rewrite <- !Hst. by apply Hall.
        -- intros Hin. apply list_elem_of_fmap in Hin as (e' & Heq & He').
           apply Hfr, Hed in He'. by destruct He'.
        -- intros e' He'. apply elem_of_cons in He' as [->|He']; [done|].
           by apply Hfr, Hed in He' as [_ ?].
      * intros (Hall & [Hnin Hnd] & Hfr). split_and!; [|done|].
        -- intros e' He'. rewrite !Hst. apply Hall. by right.
        -- intros e' He'. apply Hed. split; [|apply Hfr; by right].
           intros Heq. apply Hnin. apply list_elem_of_fmap. by exists e'.
    + simpl. split; [done|]. intros (Hall & _ & Hfr).
      destruct (Hall e) as [? ?]; [left|].
      assert (false = true); [|done]. apply Hiff. split_and!; [done|done|].
      apply Hfr. left.
Qed.

Lemma add_nodes_edges ns : forall g,
  _edge_storage (add_nodes g ns).2 = _edge_storage g.
Proof.
  induction ns as [|x ns IH]; intros g; cbn [add_nodes]; [done|].
  destruct (add_node g x) as [[] g'] eqn:Hadd.
  - rewrite IH. by apply add_node_true in Hadd as (_ & _ & -> & _).
  - by apply add_node_false in Hadd as ->.
Qed.

Lemma build_from_new_iff (b : bool) (src : source_s K E) :
  (build_from (new_graph b) src).1 = true
  <-> NoDup (nodes src) /\
      (forall e, e ∈ edges src -> from e ∈ nodes src /\ to e ∈ nodes src) /\
      NoDup (edge_key <$> edges src).
Proof.
  unfold build_from.
  pose proof (add_nodes_true_iff (nodes src) (new_graph (E:=E) b)) as Hns.
  pose proof (add_nodes_stored (nodes src) (new_graph (E:=E) b)) as Hst.
  pose proof (add_nodes_edges (nodes src) (new_graph (E:=E) b)) as Hed.
  destruct (add_nodes (new_graph b) (nodes src)) as [[] g1]; simpl in *.
  - rewrite add_edges_true_iff.
    assert (forall y, stored g1 y <-> y ∈ nodes src) as Hin.
    { intros y. unfold stored. rewrite (Hst y eq_refl).
      case_decide; [split; [done|by eexists] | split; [by intros []|done]]. }
    destruct (proj1 Hns eq_refl) as [Hnd _]. split.
    + intros (Hall & Hkeys & _). split_and!; [done| |done].
      intros e He. rewrite <- !Hin. by apply Hall.
    + intros (_ & Hall & Hkeys). split_and!; [|done|].
      * intros e He. rewrite !Hin. by apply Hall.
      * intros e He. by rewrite Hed.
  - split; [done|]. intros (Hnd & _). apply Hns. split; [done|]. done.
Qed.

Lemma add_nodes_flag ns : forall g,
  _contains_cycles g = false -> _contains_cycles (add_nodes g ns).2 = false.
Proof.
  induction ns as [|x ns IH]; intros g Hg; cbn [add_nodes]; [done|].
  destruct (add_node g x) as [[] g'] eqn:Hadd.
  - apply IH. by apply add_node_true in Hadd as (_ & _ & _ & _ & _ & _ & ?).
  - by apply add_node_false in Hadd as ->.
Qed.

Lemma add_edges_flag es : forall g g',
  add_edges g es = (true, g') -> _contains_cycles g = false ->
  _contains_cycles g' = false.
Proof.
  induction es as [|e es IH]; intros g g'; cbn [add_edges].
  - by intros [= <-].
  - destruct (add_edge g (from e) (to e) (data e)) as [[] g1] eqn:Hadd; [|done].
    intros Hrest _. apply (IH _ _ Hrest).
    by apply add_edge_true in Hadd as (_&_&_&_&_&_&_&_&?).
Qed.

Lemma link_all_find es : forall m (x : K),
  map_find x (link_all (E:=E) m es)
  = (fun n => mk_node_s (id n) (out n ++ targets es x) (marked n))
      <$> map_find x m.
Proof.
  induction es as [|e es IH]; intros m x.
  - unfold link_all, targets. simpl. destruct (map_find x m) as [[]|]; simpl; [|done].
    by rewrite app_nil_r.
  - unfold link_all in *. cbn [fold_left]. rewrite IH, map_find_update.
    unfold targets. rewrite filter_cons.
    destruct (decide (from e = x)) as [<-|Hne].
    + destruct (map_find (from e) m) as [n|]; simpl; [|done].
      by rewrite <- app_assoc.
    + done.
Qed.

Lemma build_from_new_nodes (b : bool) (src : source_s K E) g :
  build_from (new_graph b) src = (true, g) ->
  forall x, load_node x g
            = if decide (x ∈ nodes src)
              then Some (mk_node_s x (targets (edges src) x) false) else None.
Proof.
  intros Hbuild. unfold build_from in Hbuild.
  pose proof (add_nodes_stored (nodes src) (new_graph (E:=E) b)) as Hst.
  destruct (add_nodes (new_graph b) (nodes src)) as [[] g1]; [|done]. simpl in *.
  apply add_edges_true in Hbuild as (Hn & _).
  intros x. unfold load_node at 1. rewrite Hn, link_all_find.
  fold (load_node x g1). rewrite (Hst x eq_refl).
  case_decide; [|done]. done.
Qed.

Lemma build_from_new_edge_in (b : bool) (src : source_s K E) g e :
  build_from (new_graph b) src = (true, g) -> e ∈ edges src ->
  edge_in (_node_storage g) (from e) (to e).
Proof.
  intros Hbuild He.
  pose proof (proj1 (build_from_new_iff b src)) as Hiff.
  rewrite Hbuild in Hiff. destruct (Hiff eq_refl) as (_ & Hends & _).
  destruct (Hends e He) as [Hf _].
  pose proof (build_from_new_nodes b src g Hbuild (from e)) as Hload.
  rewrite decide_True in Hload by done.
  eexists. split; [exact Hload|]. simpl. unfold targets.
  apply list_elem_of_fmap. exists e. split; [done|].
  by apply list_elem_of_filter.
Qed.

(** X11. On a newly constructed graph [build_from] succeeds exactly when
    the node list has no repetition, every edge joins two listed nodes,
    and no two edges of the list have the same merged key. *)
Theorem build_from_fresh_iff (b : bool) (src : source_s K E) :
  (build_from (new_graph b) src).1 = true
  <-> NoDup (nodes src) /\
      (forall e, e ∈ edges src -> from e ∈ nodes src /\ to e ∈ nodes src) /\
      NoDup (edge_key <$> edges src).
Proof. apply build_from_new_iff. Qed.

(** X12. After a successful [build_from] on a newly constructed graph
    the object holds exactly the source: the listed nodes and no other,
    each unmarked with the targets of its edges in the order of the list;
    for each edge its payload under its merged key, which [load_edges]
    returns for the two-node path of the edge; an empty cache and a
    cleared cycle flag. *)
Theorem build_from_fresh_contents (b : bool) (src : source_s K E) g :
  build_from (new_graph b) src = (true, g) ->
  (forall x, load_node x g
             = if decide (x ∈ nodes src)
               then Some (mk_node_s x (targets (edges src) x) false) else None) /\
  (forall e, e ∈ edges src ->
     _edge_storage g !! edge_key e = Some (data e) /\
     load_edges g [from e; to e] = Some (Some [data e])) /\
  _cache g = ∅ /\ _contains_cycles g = false.
Proof.
  intros Hbuild.
  pose proof (proj1 (build_from_new_iff b src)) as Hiff.
  rewrite Hbuild in Hiff. destruct (Hiff eq_refl) as (_ & Hends & _). clear Hiff.
  pose proof (build_from_new_nodes b src g Hbuild) as Hload.
  unfold build_from in Hbuild.
  pose proof (add_nodes_cache (nodes src) (new_graph (E:=E) b) eq_refl) as Hc.
  pose proof (add_nodes_flag (nodes src) (new_graph (E:=E) b) eq_refl) as Hfl.
  destruct (add_nodes (new_graph b) (nodes src)) as [[] g1]; [|done]. simpl in *.
  pose proof (add_edges_flag _ _ _ Hbuild Hfl) as Hfl'.
  apply add_edges_true in Hbuild as (Hn & _ & Hnew & Hc' & _).
  split_and!; [done| |by apply Hc'|done].
  intros e He. split; [by apply Hnew|].
  destruct (Hends e He) as [Hf Ht].
  unfold load_edges. simpl. rewrite !Hload, !decide_True by done. simpl.
  by rewrite (Hnew e He).
Qed.
End FreshBuild.

(** ** Edge payloads, the store and the cache *)

Section Payloads.
Context {K : Type} {HK : NodeId K} {HH : StdHash K} {E : Type}.
Implicit Types (g : graph_c K E) (m : node_map K).

Lemma load_edges_loop_answer g (p : node_list_t K) :
  wf_nodes (_node_storage g) -> (forall x, x ∈ p -> stored g x) ->
  forall res,
    match load_edges_loop g p res with
    | Some (Some es) =>
        exists ds, es = res ++ ds /\ length ds = pred (length p) /\
          forall i a b, p !! i = Some a -> p !! S i = Some b ->
            _edge_storage g !! merge_ids a b = ds !! i
    | Some None =>
        exists i a b, p !! i = Some a /\ p !! S i = Some b /\
                      _edge_storage g !! merge_ids a b = None
    | None => False
    end.
Proof.
  intros [_ Hwf]. induction p as [|a p IH]; intros Hst res.
  - exists []. rewrite app_nil_r. split_and!; [done|done|]. by intros [].
  - destruct p as [|b p].
    { exists []. rewrite app_nil_r. split_and!; [done|done|]. by intros [|[]]. }
    rewrite load_edges_loop_cons.
    destruct (Hst a) as [na Ha]; [left|].
    destruct (Hst b) as [nb Hb]; [right; left|]. rewrite Ha, Hb.
    destruct (Hwf _ _ Ha) as [-> _], (Hwf _ _ Hb) as [-> _].
    destruct (_edge_storage g !! merge_ids a b) as [d|] eqn:Hd.
    + specialize (IH (fun x Hx => Hst x (list_elem_of_further _ _ _ Hx)) (res ++ [d])).
      destruct (load_edges_loop g (b :: p) (res ++ [d])) as [[es|]|]; [| |done].
      * destruct IH as (ds & -> & Hlen & Hds). exists (d :: ds).
        rewrite <- app_assoc. split_and!; [done|simpl in *; lia|].
        intros [|i] a' b' Ha' Hb'; simplify_eq/=; [done|]. by apply Hds.
      * destruct IH as (i & a' & b' & Ha' & Hb' & Hnone).
        by exists (S i), a', b'.
    + by exists 0, a, b.
Qed.

(** X13. On a path of stored node handles, in any state reached through
    the public interface, [load_edges] always answers.  When it returns
    payloads, the path has at least two nodes, there is one payload less
    than nodes, and the [i]-th payload is the one stored under the merged
    key of the [i]-th node and its successor; when it returns nothing, the
    path has fewer than two nodes or some consecutive pair has no payload
    under its key. *)
Theorem load_edges_spec g (p : node_list_t K) :
  reachable g -> (forall x, x ∈ p -> stored g x) ->
  load_edges_answer g p (load_edges g p).
Proof.
  intros Hreach Hst. pose proof (inv_wf _ (reachable_inv g Hreach)) as Hwf.
  unfold load_edges. destruct (Nat.ltb_spec (length p) 2) as [Hlt|Hge].
  { by left. }
  pose proof (load_edges_loop_answer g p Hwf Hst []) as Hloop.
  destruct (load_edges_loop g p []) as [[es|]|]; simpl; [| |done].
  - destruct Hloop as (ds & -> & Hlen & Hds). simpl. split_and!; [done|lia|done].
  - by right.
Qed.

Lemma edges_exact_same_store g g' :
  same_store g g' -> edges_exact g -> edges_exact g'.
Proof.
  intros [Hn He] [Hnd Hconv]. unfold edges_exact, load_node. rewrite Hn, He. done.
Qed.

Lemma reachable_edges_exact g : reachable g -> edges_exact g.
Proof.
  intros Hreach.
  induction Hreach as [b|g x Hr IH|g from to d Hr IH|g Hr IH|g b Hr IH|g Hr IH
                       |g from to r g' Hr IH Htr|g b g' Hr IH Hcc].
  - split; [done|]. intros key d Hk. simpl in Hk. by rewrite lookup_empty in Hk.
  - destruct (add_node g x) as [[] g'] eqn:Hadd; simpl.
    2:{ by apply add_node_false in Hadd as ->. }
    apply add_node_true in Hadd as (Hx & Hn & He & _). destruct IH as [Hnd Hconv].
    unfold edges_exact, load_node, edge_in in *. rewrite Hn, He. split.
    + intros k n. rewrite map_find_emplace by done. case_decide; subst.
      * intros [= <-]. constructor.
      * apply Hnd.
    + intros key d Hk. destruct (Hconv _ _ Hk) as (f & t & (n & Hf & Ht) & Hkey).
      exists f, t. split; [|done]. exists n. rewrite map_find_emplace by done.
      case_decide; subst; [congruence|done].
  - destruct (add_edge g from to d) as [[] g'] eqn:Hadd; simpl.
    2:{ by apply add_edge_false in Hadd as ->. }
    apply add_edge_true in Hadd as ([nf Hf] & _ & Hfree & Hn & He & _).
    destruct IH as [Hnd Hconv]. pose proof (reachable_inv g Hr) as Hinv.
    unfold edges_exact, load_node, edge_in in *. rewrite Hn, He. split.
    + intros k n. rewrite map_find_update. case_decide; subst.
      * rewrite Hf. intros [= <-]. simpl. apply NoDup_app. split_and!.
        -- by eapply Hnd.
        -- intros p Hp Hp'. apply list_elem_of_singleton in Hp' as ->.
           destruct (inv_edges _ Hinv _ _ _ Hf Hp) as [? ?]. congruence.
        -- apply NoDup_singleton.
      * apply Hnd.
    + intros key d'. rewrite lookup_insert. case_decide; subst.
      * intros _. exists from, to. split; [|done]. rewrite map_find_update, decide_True by done.
        rewrite Hf. eexists. split; [done|]. simpl. apply elem_of_app. right. left.
      * intros Hk. destruct (Hconv _ _ Hk) as (f & t & (n & Hf' & Ht) & Hkey).
        exists f, t. split; [|done]. rewrite map_find_update. case_decide; subst.
        -- rewrite Hf'. eexists. split; [done|]. simpl. apply elem_of_app. by left.
        -- by exists n.
  - done.
  - done.
  - unfold optimize_trace.
    by destruct (negb (_cache_enabled g) || (size (_cache g) =? 0)).
  - pose proof (reachable_inv g Hr) as Hinv.
    destruct (trace_cases g from to (inv_wf _ Hinv)) as (r0 & g0 & Heq & Hcase).
    rewrite Htr in Heq. simplify_eq.
    destruct (trace_case_inv _ _ _ _ _ Hinv Hcase) as (_ & Hss & _).
    by eapply edges_exact_same_store.
  - pose proof (reachable_inv g Hr) as Hinv.
    destruct (contains_cycles_spec g Hinv) as (b0 & g0 & Heq & Hss & _).
    rewrite Hcc in Heq. simplify_eq. by eapply edges_exact_same_store.
Qed.

(** X14. In every state reached through the public interface the three
    parts of the store agree: no identifier is stored twice; each node is
    stored under its own identifier; no out list names a node twice; each
    out neighbour is a stored node and a payload is stored under the
    merged key of the edge; and each payload of the edge storage belongs
    to an edge of some out list. *)
Theorem store_consistent g :
  reachable g ->
  NoDup (keys (_node_storage g)) /\
  (forall k n, load_node k g = Some n ->
     id n = k /\ NoDup (out n) /\
     forall p, p ∈ out n ->
       stored g p /\ is_Some (_edge_storage g !! merge_ids k p)) /\
  (forall key d, _edge_storage g !! key = Some d ->
     exists from to, edge_in (_node_storage g) from to /\ merge_ids from to = key).
Proof.
  intros Hreach. pose proof (reachable_inv g Hreach) as Hinv.
  destruct (reachable_edges_exact g Hreach) as [Hnd Hconv].
  destruct (inv_wf _ Hinv) as [Hkeys Hwf]. split_and!; [done| |done].
  intros k n Hk. destruct (Hwf _ _ Hk) as [Hid Hout]. split_and!; [done|by eapply Hnd|].
  intros p Hp. split; [by apply Hout|]. by eapply (inv_edges _ Hinv).
Qed.

(** X15. [add_node] succeeds exactly when the identifier is not stored
    yet.  After a success, looking the identifier up gives a new unmarked
    node without out edges, every other lookup is as before, the map has
    one node more, the edge payloads are as they were and the cache is
    empty. *)
Theorem add_node_lookup g (x : K) :
  ((add_node g x).1 = true <-> load_node x g = None) /\
  ((add_node g x).1 = true ->
   let g' := (add_node g x).2 in
   (forall y, load_node y g'
              = if decide (x = y) then Some (new_node x) else load_node y g) /\
   length (_node_storage g') = S (length (_node_storage g)) /\
   _edge_storage g' = _edge_storage g /\ _cache g' = ∅).
Proof.
  destruct (add_node g x) as [[] g'] eqn:Hadd; simpl.
  - apply add_node_true in Hadd as (Hx & Hn & He & Hc & _).
    split; [done|]. intros _. split_and!; [|by rewrite Hn, length_emplace|done|done].
    intros y. unfold load_node in *. by rewrite Hn, map_find_emplace.
  - split; [|done]. split; [done|]. intros Hx. unfold add_node in Hadd.
    by rewrite Hx in Hadd.
Qed.

(** X16. [optimize_trace] fails exactly when caching is off or the cache
    is empty, and then changes nothing.  In every case it leaves nodes,
    edges, cache, cache switch and cycle flag alone, and the answer of a
    following [trace] is the one [trace] would have given without it: the
    reservation hint has no influence on any result. *)
Theorem optimize_trace_frame g (from to : K) :
  ((optimize_trace g).1 = false <-> _cache_enabled g = false \/ _cache g = ∅) /\
  ((optimize_trace g).1 = false -> (optimize_trace g).2 = g) /\
  same_store g (optimize_trace g).2 /\
  _cache (optimize_trace g).2 = _cache g /\
  _cache_enabled (optimize_trace g).2 = _cache_enabled g /\
  _contains_cycles (optimize_trace g).2 = _contains_cycles g /\
  fst <$> trace (optimize_trace g).2 from to = fst <$> trace g from to.
Proof.
  split; [apply optimize_trace_fails_iff|]. unfold optimize_trace.
  destruct (negb (_cache_enabled g) || (size (_cache g) =? 0)); [done|]. simpl.
  split_and!; try done.
  unfold trace, load_node. cbn [_node_storage _cache_enabled _cache _average_path_len].
  destruct (map_find to (_node_storage g)); [|done].
  destruct (map_find from (_node_storage g)); [|done].
  destruct (_cache_enabled g) eqn:Hen.
  - destruct (_cache g !! merge_ids from to); [done|].
    rewrite (find_reservation _ _ _ _ _ _ (_average_path_len g)).
    destruct (find _ _ _ _ _ _) as [[[[] p] m]|]; [| |done].
    + cbn [negb with_nodes _cache_enabled]. by rewrite Hen.
    + done.
  - destruct (find _ _ _ _ _ _) as [[[[] p] m]|]; [| |done].
    + cbn [negb with_nodes _cache_enabled]. by rewrite Hen.
    + done.
Qed.

(** X17. The cache is never stale.  In every state reached through the
    public interface, each cached path is what the search computes on the
    current store for some stored pair with that merged key: a route
    without repeated nodes, with a payload stored for each of its
    edges. *)
Theorem cache_never_stale g key p :
  reachable g -> _cache g !! key = Some p ->
  exists from to,
    stored g from /\ stored g to /\ merge_ids from to = key /\
    trace_oracle g from to = Some p /\
    walk (_node_storage g) to from p /\ NoDup p /\ path_edges_stored g p.
Proof.
  intros Hreach Hk. pose proof (reachable_inv g Hreach) as Hinv.
  destruct (inv_cache _ Hinv _ _ Hk) as (from & to & Hf & Ht & Hkey & Htr).
  exists from, to.
  assert (trace_oracle g from to = Some p) as Hor.
  { unfold trace_oracle. destruct Hf as [? ->], Ht as [? ->]. by rewrite Htr. }
  pose proof (trace_oracle_route g from to Hinv) as Hans. rewrite Hor in Hans.
  destruct Hans as (Hw & Hnd & _). split_and!; try done.
  destruct (tracer_spec (_node_storage g) from to (inv_wf _ Hinv) Hf)
    as (b & p' & Heq & Hb).
  rewrite Htr in Heq. simplify_eq. by destruct (fpath_edges g from to p' Hinv Hb).
Qed.

(** X18. [trace] never misses a route, whatever the hash function and
    the cache: in every state reached through the public interface, when
    the store holds a route from [from] to [to], [trace from to] returns a
    path. *)
Theorem trace_finds_route g (from to : K) q :
  reachable g -> walk (_node_storage g) to from q ->
  exists p g', trace g from to = Some (Some p, g').
Proof.
  intros Hreach Hq. pose proof (reachable_inv g Hreach) as Hinv.
  destruct (trace_cases g from to (inv_wf _ Hinv)) as (r & g' & Htr & Hcase).
  destruct r as [p|]; [by exists p, g'|].
  apply trace_case_None in Hcase as [_ Hno]. exfalso.
  destruct (walk_fpath _ _ _ _ (inv_unmarked _ Hinv) Hq) as (q' & Hq' & _).
  apply (Hno) with (q := q'); [| |done].
  - destruct Hq' as [(n & ? & _)|? ? ? (n & ? & _)]; by exists n.
  - clear -Hq. induction Hq; [done|auto].
Qed.

(** X19. [contains_cycles] never misses a cycle, whatever the hash
    function and the cache: in every state reached through the public
    interface, when some edge leads to a node from which a route leads
    back, it returns [true]. *)
Theorem contains_cycles_finds_cycle g :
  reachable g -> cyclic (_node_storage g) ->
  exists g', contains_cycles g = Some (true, g').
Proof.
  intros Hreach (k & nb & q & Hedge & Hq).
  pose proof (reachable_inv g Hreach) as Hinv.
  apply has_cycle_contains_cycles; [done|].
  destruct (walk_fpath _ _ _ _ (inv_unmarked _ Hinv) Hq) as (q' & Hq' & _).
  by exists k, nb, q'.
Qed.
End Payloads.

(** ** Which pairs share a key *)

Section KeyBits.
Open Scope Z_scope.

Lemma wrap_shiftl1 x : wrap (Z.shiftl x 1) = 2 * (x mod 2 ^ 63).
Proof.
  unfold wrap, size_t_bits. rewrite Z.shiftl_mul_pow2 by lia.
  change (2 ^ 64) with (2 * 2 ^ 63). change (2 ^ 1) with 2.
  rewrite (Z.mul_comm x 2). by rewrite Zmult_mod_distr_l.
Qed.

Lemma lxor_size_t a b : 0 <= a < 2 ^ 64 -> 0 <= b < 2 ^ 64 -> 0 <= Z.lxor a b < 2 ^ 64.
Proof.
  intros Ha Hb. assert (Z.lxor a b = Z.lxor a b mod 2 ^ 64) as ->.
  { apply Z.bits_inj'. intros n Hn. destruct (Z.ltb_spec n 64).
    - by rewrite Z.mod_pow2_bits_low by lia.
    - rewrite Z.mod_pow2_bits_high by lia.
      by rewrite Z.lxor_spec, !testbit_size_t_high by (done || lia). }
  apply Z.mod_pos_bound. lia.
Qed.

Lemma lxor_cancel_r a b c : Z.lxor a c = Z.lxor b c <-> a = b.
Proof.
  split; [|by intros ->]. intros Heq.
  apply (f_equal (fun z => Z.lxor z c)) in Heq.
  by rewrite !Z.lxor_assoc, Z.lxor_nilpotent, !Z.lxor_0_r in Heq.
Qed.

Lemma lxor_cancel_l a b c : Z.lxor c a = Z.lxor c b <-> a = b.
Proof. rewrite !(Z.lxor_comm c). apply lxor_cancel_r. Qed.
End KeyBits.

Section Keys.
Context {K : Type} {HK : NodeId K} {HH : StdHash K} {E : Type}.
Implicit Types (g : graph_c K E) (m : node_map K).
Open Scope Z_scope.

(** X20. Which pairs share a merged key.  The key fits a [std::size_t].
    A pair and its reverse have the same key exactly when the two hashes
    are equal; two pairs with the same target, exactly when the hashes of
    the sources are equal; two pairs with the same source, exactly when
    the hashes of the targets agree on their low 63 bits: the shift drops
    the top bit of the target's hash. *)
Theorem merge_ids_collisions (A B C : K) :
  0 <= merge_ids A B < 2 ^ 64 /\
  (merge_ids A B = merge_ids B A <-> std_hash A = std_hash B) /\
  (merge_ids A C = merge_ids B C <-> std_hash A = std_hash B) /\
  (merge_ids C A = merge_ids C B
   <-> std_hash A mod 2 ^ 63 = std_hash B mod 2 ^ 63).
Proof.
  unfold merge_ids. split; [|split; [|split]].
  - apply lxor_size_t; [apply std_hash_range|].
    unfold wrap, size_t_bits. apply Z.mod_pos_bound. lia.
  - split; [|by intros ->].
    apply xor_shift_injective; apply std_hash_range.
  - apply lxor_cancel_r.
  - rewrite lxor_cancel_l, !wrap_shiftl1. lia.
Qed.
End Keys.

Section EdgeKeys.
Context {K : Type} {HK : NodeId K} {HH : StdHash K} {E : Type}.
Implicit Types (g : graph_c K E) (m : node_map K).

(** X21. In every state reached through the public interface,
    [add_edge from to] succeeds exactly when both nodes are stored and no
    edge of the graph has the merged key of the pair; so the edge itself,
    when already there, is refused, and so is a new edge whose key
    another edge has. *)
Theorem add_edge_succeeds_iff g (from to : K) d :
  reachable g ->
  ((add_edge g from to d).1 = true <->
   stored g from /\ stored g to /\
   forall f t, edge_in (_node_storage g) f t ->
     merge_ids f t <> merge_ids from to).
Proof.
  intros Hreach. pose proof (reachable_inv g Hreach) as Hinv.
  destruct (reachable_edges_exact g Hreach) as [_ Hconv].
  rewrite add_edge_true_iff. split.
  - intros (Hf & Ht & Hfree). split_and!; [done|done|].
    intros f t (n & Hn & Hin) Heq.
    destruct (inv_edges _ Hinv _ _ _ Hn Hin) as [d' Hd']. congruence.
  - intros (Hf & Ht & Hno). split_and!; [done|done|].
    destruct (_edge_storage g !! merge_ids from to) as [d'|] eqn:Hd'; [|done].
    destruct (Hconv _ _ Hd') as (f & t & Hedge & Hkey). by destruct (Hno f t).
Qed.
End EdgeKeys.

Section FindShortest.
Context {K : Type} {HK : NodeId K}.
Implicit Types (m : node_map K).

(** X22. The search itself, on any well-formed node map, also one with
    marked nodes, from a stored node with more fuel than unmarked nodes:
    [find] returns, hands the map back with every marker as it was, and
    reports success exactly when an unmarked simple path leads to the
    target; the nodes it appends are then such a path, of least size among
    those a [std::size_t] below [SIZE_MAX] can measure; on failure it
    appends nothing. *)
Theorem find_shortest fuel m (from to : K) path r :
  wf_nodes m -> is_Some (map_find from m) -> unmarked_count m < fuel ->
  exists b p, find fuel m from to path r = Some (b, path ++ p, m) /\
    if b then
      fpath m to from p /\
      forall q, fpath m to from q -> (Z.of_nat (length q) < size_t_max)%Z ->
        length p <= length q
    else p = [] /\ forall q, ~ fpath m to from q.
Proof.
  intros Hwf Hfrom Hfuel.
  destruct (find_spec fuel m from to path r Hwf Hfrom Hfuel) as (b & p & Heq & Hb).
  exists b, p. split; [done|]. destruct b; [|done]. split; [done|].
  intros q Hq Hsmall.
  by apply (find_least_spec fuel m from to path r Hwf Hfrom Hfuel p m Heq q).
Qed.
End FindShortest.

(** ** Edge keys and self edges *)

Section SelfEdges.
Context {K : Type} {HK : NodeId K} {HH : StdHash K} {E : Type}.
Implicit Types (g : graph_c K E) (m : node_map K).

Lemma edge_in_emplace m (x f t : K) :
  map_find x m = None ->
  edge_in (map_emplace x (new_node x) m) f t <-> edge_in m f t.
Proof.
  intros Hx. unfold edge_in. split; intros (n & Hn & Hin).
  - rewrite map_find_emplace in Hn by done. case_decide; subst.
    + injection Hn as <-. by apply elem_of_nil in Hin.
    + by exists n.
  - exists n. rewrite map_find_emplace by done.
    case_decide; subst; [congruence|done].
Qed.

Lemma edge_in_push_out m (from to f t : K) :
  is_Some (map_find from m) ->
  edge_in (map_update from (push_out to) m) f t
  <-> edge_in m f t \/ (f = from /\ t = to).
Proof.
  intros [nf Hf]. unfold edge_in. split.
  - intros (n & Hn & Hin). rewrite map_find_update in Hn. case_decide; subst.
    + rewrite Hf in Hn. injection Hn as <-. simpl in Hin.
      apply elem_of_app in Hin as [Hin|Hin]; [left; by exists nf|].
      apply list_elem_of_singleton in Hin as ->. by right.
    + left. by exists n.
  - intros [(n & Hn & Hin)|[-> ->]].
    + rewrite map_find_update. case_decide; subst.
      * rewrite Hn. eexists. split; [done|]. simpl. apply elem_of_app. by left.
      * by exists n.
    + rewrite map_find_update, decide_True, Hf by done.
      eexists. split; [done|]. simpl. apply elem_of_app. right. left.
Qed.

(** No two edges of the graph share a merged key: [add_edge] refuses the
    second one. *)
Lemma reachable_edge_keys g :
  reachable g ->
  forall f t f' t', edge_in (_node_storage g) f t ->
    edge_in (_node_storage g) f' t' ->
    merge_ids f t = merge_ids f' t' -> f = f' /\ t = t'.
Proof.
  induction 1 as [b|g x Hr IH|g from to d Hr IH|g Hr IH|g b Hr IH|g Hr IH
                  |g from to r g' Hr IH Htr|g b g' Hr IH Hcc].
  - intros f t f' t' (n & Hn & _). done.
  - destruct (add_node g x) as [[] g'] eqn:Hadd; simpl.
    2:{ by apply add_node_false in Hadd as ->. }
    apply add_node_true in Hadd as (Hx & Hn & _). rewrite Hn.
    intros f t f' t'. rewrite !edge_in_emplace by done. apply IH.
  - destruct (add_edge g from to d) as [[] g'] eqn:Hadd; simpl.
    2:{ by apply add_edge_false in Hadd as ->. }
    apply add_edge_true in Hadd as (Hf & _ & Hfree & Hn & _). rewrite Hn.
    pose proof (reachable_inv g Hr) as Hinv.
    assert (forall a b, edge_in (_node_storage g) a b ->
                        merge_ids a b <> merge_ids from to) as Hold.
    { intros a b (n & Hn' & Hin) Heq.
      destruct (inv_edges _ Hinv _ _ _ Hn' Hin) as [? ?]. congruence. }
    intros f t f' t'. rewrite !edge_in_push_out by done.
    intros [He|[-> ->]] [He'|[-> ->]] Heq.
    + by apply IH.
    + by destruct (Hold _ _ He).
    + by destruct (Hold _ _ He').
    + done.
  - done.
  - done.
  - unfold optimize_trace.
    by destruct (negb (_cache_enabled g) || (size (_cache g) =? 0)).
  - pose proof (reachable_inv g Hr) as Hinv.
    destruct (trace_cases g from to (inv_wf _ Hinv)) as (r0 & g0 & Heq & Hcase).
    rewrite Htr in Heq. simplify_eq.
    destruct (trace_case_inv _ _ _ _ _ Hinv Hcase) as (_ & [Hn _] & _).
    intros f t f' t'. rewrite Hn. apply IH.
  - pose proof (reachable_inv g Hr) as Hinv.
    destruct (contains_cycles_spec g Hinv) as (b0 & g0 & Heq & [Hn _] & _).
    rewrite Hcc in Heq. simplify_eq. intros f t f' t'. rewrite Hn. apply IH.
Qed.

(** X23. In every state reached through the public interface, no two
    edges of the graph have the same merged key, whatever the hash
    function: each payload of the edge storage belongs to one edge
    only. *)
Theorem edge_keys_distinct g (f t f' t' : K) :
  reachable g ->
  edge_in (_node_storage g) f t -> edge_in (_node_storage g) f' t' ->
  merge_ids f t = merge_ids f' t' -> f = f' /\ t = t'.
Proof. intros Hreach. by apply reachable_edge_keys. Qed.

(** A path returned by [trace] in a reachable state: a simple path of the
    store between two stored nodes that have the key of the query. *)
Lemma trace_result_path g (from to : K) p g' :
  reachable g -> trace g from to = Some (Some p, g') ->
  reachable g' /\ same_store g g' /\
  exists f t, merge_ids from to = merge_ids f t /\
              fpath (_node_storage g) t f p.
Proof.
  intros Hreach Htr. pose proof (reachable_inv g Hreach) as Hinv.
  split; [by eapply reach_trace|].
  destruct (trace_cases g from to (inv_wf _ Hinv)) as (r0 & g0 & Heq & Hcase).
  rewrite Htr in Heq. simplify_eq.
  destruct (trace_case_inv _ _ _ _ _ Hinv Hcase) as (_ & Hss & _).
  split; [done|].
  destruct (trace_case_Some _ _ _ _ _ Hinv Hcase) as (f & t & _ & _ & Hk & _ & Hp).
  by exists f, t.
Qed.

Lemma load_edges_loop_length g (p : node_list_t K) : forall res es,
  load_edges_loop g p res = Some (Some es) ->
  length es = length res + pred (length p).
Proof.
  induction p as [|a p IH]; intros res es.
  - intros [= <-]. simpl. lia.
  - destruct p as [|b p]; [intros [= <-]; simpl; lia|].
    rewrite load_edges_loop_cons.
    destruct (load_node a g), (load_node b g); try done.
    destruct (_edge_storage g !! _); [|done].
    intros Hl. apply IH in Hl. rewrite length_app in Hl. simpl in *. lia.
Qed.

Lemma load_edges_length g (p : node_list_t K) es :
  load_edges g p = Some (Some es) -> S (length es) = length p.
Proof.
  unfold load_edges. destruct (Nat.ltb_spec (length p) 2); [done|].
  intros Hl. apply load_edges_loop_length in Hl. simpl in Hl. lia.
Qed.

(** X24. The payload of a self edge cannot be fetched through [trace]:
    in every state reached through the public interface, for a node [x]
    with an edge to itself, [load_edges] on a path returned by [trace x x]
    never returns exactly one payload, whatever the hash function and the
    cache hold. *)
Theorem self_edge_never_loaded g (x : K) p g' es :
  reachable g -> edge_in (_node_storage g) x x ->
  trace g x x = Some (Some p, g') ->
  load_edges g' p = Some (Some es) -> length es <> 1.
Proof.
  intros Hreach Hself Htr Hload Hlen.
  destruct (trace_result_path _ _ _ _ _ Hreach Htr)
    as (_ & _ & f & t & Hkey & Hp).
  apply load_edges_length in Hload.
  destruct (fpath_keys _ _ _ _ Hp) as [Hnd _].
  destruct Hp as [|f nb p Hu Hne He Hp Hnin]; [simpl in Hload; lia|].
  destruct Hp as [|nb nb' p Hu' Hne' He' Hp Hnin'].
  - destruct (reachable_edge_keys g Hreach x x f t Hself He Hkey) as [-> ->].
    done.
  - destruct Hp; simpl in Hload; lia.
Qed.
End SelfEdges.

(** ** The test program *)

Section TestProgramFacts.
Context {HH : StdHash string}.
Implicit Types (g : graph_c string string).

Lemma edges_match_total (expected edges : list string) :
  length edges = length expected ->
  exists ok, TestProgram.edges_match expected edges = Some ok.
Proof.
  revert edges. induction expected as [|x expected IH]; intros [|y edges] Hlen;
    simplify_eq/=; [by eexists|].
  destruct (negb (x =? y)%string); [by eexists|]. by apply IH.
Qed.

Lemma trace_result_stored g (from to : string) p g' :
  reachable g -> trace g from to = Some (Some p, g') ->
  forall x, x ∈ p -> stored g' x.
Proof.
  intros Hreach Htr x Hx.
  destruct (trace_result_path _ _ _ _ _ Hreach Htr)
    as (_ & [Hn _] & f & t & _ & Hp).
  destruct (fpath_edges g f t p (reachable_inv g Hreach) Hp) as (_ & Hst & _).
  unfold stored, load_node. rewrite Hn. by apply Hst.
Qed.

Lemma load_edges_returns g (p : list string) :
  reachable g -> (forall x, x ∈ p -> stored g x) ->
  exists r, load_edges g p = Some r.
Proof.
  intros Hreach Hst. unfold load_edges.
  destruct (length p <? 2)%nat; [by eexists|].
  pose proof (load_edges_loop_answer g p
                (inv_wf _ (reachable_inv g Hreach)) Hst []) as Hloop.
  destruct (load_edges_loop g p []) as [r|]; [by eexists|done].
Qed.

Lemma check_path_total g path :
  reachable g ->
  exists ok g', TestProgram.check_path g path = Some (ok, g') /\ reachable g'.
Proof.
  intros Hreach. unfold TestProgram.check_path.
  destruct (trace_cases g (TestProgram.from path) (TestProgram.to path)
              (inv_wf _ (reachable_inv g Hreach))) as (r & g1 & Htr & _).
  rewrite Htr.
  assert (reachable g1) as Hreach1 by by eapply reach_trace.
  destruct (negb (TestProgram.possible path)).
  { destruct r; by eexists _, _. }
  destruct r as [p|]; [|by eexists _, _].
  destruct (_ && _); [by eexists _, _|].
  destruct (_ && _); [by eexists _, _|].
  destruct (load_edges_returns g1 p Hreach1) as [[es|] ->];
    [exact (trace_result_stored _ _ _ _ _ Hreach Htr)| |by eexists _, _].
  destruct (Nat.eqb_spec (length es) (length (TestProgram.expected_path path)))
    as [Hlen|Hlen]; simpl; [|by eexists _, _].
  destruct (edges_match_total _ _ Hlen) as [ok ->]. by eexists _, _.
Qed.

Lemma check_paths_total ps : forall g,
  reachable g ->
  exists ok g', TestProgram.check_paths g ps = Some (ok, g') /\ reachable g'.
Proof.
  induction ps as [|path ps IH]; intros g Hreach; simpl; [by eexists _, _|].
  destruct (check_path_total g path Hreach) as ([] & g1 & -> & Hreach1).
  - by apply IH.
  - by eexists _, _.
Qed.

Lemma check_rounds_total g ps :
  reachable g -> exists ok, TestProgram.check_rounds g ps = Some ok.
Proof.
  intros Hreach. unfold TestProgram.check_rounds.
  destruct (check_paths_total ps g Hreach) as ([] & g1 & -> & Hreach1);
    [|by eexists].
  pose proof (reach_optimize_trace g1 Hreach1) as Hreach2.
  destruct (optimize_trace g1) as [[] g2]; simpl in *; [|by eexists].
  destruct (check_paths_total ps g2 Hreach2) as (ok & g3 & -> & _). by eexists.
Qed.

(** Each of the graph tests runs to its end. *)
Lemma graph_test_total graph_data :
  exists ok, TestProgram.graph_test graph_data = Some ok.
Proof.
  unfold TestProgram.graph_test.
  pose proof (build_from_reachable default_graph (TestProgram.data graph_data)
                (reach_new true)) as Hreach.
  destruct (build_from default_graph (TestProgram.data graph_data))
    as [[] g]; simpl in *; [|by eexists].
  destruct (contains_cycles_spec g (reachable_inv g Hreach))
    as (b & g1 & Hcc & _).
  rewrite Hcc. cbv beta iota. destruct (negb (eqb _ b)); [by eexists|].
  apply check_rounds_total. by eapply reach_contains_cycles.
Qed.

(** A query for a node with a self edge, expected to cross one edge,
    never passes. *)
Lemma check_path_self_edge g (x : string) path ok g' :
  reachable g -> edge_in (_node_storage g) x x ->
  TestProgram.from path = x -> TestProgram.to path = x ->
  TestProgram.possible path = true ->
  length (TestProgram.expected_path path) = 1 ->
  TestProgram.check_path g path = Some (ok, g') -> ok = false.
Proof.
  intros Hreach Hself Hfrom Hto Hposs Hexp. unfold TestProgram.check_path.
  rewrite Hfrom, Hto, Hposs, Hexp. simpl negb.
  destruct (trace g x x) as [[r g1]|] eqn:Htr; [|done].
  destruct r as [p|]; [|by intros [= <- _]]. cbv iota.
  destruct (_ && _); [by intros [= <- _]|].
  rewrite String.eqb_refl, andb_false_r.
  destruct (load_edges g1 p) as [[es|]|] eqn:Hload; [| |done];
    [|by intros [= <- _]].
  destruct (Nat.eqb_spec (length es) 1) as [Hlen|Hlen]; simpl;
    [|by intros [= <- _]].
  exfalso. revert Hlen.
  destruct (trace_result_path _ _ _ _ _ Hreach Htr)
    as (_ & _ & f & t & Hkey & Hp).
  apply load_edges_length in Hload. intros Hlen.
  destruct Hp as [|f nb p Hu Hne He Hp Hnin]; [simpl in Hload; lia|].
  destruct Hp as [|nb nb' p Hu' Hne' He' Hp Hnin'].
  - by destruct (reachable_edge_keys g Hreach x x f t Hself He Hkey) as [-> ->].
  - destruct Hp; simpl in Hload; lia.
Qed.

(** A graph test whose first query is such a query never passes. *)
Lemma graph_test_self_edge graph_data (x d : string) path rest :
  mk_edge_s x x d ∈ edges (TestProgram.data graph_data) ->
  TestProgram.paths graph_data = path :: rest ->
  TestProgram.from path = x -> TestProgram.to path = x ->
  TestProgram.possible path = true ->
  length (TestProgram.expected_path path) = 1 ->
  TestProgram.graph_test graph_data = Some false.
Proof.
  intros Hedge Hpaths Hfrom Hto Hposs Hexp.
  destruct (graph_test_total graph_data) as [[] Hok]; [|done].
  exfalso. revert Hok. unfold TestProgram.graph_test.
  pose proof (build_from_reachable default_graph (TestProgram.data graph_data)
                (reach_new true)) as Hreach.
  destruct (build_from default_graph (TestProgram.data graph_data))
    as [[] g] eqn:Hbuild; simpl in Hreach; [|done].
  pose proof (build_from_new_edge_in true _ g _ Hbuild Hedge) as Hself.
  cbn [from to] in Hself.
  simpl negb. cbv iota.
  destruct (contains_cycles_spec g (reachable_inv g Hreach))
    as (b & g1 & Hcc & [Hn _] & _).
  rewrite Hcc. cbv iota.
  assert (reachable g1) as Hreach1 by by eapply reach_contains_cycles.
  destruct (TestProgram.CHECK_CYCLES && _); [done|].
  unfold TestProgram.check_rounds. rewrite Hpaths.
  cbn [TestProgram.check_paths].
  destruct (check_path_total g1 path Hreach1) as (ok & g2 & Hcp & _).
  rewrite Hcp.
  assert (ok = false) as ->; [|done].
  apply (check_path_self_edge g1 x path ok g2 Hreach1); try done.
  by rewrite Hn.
Qed.

(** X25. The test program reports failure, whatever the hash of strings
    is: the second and the third graph of [test.cpp] expect the query from
    B to B to cross the self edge of B, so their tests return [false];
    the first graph's test runs to its end, [graph_tests] returns [false]
    and [main] exits with status 1. *)
Theorem graph_tests_fails :
  TestProgram.graph_test TestProgram.graph_two = Some false /\
  TestProgram.graph_test TestProgram.graph_three = Some false /\
  TestProgram.graph_tests = Some false /\
  TestProgram.main = Some 1%Z.
Proof.
  assert (TestProgram.graph_test TestProgram.graph_two = Some false) as Htwo.
  { apply (graph_test_self_edge TestProgram.graph_two "B" "B->B" _ _
             ltac:(right; left) eq_refl); done. }
  assert (TestProgram.graph_test TestProgram.graph_three = Some false)
    as Hthree.
  { apply (graph_test_self_edge TestProgram.graph_three "B" "B->B" _ _
             ltac:(right; left) eq_refl); done. }
  assert (TestProgram.graph_tests = Some false) as Hfail.
  { unfold TestProgram.graph_tests. cbn [TestProgram.graph_tests_loop].
    destruct (graph_test_total TestProgram.graph_one) as [[] ->]; [|done].
    by rewrite Htwo. }
  split_and!; [done|done|done|].
  unfold TestProgram.main, TestProgram.TEST_ITERATIONS.
  cbn [TestProgram.main_loop]. by rewrite Hfail.
Qed.
End TestProgramFacts.

(** ** Concrete states for the further properties *)

Lemma arrow_collision_free : collision_free arrow.
Proof. apply collision_freeb_spec. by vm_compute. Qed.

Lemma two_cycle_walk : walk (_node_storage two_cycle) 1%Z 0%Z [0; 1]%Z.
Proof.
  apply walk_step with (nb := 1%Z); [|apply walk_here; by eexists].
  eexists. split; [by vm_compute|]. left.
Qed.

Lemma two_cycle_walk_round :
  walk (_node_storage two_cycle) 1%Z 0%Z [0; 1; 0; 1]%Z.
Proof.
  apply walk_step with (nb := 1%Z); [eexists; split; [by vm_compute|left]|].
  apply walk_step with (nb := 0%Z); [eexists; split; [by vm_compute|left]|].
  exact two_cycle_walk.
Qed.

Lemma two_cycle_traced_stored x : x ∈ [0; 1]%Z -> stored two_cycle_traced x.
Proof.
  intros Hx. apply elem_of_cons in Hx as [->|Hx]; [by eexists|].
  apply list_elem_of_singleton in Hx as ->. by eexists.
Qed.

Lemma trace_route_witness :
  reachable two_cycle /\ collision_free two_cycle /\
  trace two_cycle 0%Z 1%Z = Some (Some [0; 1]%Z, two_cycle_traced) /\
  walk (_node_storage two_cycle) 1%Z 0%Z [0; 1]%Z /\ NoDup [0; 1]%Z.
Proof.
  assert (trace two_cycle 0%Z 1%Z = Some (Some [0; 1]%Z, two_cycle_traced))
    as Htr by (by vm_compute).
  split; [apply int_graph_reachable|]. split; [exact two_cycle_collision_free|].
  split; [exact Htr|].
  exact (trace_route two_cycle 0%Z 1%Z [0; 1]%Z two_cycle_traced
           (int_graph_reachable _ _) two_cycle_collision_free Htr).
Defined.

Lemma trace_shortest_witness :
  reachable two_cycle /\ collision_free two_cycle /\
  trace two_cycle 0%Z 1%Z = Some (Some [0; 1]%Z, two_cycle_traced) /\
  walk (_node_storage two_cycle) 1%Z 0%Z [0; 1; 0; 1]%Z /\
  (Z.of_nat (length [0; 1; 0; 1]%Z) < size_t_max)%Z /\
  length [0; 1]%Z <= length [0; 1; 0; 1]%Z.
Proof.
  assert (trace two_cycle 0%Z 1%Z = Some (Some [0; 1]%Z, two_cycle_traced))
    as Htr by (by vm_compute).
  assert (Z.of_nat (length [0; 1; 0; 1]%Z) < size_t_max)%Z as Hsmall
    by (by vm_compute).
  split; [apply int_graph_reachable|]. split; [exact two_cycle_collision_free|].
  split; [exact Htr|]. split; [exact two_cycle_walk_round|]. split; [exact Hsmall|].
  exact (trace_shortest two_cycle 0%Z 1%Z [0; 1]%Z two_cycle_traced [0; 1; 0; 1]%Z
           (int_graph_reachable _ _) two_cycle_collision_free Htr
           two_cycle_walk_round Hsmall).
Defined.

Lemma trace_none_iff_witness :
  reachable arrow /\ collision_free arrow /\
  trace arrow 1%Z 0%Z = Some (None, arrow) /\
  (@None (node_list_t Z) = None
   <-> forall q, ~ walk (_node_storage arrow) 0%Z 1%Z q).
Proof.
  assert (trace arrow 1%Z 0%Z = Some (None, arrow)) as Htr
    by (by vm_compute).
  split; [apply int_graph_reachable|]. split; [exact arrow_collision_free|].
  split; [exact Htr|].
  exact (trace_none_iff arrow 1%Z 0%Z None arrow
           (int_graph_reachable _ _) arrow_collision_free Htr).
Defined.

Lemma trace_without_cache_witness :
  reachable two_cycle /\ _cache two_cycle = ∅ /\
  trace two_cycle 0%Z 1%Z = Some (Some [0; 1]%Z, two_cycle_traced) /\
  route_answer (_node_storage two_cycle) 0%Z 1%Z (Some [0; 1]%Z).
Proof.
  assert (trace two_cycle 0%Z 1%Z = Some (Some [0; 1]%Z, two_cycle_traced))
    as Htr by (by vm_compute).
  assert (_cache two_cycle = ∅) as Hempty by (by vm_compute).
  split; [apply int_graph_reachable|]. split; [exact Hempty|]. split; [exact Htr|].
  exact (trace_without_cache two_cycle 0%Z 1%Z (Some [0; 1]%Z) two_cycle_traced
           (int_graph_reachable _ _) (or_intror Hempty) Htr).
Defined.

Lemma trace_twice_witness :
  reachable two_cycle /\
  trace two_cycle 0%Z 1%Z = Some (Some [0; 1]%Z, two_cycle_traced) /\
  trace two_cycle_traced 0%Z 1%Z = Some (Some [0; 1]%Z, two_cycle_traced).
Proof.
  assert (trace two_cycle 0%Z 1%Z = Some (Some [0; 1]%Z, two_cycle_traced))
    as Htr by (by vm_compute).
  split; [apply int_graph_reachable|]. split; [exact Htr|].
  exact (trace_twice two_cycle 0%Z 1%Z (Some [0; 1]%Z) two_cycle_traced
           (int_graph_reachable _ _) Htr).
Defined.

Lemma trace_leaves_object_witness :
  reachable one_edge /\ trace one_edge 1%Z 0%Z = Some (None, one_edge) /\
  one_edge = one_edge.
Proof.
  assert (trace one_edge 1%Z 0%Z = Some (None, one_edge)) as Htr
    by (by vm_compute).
  split; [apply int_graph_reachable|]. split; [exact Htr|].
  exact (trace_leaves_object one_edge 1%Z 0%Z None one_edge
           (int_graph_reachable _ _) Htr (or_introl eq_refl)).
Defined.

Lemma trace_caches_success_witness :
  reachable two_cycle /\ _cache_enabled two_cycle = true /\
  trace two_cycle 0%Z 1%Z = Some (Some [0; 1]%Z, two_cycle_traced) /\
  _cache two_cycle_traced !! merge_ids 0%Z 1%Z = Some [0; 1]%Z /\
  forall key, key <> merge_ids 0%Z 1%Z ->
    _cache two_cycle_traced !! key = _cache two_cycle !! key.
Proof.
  assert (trace two_cycle 0%Z 1%Z = Some (Some [0; 1]%Z, two_cycle_traced))
    as Htr by (by vm_compute).
  assert (_cache_enabled two_cycle = true) as Hen by (by vm_compute).
  split; [apply int_graph_reachable|]. split; [exact Hen|]. split; [exact Htr|].
  exact (trace_caches_success two_cycle 0%Z 1%Z [0; 1]%Z two_cycle_traced
           (int_graph_reachable _ _) Hen Htr).
Defined.

Lemma contains_cycles_iff_witness :
  reachable two_cycle /\ collision_free two_cycle /\
  contains_cycles two_cycle = Some (true, after_contains_cycles two_cycle) /\
  (true = true <-> cyclic (_node_storage two_cycle)) /\
  (true = false -> after_contains_cycles two_cycle = two_cycle) /\
  (true = true ->
   contains_cycles (after_contains_cycles two_cycle)
   = Some (true, after_contains_cycles two_cycle)).
Proof.
  assert (contains_cycles two_cycle
          = Some (true, after_contains_cycles two_cycle)) as Hcc
    by (by vm_compute).
  split; [apply int_graph_reachable|]. split; [exact two_cycle_collision_free|].
  split; [exact Hcc|].
  exact (contains_cycles_iff two_cycle true (after_contains_cycles two_cycle)
           (int_graph_reachable _ _) two_cycle_collision_free Hcc).
Defined.

Lemma add_edge_then_trace_witness :
  reachable one_edge /\
  add_edge one_edge 1%Z 2%Z "1->2"
    = (true, (add_edge one_edge 1%Z 2%Z "1->2").2) /\
  1%Z <> 2%Z /\
  exists g'',
    trace (add_edge one_edge 1%Z 2%Z "1->2").2 1%Z 2%Z
      = Some (Some [1; 2]%Z, g'') /\
    load_edges g'' [1; 2]%Z = Some (Some ["1->2"]).
Proof.
  assert (add_edge one_edge 1%Z 2%Z "1->2"
          = (true, (add_edge one_edge 1%Z 2%Z "1->2").2)) as Hadd
    by (by vm_compute).
  assert (1%Z <> 2%Z) as Hne by lia.
  split; [apply int_graph_reachable|]. split; [exact Hadd|]. split; [exact Hne|].
  exact (add_edge_then_trace one_edge 1%Z 2%Z "1->2" _
           (int_graph_reachable _ _) Hadd Hne).
Defined.

Lemma build_from_fresh_contents_witness :
  build_from (new_graph true)
    (mk_source_s [0; 1]%Z [mk_edge_s 0 1 "0->1"; mk_edge_s 1 0 "1->0"]%Z)
  = (true, two_cycle) /\
  load_node 0%Z two_cycle = Some (mk_node_s 0%Z [1%Z] false) /\
  load_edges two_cycle [0; 1]%Z = Some (Some ["0->1"]) /\
  _cache two_cycle = ∅ /\ _contains_cycles two_cycle = false.
Proof.
  assert (build_from (new_graph true)
            (mk_source_s [0; 1]%Z
               [mk_edge_s 0 1 "0->1"; mk_edge_s 1 0 "1->0"]%Z)
          = (true, two_cycle)) as Hb by (by vm_compute).
  destruct (build_from_fresh_contents true _ two_cycle Hb)
    as (Hnodes & Hedges & Hcache & Hflag).
  split; [exact Hb|]. split; [exact (Hnodes 0%Z)|].
  split; [|split; [exact Hcache|exact Hflag]].
  destruct (Hedges (mk_edge_s 0%Z 1%Z "0->1")) as [_ Hload]; [left|exact Hload].
Defined.

Lemma load_edges_spec_witness :
  reachable two_cycle_traced /\
  (forall x, x ∈ [0; 1]%Z -> stored two_cycle_traced x) /\
  load_edges_answer two_cycle_traced [0; 1]%Z
    (load_edges two_cycle_traced [0; 1]%Z).
Proof.
  split; [exact two_cycle_traced_reachable|].
  split; [exact two_cycle_traced_stored|].
  exact (load_edges_spec two_cycle_traced [0; 1]%Z two_cycle_traced_reachable
           two_cycle_traced_stored).
Defined.

Lemma store_consistent_witness :
  reachable two_cycle_traced /\
  NoDup (keys (_node_storage two_cycle_traced)) /\
  forall key d, _edge_storage two_cycle_traced !! key = Some d ->
    exists from to, edge_in (_node_storage two_cycle_traced) from to /\
                    merge_ids from to = key.
Proof.
  split; [exact two_cycle_traced_reachable|].
  destruct (store_consistent two_cycle_traced two_cycle_traced_reachable)
    as (Hkeys & _ & Hconv).
  split; [exact Hkeys|exact Hconv].
Defined.

Lemma cache_never_stale_witness :
  reachable two_cycle_traced /\
  _cache two_cycle_traced !! 2%Z = Some [0; 1]%Z /\
  exists from to,
    stored two_cycle_traced from /\ stored two_cycle_traced to /\
    merge_ids from to = 2%Z /\
    trace_oracle two_cycle_traced from to = Some [0; 1]%Z /\
    walk (_node_storage two_cycle_traced) to from [0; 1]%Z /\
    NoDup [0; 1]%Z /\ path_edges_stored two_cycle_traced [0; 1]%Z.
Proof.
  assert (_cache two_cycle_traced !! 2%Z = Some [0; 1]%Z) as Hhit
    by (by vm_compute).
  split; [exact two_cycle_traced_reachable|]. split; [exact Hhit|].
  exact (cache_never_stale two_cycle_traced 2%Z [0; 1]%Z
           two_cycle_traced_reachable Hhit).
Defined.

Lemma trace_finds_route_witness :
  reachable two_cycle /\
  walk (_node_storage two_cycle) 1%Z 0%Z [0; 1; 0; 1]%Z /\
  exists p g', trace two_cycle 0%Z 1%Z = Some (Some p, g').
Proof.
  split; [apply int_graph_reachable|]. split; [exact two_cycle_walk_round|].
  exact (trace_finds_route two_cycle 0%Z 1%Z [0; 1; 0; 1]%Z
           (int_graph_reachable _ _) two_cycle_walk_round).
Defined.

Lemma two_cycle_cyclic : cyclic (_node_storage two_cycle).
Proof.
  exists 1%Z, 0%Z, [0; 1]%Z. split; [|exact two_cycle_walk].
  eexists. split; [by vm_compute|]. left.
Qed.

Lemma contains_cycles_finds_cycle_witness :
  reachable two_cycle /\ cyclic (_node_storage two_cycle) /\
  exists g', contains_cycles two_cycle = Some (true, g').
Proof.
  split; [apply int_graph_reachable|]. split; [exact two_cycle_cyclic|].
  exact (contains_cycles_finds_cycle two_cycle (int_graph_reachable _ _)
           two_cycle_cyclic).
Defined.

Lemma add_edge_succeeds_iff_witness :
  reachable one_edge /\
  ((add_edge one_edge 1%Z 2%Z "1->2").1 = true <->
   stored one_edge 1%Z /\ stored one_edge 2%Z /\
   forall f t, edge_in (_node_storage one_edge) f t ->
     merge_ids f t <> merge_ids 1%Z 2%Z).
Proof.
  split; [apply int_graph_reachable|].
  exact (add_edge_succeeds_iff one_edge 1%Z 2%Z "1->2" (int_graph_reachable _ _)).
Defined.

Lemma find_shortest_witness :
  wf_nodes (_node_storage two_cycle) /\
  is_Some (map_find 0%Z (_node_storage two_cycle)) /\
  unmarked_count (_node_storage two_cycle) < 3 /\
  exists b p,
    find 3 (_node_storage two_cycle) 0%Z 1%Z [] DEFAULT_TRACE_RESERVATION
    = Some (b, [] ++ p, _node_storage two_cycle) /\
    if b then
      fpath (_node_storage two_cycle) 1%Z 0%Z p /\
      forall q, fpath (_node_storage two_cycle) 1%Z 0%Z q ->
        (Z.of_nat (length q) < size_t_max)%Z -> length p <= length q
    else p = [] /\ forall q, ~ fpath (_node_storage two_cycle) 1%Z 0%Z q.
Proof.
  assert (wf_nodes (_node_storage two_cycle)) as Hwf
    by apply (inv_wf _ (reachable_inv _ (int_graph_reachable _ _))).
  assert (is_Some (map_find 0%Z (_node_storage two_cycle))) as Hfrom
    by (by eexists).
  assert (unmarked_count (_node_storage two_cycle) < 3) as Hfuel
    by (vm_compute; lia).
  split; [exact Hwf|]. split; [exact Hfrom|]. split; [exact Hfuel|].
  exact (find_shortest 3 (_node_storage two_cycle) 0%Z 1%Z []
           DEFAULT_TRACE_RESERVATION Hwf Hfrom Hfuel).
Defined.

Lemma two_cycle_edge : edge_in (_node_storage two_cycle) 0%Z 1%Z.
Proof. eexists. split; [by vm_compute|]. left. Qed.

Lemma edge_keys_distinct_witness :
  reachable two_cycle /\ edge_in (_node_storage two_cycle) 0%Z 1%Z /\
  merge_ids 0%Z 1%Z = merge_ids 0%Z 1%Z /\ 0%Z = 0%Z /\ 1%Z = 1%Z.
Proof.
  split; [apply int_graph_reachable|]. split; [exact two_cycle_edge|].
  split; [reflexivity|].
  exact (edge_keys_distinct two_cycle 0%Z 1%Z 0%Z 1%Z (int_graph_reachable _ _)
           two_cycle_edge two_cycle_edge eq_refl).
Defined.

Lemma self_edge_traced_edge : edge_in (_node_storage self_edge_traced) 1%Z 1%Z.
Proof. eexists. split; [by vm_compute|]. left. Qed.

Lemma self_edge_never_loaded_witness :
  reachable self_edge_traced /\
  edge_in (_node_storage self_edge_traced) 1%Z 1%Z /\
  trace self_edge_traced 1%Z 1%Z
    = Some (Some [3; 2; 0]%Z, self_edge_traced) /\
  load_edges self_edge_traced [3; 2; 0]%Z = Some (Some ["3->2"; "2->0"]) /\
  length ["3->2"; "2->0"] <> 1.
Proof.
  assert (reachable self_edge_traced) as Hr
    by apply after_trace_reachable, int_graph_reachable.
  assert (trace self_edge_traced 1%Z 1%Z
          = Some (Some [3; 2; 0]%Z, self_edge_traced)) as Htr
    by (by vm_compute).
  assert (load_edges self_edge_traced [3; 2; 0]%Z
          = Some (Some ["3->2"; "2->0"])) as Hload by (by vm_compute).
  split; [exact Hr|]. split; [exact self_edge_traced_edge|].
  split; [exact Htr|]. split; [exact Hload|].
  exact (self_edge_never_loaded self_edge_traced 1%Z [3; 2; 0]%Z
           self_edge_traced ["3->2"; "2->0"] Hr self_edge_traced_edge Htr Hload).
Defined.
